(** * twitpng: a shallow embedding of [main.cpp]

    The program turns a grey-scale picture into a quadtree whose leaves are
    one of three brightness classes, merges uniform quadrants, and then
    collapses further quadrants at random until the tree is small enough.

    Conventions of the embedding.
    - [size_t] values are numbers in [N]; every arithmetic operation that
      the source performs on [size_t] is followed by [wrap] (reduction
      modulo 2^64).
    - A C++ exception is [Err (runtime_error what)].  Undefined behaviour
      that the source can run into (dereferencing a null [shared_ptr],
      indexing past the end of a [Matrix] buffer) is reported as an error
      of its own instead of being given a meaning.
    - A pointer to a node is the path of child indices that leads to it from
      the root.  The [parent] field of a node is the path without its last
      index: the constructor sets it to the enclosing node and nothing ever
      changes it.  Nodes are never freed (see [merge_leaves]), so a
      [weak_ptr] of the leaf snapshot can always be locked. *)

From Stdlib Require Import NArith ZArith List String Bool Lia.
Import ListNotations.
Open Scope N_scope.

(** ** Results of evaluation *)

Inductive error : Type :=
| runtime_error (what : string)
| null_dereference
| out_of_bounds
| invalid_enum.

Inductive result (A : Type) : Type :=
| Ok (a : A)
| Err (e : error).
Arguments Ok {A} a.
Arguments Err {A} e.

Definition bind {A B : Type} (r : result A) (k : A -> result B) : result B :=
  match r with
  | Ok a => k a
  | Err e => Err e
  end.

Notation "x <- r ;; k" := (bind r (fun x => k))
  (at level 61, r at next level, right associativity).

(** ** [size_t] *)

Definition size_t_bits : N := 64.
Definition wrap (n : N) : N := n mod 2 ^ size_t_bits.

(** [--n] *)
Definition decr (n : N) : N := wrap (n + (2 ^ size_t_bits - 1)).

(** [for (size_t i = ...; ...; ++i) body], for [count] rounds from [i]. *)
Fixpoint for_loop {S : Type} (count : nat) (i : N)
    (body : N -> S -> result S) (s : S) : result S :=
  match count with
  | O => Ok s
  | Datatypes.S count' => s' <- body i s ;; for_loop count' (wrap (i + 1)) body s'
  end.

(** ** [Matrix<T>] *)

Record Matrix : Type := mkMatrix {
  width : N;
  height : N;
  data : list Z
}.

(** [Matrix()] *)
Definition Matrix_empty : Matrix := mkMatrix 0 0 [].

(** [Matrix(width, height)]: a buffer of [width * height] cells, all [T()]. *)
Definition Matrix_new (width height : N) : Matrix :=
  mkMatrix width height (repeat 0%Z (N.to_nat (wrap (width * height)))).

Definition get_width (m : Matrix) : N := width m.
Definition get_height (m : Matrix) : N := height m.

(** The offset [y * width + x] of [operator()]. *)
Definition offset (m : Matrix) (x y : N) : nat :=
  N.to_nat (wrap (wrap (y * width m) + x)).

(** [operator()(x, y) const] *)
Definition Matrix_get (m : Matrix) (x y : N) : result Z :=
  match nth_error (data m) (offset m x y) with
  | Some v => Ok v
  | None => Err out_of_bounds
  end.

Fixpoint list_set (l : list Z) (i : nat) (v : Z) : option (list Z) :=
  match l, i with
  | [], _ => None
  | _ :: l', O => Some (v :: l')
  | a :: l', Datatypes.S i' =>
      match list_set l' i' v with
      | Some l'' => Some (a :: l'')
      | None => None
      end
  end.

(** [operator()(x, y) = v] *)
Definition Matrix_set (m : Matrix) (x y : N) (v : Z) : result Matrix :=
  match list_set (data m) (offset m x y) v with
  | Some d => Ok (mkMatrix (width m) (height m) d)
  | None => Err out_of_bounds
  end.

(** ** Squaring

    [make_square] returns its local [output]; the embedding takes the
    caller's matrix to be that very object (the copy is elided), so the
    returned value is the matrix as the loops left it. *)

Definition next_greater_power_of_2 (n : N) : N :=
  let n := decr n in
  let n := N.lor n (N.shiftr n 1) in
  let n := N.lor n (N.shiftr n 2) in
  let n := N.lor n (N.shiftr n 4) in
  let n := N.lor n (N.shiftr n 8) in
  let n := N.lor n (N.shiftr n 16) in
  wrap (n + 1).

Definition make_square (input : Matrix) : result Matrix :=
  let width := next_greater_power_of_2 (get_width input) in
  let height := next_greater_power_of_2 (get_height input) in
  let size := N.max width height in
  let output := Matrix_new size size in
  for_loop (N.to_nat height) 0 (fun y output =>
    for_loop (N.to_nat width) 0 (fun x output =>
      v <- Matrix_get input x y ;;
      Matrix_set output (wrap (x * size) / width) (wrap (y * size) / height) v)
    output)
  output.

(** ** The quadtree *)

Inductive Type_ : Type :=
| UNDEFINED_TREE
| BLACK_TREE
| GREY_TREE
| WHITE_TREE
| SPLIT_TREE.

(** The enumerators' values. *)
Definition int_of_Type (t : Type_) : Z :=
  match t with
  | UNDEFINED_TREE => -1
  | BLACK_TREE => 0
  | GREY_TREE => 1
  | WHITE_TREE => 2
  | SPLIT_TREE => 3
  end.

(** [static_cast<Type>(z)] *)
Definition static_cast_Type (z : Z) : result Type_ :=
  match z with
  | (-1)%Z => Ok UNDEFINED_TREE
  | 0%Z => Ok BLACK_TREE
  | 1%Z => Ok GREY_TREE
  | 2%Z => Ok WHITE_TREE
  | 3%Z => Ok SPLIT_TREE
  | _ => Err invalid_enum
  end.

Definition Type_eqb (a b : Type_) : bool := (int_of_Type a =? int_of_Type b)%Z.

(** A node: its [type] and the four [children] pointers, [None] for null. *)
#[warnings="-register-all"] Inductive QuadTree : Type :=
| Node (type : Type_) (c0 c1 c2 c3 : option QuadTree).

Definition type (t : QuadTree) : Type_ :=
  match t with Node ty _ _ _ _ => ty end.

(** [child->...]: follow a [shared_ptr]. *)
Definition deref {A : Type} (child : option QuadTree)
    (k : QuadTree -> result A) : result A :=
  match child with
  | Some c => k c
  | None => Err null_dereference
  end.

Definition maximum_encoded_size : N := 903.

(** *** Construction *)

Definition classify (value : Z) : Type_ :=
  if (value <? 255 * 1 / 5)%Z then BLACK_TREE
  else if (value <? 255 * 3 / 5)%Z then GREY_TREE
  else WHITE_TREE.

Section Construction.

(** [static size_t minimum_cell_size] *)
Variable minimum_cell_size : N.
Variable matrix : Matrix.

Definition init_leaf (x y : N) : result QuadTree :=
  value <- Matrix_get matrix x y ;;
  Ok (Node (classify value) None None None None).

(** [init], by recursion on a bound [fuel] of [size].  With no fuel left
    [size] is 0, where [size <= minimum_cell_size] holds for every cell
    size: the first branch is the source's first branch too. *)
Fixpoint init_rec (fuel : nat) (x y size : N) : result QuadTree :=
  match fuel with
  | O => init_leaf x y
  | Datatypes.S fuel' =>
      if size <=? minimum_cell_size then init_leaf x y
      else
        let half := size / 2 in
        c0 <- init_rec fuel' x y half ;;
        c1 <- init_rec fuel' (wrap (x + half)) y half ;;
        c2 <- init_rec fuel' x (wrap (y + half)) half ;;
        c3 <- init_rec fuel' (wrap (x + half)) (wrap (y + half)) half ;;
        Ok (Node SPLIT_TREE (Some c0) (Some c1) (Some c2) (Some c3))
  end.

Definition init (x y size : N) : result QuadTree :=
  init_rec (N.to_nat size) x y size.

(** [QuadTree(const Matrix<T>&)] *)
Definition QuadTree_new : result QuadTree :=
  init 0 0 (get_width matrix).

End Construction.

(** *** Size *)

Definition add_size (rec : QuadTree -> result N) (child : option QuadTree)
    (size : N) : result N :=
  match child with
  | Some c => s <- rec c ;; Ok (wrap (size + s))
  | None => Ok size
  end.

Fixpoint encoded_size (t : QuadTree) : result N :=
  match t with
  | Node UNDEFINED_TREE _ _ _ _ =>
      Err (runtime_error "encoded_size() on undefined tree")
  | Node SPLIT_TREE c0 c1 c2 c3 =>
      size <- add_size encoded_size c0 0 ;;
      size <- add_size encoded_size c1 size ;;
      size <- add_size encoded_size c2 size ;;
      add_size encoded_size c3 size
  | Node _ _ _ _ _ => Ok (wrap (0 + 2))
  end.

(** *** Lossless merging *)

Fixpoint insert_sorted (t : Type_) (l : list Type_) : list Type_ :=
  match l with
  | [] => [t]
  | h :: l' =>
      if (int_of_Type t <=? int_of_Type h)%Z then t :: l else h :: insert_sorted t l'
  end.

(** [sort(begin(types), end(types))] *)
Definition sort (l : list Type_) : list Type_ := fold_right insert_sorted [] l.

(** [types.erase(unique(begin(types), end(types)), end(types))] *)
Fixpoint unique (l : list Type_) : list Type_ :=
  match l with
  | a :: l' =>
      match unique l' with
      | (b :: _) as u => if Type_eqb a b then u else a :: u
      | [] => [a]
      end
  | [] => []
  end.

Fixpoint merge_leaves (t : QuadTree) : result QuadTree :=
  match t with
  | Node SPLIT_TREE c0 c1 c2 c3 =>
      c0 <- deref c0 merge_leaves ;;
      c1 <- deref c1 merge_leaves ;;
      c2 <- deref c2 merge_leaves ;;
      c3 <- deref c3 merge_leaves ;;
      let kept := Node SPLIT_TREE (Some c0) (Some c1) (Some c2) (Some c3) in
      match unique (sort [type c0; type c1; type c2; type c3]) with
      | [ty] =>
          if Type_eqb ty SPLIT_TREE then Ok kept
          else Ok (Node ty (Some c0) (Some c1) (Some c2) (Some c3))
      | _ => Ok kept
      end
  | _ => Ok t
  end.

(** *** Mean type *)

Fixpoint mean_type (t : QuadTree) : result Type_ :=
  match t with
  | Node UNDEFINED_TREE _ _ _ _ =>
      Err (runtime_error "mean_type() on undefined tree")
  | Node SPLIT_TREE c0 c1 c2 c3 =>
      m0 <- deref c0 mean_type ;;
      m1 <- deref c1 mean_type ;;
      m2 <- deref c2 mean_type ;;
      m3 <- deref c3 mean_type ;;
      static_cast_Type
        (Z.quot (int_of_Type m0 + int_of_Type m1 + int_of_Type m2 + int_of_Type m3) 4)
  | Node ty _ _ _ _ => Ok ty
  end.

(** *** Pointers into the tree *)

(** A node is designated by the child indices leading to it from the root. *)
Definition path : Type := list nat.

Definition child (t : QuadTree) (i : nat) : option QuadTree :=
  match t, i with
  | Node _ c0 _ _ _, 0%nat => c0
  | Node _ _ c1 _ _, 1%nat => c1
  | Node _ _ _ c2 _, 2%nat => c2
  | Node _ _ _ _ c3, 3%nat => c3
  | _, _ => None
  end.

Definition set_child (t : QuadTree) (i : nat) (c : QuadTree) : QuadTree :=
  match t, i with
  | Node ty _ c1 c2 c3, 0%nat => Node ty (Some c) c1 c2 c3
  | Node ty c0 _ c2 c3, 1%nat => Node ty c0 (Some c) c2 c3
  | Node ty c0 c1 _ c3, 2%nat => Node ty c0 c1 (Some c) c3
  | Node ty c0 c1 c2 _, 3%nat => Node ty c0 c1 c2 (Some c)
  | _, _ => t
  end.

(** The node a pointer designates; [None] for a pointer to no node. *)
Fixpoint node_at (t : QuadTree) (p : path) : option QuadTree :=
  match p with
  | [] => Some t
  | i :: p' =>
      match child t i with
      | Some c => node_at c p'
      | None => None
      end
  end.

(** [p->type = ty] *)
Fixpoint set_type_at (t : QuadTree) (p : path) (ty : Type_) : option QuadTree :=
  match p with
  | [] => match t with Node _ c0 c1 c2 c3 => Some (Node ty c0 c1 c2 c3) end
  | i :: p' =>
      match child t i with
      | Some c =>
          match set_type_at c p' ty with
          | Some c' => Some (set_child t i c')
          | None => None
          end
      | None => None
      end
  end.

(** [tree->parent] of the node at [p]. *)
Definition parent (p : path) : path := removelast p.

(** *** Leaves *)

Definition visit_child
    (rec : QuadTree -> path -> list path -> result (list path))
    (this : path) (i : nat) (child : option QuadTree) (leaves : list path)
    : result (list path) :=
  deref child (fun c =>
    match type c with
    | UNDEFINED_TREE => Err (runtime_error "get_leaves() on undefined tree")
    | SPLIT_TREE => rec c (this ++ [i]) leaves
    | _ => Ok (leaves ++ [this ++ [i]])
    end).

(** [get_leaves(result)], called on the node at [this]. *)
Fixpoint get_leaves_into (t : QuadTree) (this : path) (leaves : list path)
    : result (list path) :=
  match t with
  | Node _ c0 c1 c2 c3 =>
      leaves <- visit_child get_leaves_into this 0 c0 leaves ;;
      leaves <- visit_child get_leaves_into this 1 c1 leaves ;;
      leaves <- visit_child get_leaves_into this 2 c2 leaves ;;
      visit_child get_leaves_into this 3 c3 leaves
  end.

Definition get_leaves (t : QuadTree) : result (list path) :=
  get_leaves_into t [] [].

(** *** Lossy merging *)

(** One round of the loop over the four siblings: [None] is [return false]. *)
Definition scan_sibbling (maximum_detail_loss : N) (sibbling : option QuadTree)
    (st : list Z * N) : result (option (list Z * N)) :=
  let (types, sibbling_splits) := st in
  match sibbling with
  | None => Err (runtime_error "merge_with_sibblings() with null sibbling")
  | Some s =>
      if Type_eqb (type s) SPLIT_TREE then
        let sibbling_splits := wrap (sibbling_splits + 1) in
        if maximum_detail_loss <? sibbling_splits then Ok None
        else
          m <- mean_type s ;;
          Ok (Some (types ++ [int_of_Type m], sibbling_splits))
      else Ok (Some (types ++ [int_of_Type (type s)], sibbling_splits))
  end.

Definition scan_next (maximum_detail_loss : N) (sibbling : option QuadTree)
    (st : result (option (list Z * N))) : result (option (list Z * N)) :=
  st <- st ;;
  match st with
  | Some st => scan_sibbling maximum_detail_loss sibbling st
  | None => Ok None
  end.

Definition scan_sibblings (maximum_detail_loss : N) (parent : QuadTree)
    : result (option (list Z * N)) :=
  match parent with
  | Node _ c0 c1 c2 c3 =>
      scan_next maximum_detail_loss c3
        (scan_next maximum_detail_loss c2
          (scan_next maximum_detail_loss c1
            (scan_sibbling maximum_detail_loss c0 ([], 0))))
  end.

Definition is_leaf_int (mean : Z) : bool :=
  (mean =? int_of_Type BLACK_TREE)%Z
  || (mean =? int_of_Type GREY_TREE)%Z
  || (mean =? int_of_Type WHITE_TREE)%Z.

Definition invalid_type_error : error :=
  runtime_error "merge_with_sibblings() merged to invalid type".

(** [merge_with_sibblings(tree, maximum_detail_loss)] on the tree rooted at
    [root], where [tree] points to the node at [p]. *)
Definition merge_with_sibblings (root : QuadTree) (p : path)
    (maximum_detail_loss : N) : result (bool * QuadTree) :=
  match node_at root p with
  | None => Err null_dereference
  | Some tree =>
      if Type_eqb (type tree) SPLIT_TREE || (List.length p =? 0)%nat then
        Err (runtime_error "merge_with_sibblings() on non-leaf")
      else
        match node_at root (parent p) with
        | None => Err null_dereference
        | Some above =>
            scanned <- scan_sibblings maximum_detail_loss above ;;
            match scanned with
            | None => Ok (false, root)
            | Some (types, _) =>
                let mean := Z.quot (fold_left Z.add types 0%Z) 4 in
                if negb (is_leaf_int mean) then Err invalid_type_error
                else
                  ty <- static_cast_Type mean ;;
                  match set_type_at root (parent p) ty with
                  | Some root' => Ok (true, root')
                  | None => Err null_dereference
                  end
            end
        end
  end.

(** *** Simplification *)

Record loop_state : Type := mkState {
  st_tree : QuadTree;
  st_current_size : N;
  st_maximum_detail_loss : N
}.

Inductive outcome : Type :=
| returned (t : QuadTree)
| failed (e : error)
| running (st : loop_state).

Definition hopeless : error :=
  runtime_error "image is hopelessly complex; try a smaller cell size".

Section Simplify.

(** The snapshot [leaves] and [last_size], both fixed before the loop. *)
Variable leaves : list path.
Variable last_size : N.

Definition loop_condition (st : loop_state) : bool :=
  negb (List.length leaves =? 0)%nat && (maximum_encoded_size <? st_current_size st).

(** The loop body, [r] being the value of [rand()]. *)
Definition loop_body (st : loop_state) (r : N) : result loop_state :=
  current_size <- encoded_size (st_tree st) ;;
  maximum_detail_loss <-
    (if last_size =? current_size then
       let maximum_detail_loss := wrap (st_maximum_detail_loss st + 1) in
       if 4 <? maximum_detail_loss then Err hopeless
       else Ok maximum_detail_loss
     else Ok (st_maximum_detail_loss st)) ;;
  let index := r mod N.of_nat (List.length leaves) in
  match nth_error leaves (N.to_nat index) with
  | None => Err out_of_bounds
  | Some leaf =>
      merged <- merge_with_sibblings (st_tree st) leaf maximum_detail_loss ;;
      Ok (mkState (snd merged) current_size maximum_detail_loss)
  end.

(** The loop, run on the values [rs] that [rand()] returns one after the
    other; [running] when the loop asks for more values than [rs] has. *)
Fixpoint loop (rs : list N) (st : loop_state) : outcome :=
  if loop_condition st then
    match rs with
    | [] => running st
    | r :: rs' =>
        match loop_body st r with
        | Ok st' => loop rs' st'
        | Err e => failed e
        end
    end
  else returned (st_tree st).

End Simplify.

Definition simplify (rs : list N) (t : QuadTree) : outcome :=
  match get_leaves t with
  | Err e => failed e
  | Ok leaves =>
      match encoded_size t with
      | Err e => failed e
      | Ok current_size =>
          let last_size := current_size in
          loop leaves last_size rs (mkState t current_size 0)
      end
  end.

(** *** The loop as the specification words it

    Step 3 of the specification compares the size with the one recorded at
    the end of the round before.  [loop_as_specified] is [loop] with that
    one difference: the size a round computes is the [last_size] of the
    next round. *)
Fixpoint loop_as_specified (leaves : list path) (rs : list N) (last_size : N)
    (st : loop_state) : outcome :=
  if loop_condition leaves st then
    match rs with
    | [] => running st
    | r :: rs' =>
        match loop_body leaves last_size st r with
        | Ok st' => loop_as_specified leaves rs' (st_current_size st') st'
        | Err e => failed e
        end
    end
  else returned (st_tree st).

Definition simplify_as_specified (rs : list N) (t : QuadTree) : outcome :=
  match get_leaves t with
  | Err e => failed e
  | Ok leaves =>
      match encoded_size t with
      | Err e => failed e
      | Ok current_size =>
          loop_as_specified leaves rs current_size (mkState t current_size 0)
      end
  end.

(** *** Printing *)

Fixpoint show (t : QuadTree) : result string :=
  match t with
  | Node UNDEFINED_TREE _ _ _ _ => Ok "undefined"%string
  | Node BLACK_TREE _ _ _ _ => Ok "."%string
  | Node GREY_TREE _ _ _ _ => Ok "/"%string
  | Node WHITE_TREE _ _ _ _ => Ok "#"%string
  | Node SPLIT_TREE c0 c1 c2 c3 =>
      s0 <- deref c0 show ;;
      s1 <- deref c1 show ;;
      s2 <- deref c2 show ;;
      s3 <- deref c3 show ;;
      Ok ("(" ++ s0 ++ s1 ++ s2 ++ s3 ++ ")")%string
  end.

(** ** The program *)

Inductive termination : Type :=
| exited (code : Z)
| aborted (e : error)
| unfinished.

Record execution : Type := mkExecution {
  cerr : list string;
  cout : list string;
  status : termination
}.

(** What becomes of an error that leaves the body of [main]: an exception
    reaches the handler, which prints [what()] and returns 1. *)
Definition stop (log : list string) (e : error) : execution :=
  match e with
  | runtime_error what => mkExecution (log ++ [what]) [] (exited 1)
  | _ => mkExecution log [] (aborted e)
  end.

Section Program.

(** [stream >> QuadTree::minimum_cell_size], [None] when it fails. *)
Variable parse_size_t : string -> option N.
(** [image.read(file, ...)]: the decoded samples, [None] when the library
    throws, which leaves [image] as it was default-constructed, 0 by 0. *)
Variable png_read : string -> option Matrix.

Definition copy_pixels (image : Matrix) : result Matrix :=
  let pixels := Matrix_new (get_width image) (get_height image) in
  for_loop (N.to_nat (get_height image)) 0 (fun y pixels =>
    for_loop (N.to_nat (get_width image)) 0 (fun x pixels =>
      v <- Matrix_get image x y ;;
      Matrix_set pixels x y v)
    pixels)
  pixels.

Definition main (argv : list string) (rs : list N) : execution :=
  let argc := List.length argv in
  if (argc <? 1)%nat || (2 <? argc)%nat then
    stop [] (runtime_error "Usage: png2tweet filename.png [cell size]")
  else
    match (if (argc =? 2)%nat then parse_size_t (nth 1 argv ""%string) else Some 64) with
    | None => stop [] (runtime_error "invalid cell size")
    | Some minimum_cell_size =>
        let file := nth 0 argv ""%string in
        let log := [("Reading " ++ file)%string] in
        let image :=
          match png_read file with
          | Some image => image
          | None => Matrix_empty
          end in
        let log := log ++ ["Needlessly building matrix"%string] in
        match copy_pixels image with
        | Err e => stop log e
        | Ok pixels =>
        let log := log ++ ["Making matrix square"%string] in
        match make_square pixels with
        | Err e => stop log e
        | Ok square =>
        let log := log ++ ["Building quadtree"%string] in
        match QuadTree_new minimum_cell_size square with
        | Err e => stop log e
        | Ok tree =>
        let log := log ++ ["Merging leaves"%string] in
        match merge_leaves tree with
        | Err e => stop log e
        | Ok tree =>
        let log := log ++ ["Simplifying"%string] in
        match simplify rs tree with
        | failed e => stop log e
        | running _ => mkExecution log [] unfinished
        | returned tree =>
        match show tree with
        | Err e => stop log e
        | Ok s => mkExecution log [s] (exited 0)
        end end end end end end
    end.

End Program.

(** ** Predicates on trees *)

Definition is_leaf_type (ty : Type_) : bool :=
  match ty with
  | BLACK_TREE | GREY_TREE | WHITE_TREE => true
  | _ => false
  end.

Definition is_null (c : option QuadTree) : bool :=
  match c with
  | None => true
  | Some _ => false
  end.

(** [f] holds of the node behind a pointer, if there is one. *)
Definition through (f : QuadTree -> bool) (c : option QuadTree) : bool :=
  match c with
  | Some t => f t
  | None => true
  end.

(** No node is [UNDEFINED_TREE], and a [SPLIT_TREE] node has its four
    children. *)
Fixpoint well_formed (t : QuadTree) : bool :=
  match t with
  | Node ty c0 c1 c2 c3 =>
      negb (Type_eqb ty UNDEFINED_TREE)
      && (negb (Type_eqb ty SPLIT_TREE)
          || negb (is_null c0 || is_null c1 || is_null c2 || is_null c3))
      && through well_formed c0 && through well_formed c1
      && through well_formed c2 && through well_formed c3
  end.

(** Every node of a leaf type has no children. *)
Fixpoint leaves_childless (t : QuadTree) : bool :=
  match t with
  | Node ty c0 c1 c2 c3 =>
      (negb (is_leaf_type ty)
       || (is_null c0 && is_null c1 && is_null c2 && is_null c3))
      && through leaves_childless c0 && through leaves_childless c1
      && through leaves_childless c2 && through leaves_childless c3
  end.

(** What [init] builds: leaves without children under complete splits. *)
Fixpoint fresh (t : QuadTree) : bool :=
  match t with
  | Node ty c0 c1 c2 c3 =>
      match c0, c1, c2, c3 with
      | None, None, None, None => is_leaf_type ty
      | Some t0, Some t1, Some t2, Some t3 =>
          Type_eqb ty SPLIT_TREE && fresh t0 && fresh t1 && fresh t2 && fresh t3
      | _, _, _, _ => false
      end
  end.

(** The pointer structure of a tree: the tree with its types forgotten. *)
Fixpoint erase (t : QuadTree) : QuadTree :=
  match t with
  | Node _ c0 c1 c2 c3 =>
      Node UNDEFINED_TREE (option_map erase c0) (option_map erase c1)
        (option_map erase c2) (option_map erase c3)
  end.

(** Induction on trees, through the children pointers. *)
Section QuadTree_induction.

Variable P : QuadTree -> Prop.

Definition behind (c : option QuadTree) : Prop :=
  match c with
  | Some t => P t
  | None => True
  end.

Hypothesis node_case : forall ty c0 c1 c2 c3,
  behind c0 -> behind c1 -> behind c2 -> behind c3 -> P (Node ty c0 c1 c2 c3).

Fixpoint QuadTree_induction (t : QuadTree) : P t :=
  match t with
  | Node ty c0 c1 c2 c3 =>
      let IH := fun c : option QuadTree =>
        match c return behind c with
        | Some t' => QuadTree_induction t'
        | None => I
        end in
      node_case ty c0 c1 c2 c3 (IH c0) (IH c1) (IH c2) (IH c3)
  end.

End QuadTree_induction.

(** How [merge_leaves] decides on a split node whose children are merged. *)
Definition merged_node (c0 c1 c2 c3 : QuadTree) : QuadTree :=
  match unique (sort [type c0; type c1; type c2; type c3]) with
  | [ty] =>
      if Type_eqb ty SPLIT_TREE
      then Node SPLIT_TREE (Some c0) (Some c1) (Some c2) (Some c3)
      else Node ty (Some c0) (Some c1) (Some c2) (Some c3)
  | _ => Node SPLIT_TREE (Some c0) (Some c1) (Some c2) (Some c3)
  end.

(** The sum that [encoded_size] computes, without the wrap-around. *)
Definition size_behind (f : QuadTree -> N) (c : option QuadTree) : N :=
  match c with
  | Some t => f t
  | None => 0
  end.

Fixpoint unbounded_size (t : QuadTree) : N :=
  match t with
  | Node ty c0 c1 c2 c3 =>
      if Type_eqb ty SPLIT_TREE then
        size_behind unbounded_size c0 + size_behind unbounded_size c1
        + size_behind unbounded_size c2 + size_behind unbounded_size c3
      else 2
  end.

(** ** Sample inputs *)

(** The [w] by [h] matrix whose sample at [(x, y)] is [f x y]. *)
Definition grid (w h : N) (f : N -> N -> Z) : Matrix :=
  mkMatrix w h
    (flat_map (fun y => map (fun x => f (N.of_nat x) (N.of_nat y)) (seq 0 (N.to_nat w)))
       (seq 0 (N.to_nat h))).

(** A white sample where both coordinates are even, black elsewhere: no
    aligned 2 by 2 block is uniform. *)
Definition dots (x y : N) : Z :=
  if N.even x && N.even y then 255%Z else 0%Z.

(** The tree of a [2^depth] by [2^depth] grid of [dots], cell size 1. *)
Fixpoint dots_tree (depth : nat) : QuadTree :=
  match depth with
  | O => Node BLACK_TREE None None None None
  | 1%nat =>
      Node SPLIT_TREE (Some (Node WHITE_TREE None None None None))
        (Some (Node BLACK_TREE None None None None))
        (Some (Node BLACK_TREE None None None None))
        (Some (Node BLACK_TREE None None None None))
  | Datatypes.S d =>
      Node SPLIT_TREE (Some (dots_tree d)) (Some (dots_tree d))
        (Some (dots_tree d)) (Some (dots_tree d))
  end.

(** What is seen of a loop that is still running: the size it last computed
    and its detail-loss bound. *)
Definition observe (o : outcome) : option (N * N) :=
  match o with
  | running st => Some (st_current_size st, st_maximum_detail_loss st)
  | _ => None
  end.

(** ** Trees that the loop cannot finish *)

Definition childless_leaf (t : QuadTree) : bool :=
  match t with
  | Node ty None None None None => is_leaf_type ty
  | _ => false
  end.

(** [f] holds of the node behind a pointer, and there is one. *)
Definition under (f : QuadTree -> bool) (c : option QuadTree) : bool :=
  match c with
  | Some t => f t
  | None => false
  end.

(** A complete tree with [k] levels of split nodes above the nodes that
    hold the leaves.  Those last nodes may have been collapsed, the ones
    above have not. *)
Fixpoint layered (k : nat) (t : QuadTree) : bool :=
  match t with
  | Node ty c0 c1 c2 c3 =>
      match k with
      | O =>
          negb (Type_eqb ty UNDEFINED_TREE)
          && under childless_leaf c0 && under childless_leaf c1
          && under childless_leaf c2 && under childless_leaf c3
      | Datatypes.S k' =>
          Type_eqb ty SPLIT_TREE
          && under (layered k') c0 && under (layered k') c1
          && under (layered k') c2 && under (layered k') c3
      end
  end.

(** The sizes of such a tree with every last node collapsed, and with none. *)
Definition lowest (k : nat) : N := 2 * 4 ^ N.of_nat k.
Definition highest (k : nat) : N := 8 * 4 ^ N.of_nat k.

(** The pointers to the leaves of such a tree. *)
Definition leaf_pointer (k : nat) (p : path) : bool :=
  (List.length p =? Datatypes.S k)%nat && forallb (fun i => (i <? 4)%nat) p.

(** ** Further predicates *)

(** Every bit of [a] is the disjunction of [r] consecutive bits of [m]. *)
Definition smeared (r a m : N) : Prop :=
  forall i, N.testbit a i = true <-> exists d, d < r /\ N.testbit m (i + d) = true.

(** A matrix whose buffer has its [width * height] cells, this product
    fitting [size_t]. *)
Definition complete (m : Matrix) : Prop :=
  width m * height m < 2 ^ size_t_bits
  /\ List.length (data m) = N.to_nat (width m * height m).

(** Four nodes of one and the same type, which is not [SPLIT_TREE]. *)
Definition uniform (c0 c1 c2 c3 : QuadTree) : bool :=
  Type_eqb (type c0) (type c1) && Type_eqb (type c1) (type c2)
  && Type_eqb (type c2) (type c3) && negb (Type_eqb (type c0) SPLIT_TREE).

(** No split node, among those reached through split nodes, has four
    uniform children. *)
Fixpoint compact (t : QuadTree) : bool :=
  match t with
  | Node SPLIT_TREE (Some c0) (Some c1) (Some c2) (Some c3) =>
      negb (uniform c0 c1 c2 c3)
      && compact c0 && compact c1 && compact c2 && compact c3
  | _ => true
  end.

(** The type of the node a pointer designates. *)
Definition type_at (t : QuadTree) (p : path) : option Type_ :=
  option_map type (node_at t p).

(** A node with its four children. *)
Definition full_node (t : QuadTree) : bool :=
  match t with
  | Node _ c0 c1 c2 c3 => negb (is_null c0 || is_null c1 || is_null c2 || is_null c3)
  end.

(** A pointer to a node that has a parent, the parent having its four
    children. *)
Definition has_sibblings (t : QuadTree) (p : path) : bool :=
  negb (List.length p =? 0)%nat
  && match node_at t (parent p) with
     | Some above => full_node above
     | None => false
     end
  && match node_at t p with
     | Some _ => true
     | None => false
     end.

(** A pointer to a node of a leaf type that has sibblings and whose parent
    is the root, whose type is not looked at, or a split node. *)
Definition listed_leaf (t : QuadTree) (p : path) : Prop :=
  has_sibblings t p = true
  /\ (exists ty, type_at t p = Some ty /\ is_leaf_type ty = true)
  /\ (parent p = [] \/ type_at t (parent p) = Some SPLIT_TREE).

(** The number of split nodes among the children of a node. *)
Definition is_split (c : option QuadTree) : N :=
  match c with
  | Some t => if Type_eqb (type t) SPLIT_TREE then 1 else 0
  | None => 0
  end.

Definition split_children (t : QuadTree) : N :=
  match t with
  | Node _ c0 c1 c2 c3 => is_split c0 + is_split c1 + is_split c2 + is_split c3
  end.

(** The trees that merging makes of [t]: any number of calls of
    [merge_leaves] and [merge_with_sibblings], each of them returning. *)
Inductive merged_from (t : QuadTree) : QuadTree -> Prop :=
| merged_none : merged_from t t
| merged_leaves (t1 t2 : QuadTree) :
    merged_from t t1 -> merge_leaves t1 = Ok t2 -> merged_from t t2
| merged_sibblings (t1 t2 : QuadTree) (p : path) (mdl : N) (b : bool) :
    merged_from t t1 -> merge_with_sibblings t1 p mdl = Ok (b, t2) -> merged_from t t2.

(** The nodes between the root and the node at [p], both left out, are all
    [SPLIT_TREE]. *)
Definition below_splits (t : QuadTree) (p : path) : Prop :=
  forall q r, q <> [] -> r <> [] -> p = q ++ r -> type_at t q = Some SPLIT_TREE.

(** * Properties *)

(** ** The error monad *)

Lemma bind_Ok {A B : Type} (r : result A) (k : A -> result B) (b : B) :
  bind r k = Ok b -> exists a, r = Ok a /\ k a = Ok b.
Proof.
  destruct r as [a | e]; simpl; intros H.
  - exists a. split; [reflexivity | exact H].
  - discriminate H.
Qed.

Lemma deref_Ok {A : Type} (c : option QuadTree) (k : QuadTree -> result A) (a : A) :
  deref c k = Ok a -> exists t, c = Some t /\ k t = Ok a.
Proof.
  destruct c as [t | ]; simpl; intros H.
  - exists t. split; [reflexivity | exact H].
  - discriminate H.
Qed.

(** [H : x <- r ;; k = Ok b] becomes [Hx : r = Ok x] and [H : k x = Ok b]. *)
Ltac bind_inv H x Hx :=
  apply bind_Ok in H; destruct H as [x [Hx H]].

(** The same when [r] follows a pointer to [t]. *)
Ltac deref_inv H t x Hx :=
  bind_inv H x Hx; apply deref_Ok in Hx; destruct Hx as [t [-> Hx]].

(** ** [size_t] *)

Lemma wrap_small (n : N) : n < 2 ^ size_t_bits -> wrap n = n.
Proof. intros H. unfold wrap. apply N.mod_small. exact H. Qed.

Lemma wrap_bound (n : N) : wrap n < 2 ^ size_t_bits.
Proof. unfold wrap. apply N.mod_lt. discriminate. Qed.

(** A loop fails when one of its rounds fails whatever the state. *)
Lemma for_loop_fails {S : Type} (body : N -> S -> result S) (j : N) :
  (forall s, exists e, body j s = Err e) ->
  forall (count : nat) (i : N) (s : S),
  i + N.of_nat count <= 2 ^ size_t_bits ->
  i <= j < i + N.of_nat count ->
  exists e, for_loop count i body s = Err e.
Proof.
  intros Hj. induction count as [ | count IH]; intros i s Hfit Hin; [lia | ].
  cbn [for_loop].
  destruct (N.eq_dec i j) as [-> | Hne].
  - destruct (Hj s) as [e ->]. exists e. reflexivity.
  - destruct (body i s) as [s' | e]; cbn [bind]; [ | exists e; reflexivity].
    rewrite wrap_small by lia. apply IH; lia.
Qed.

(** A loop fails only the way its rounds fail. *)
Lemma for_loop_error {S : Type} (body : N -> S -> result S) (e0 : error) :
  (forall i s e, body i s = Err e -> e = e0) ->
  forall (count : nat) (i : N) (s : S) (e : error),
  for_loop count i body s = Err e -> e = e0.
Proof.
  intros Hbody. induction count as [ | count IH]; intros i s e H; [discriminate H | ].
  cbn [for_loop] in H.
  destruct (body i s) as [s' | e'] eqn:E; cbn [bind] in H.
  - apply (IH _ _ _ H).
  - injection H as <-. apply (Hbody _ _ _ E).
Qed.

(** ** Classification *)

Lemma thresholds : (255 * 1 / 5 = 51)%Z /\ (255 * 3 / 5 = 153)%Z.
Proof. split; reflexivity. Qed.

Lemma classify_spec (v : Z) :
  ((v < 51)%Z -> classify v = BLACK_TREE)
  /\ ((51 <= v < 153)%Z -> classify v = GREY_TREE)
  /\ ((153 <= v)%Z -> classify v = WHITE_TREE).
Proof.
  unfold classify. destruct thresholds as [-> ->].
  destruct (Z.ltb_spec v 51), (Z.ltb_spec v 153); repeat split; intros; (reflexivity || lia).
Qed.

Lemma classify_is_leaf (v : Z) : is_leaf_type (classify v) = true.
Proof.
  unfold classify.
  destruct (_ <? _)%Z; [reflexivity | destruct (_ <? _)%Z; reflexivity].
Qed.

(** ** Construction *)

Lemma leb_0 (n : N) : (0 <=? n) = true.
Proof. apply N.leb_le. lia. Qed.

(** Any fuel that bounds [size] gives the same tree. *)
Lemma init_rec_fuel (mcs : N) (m : Matrix) (f1 : nat) :
  forall (f2 : nat) (x y size : N),
  (N.to_nat size <= f1)%nat -> (N.to_nat size <= f2)%nat ->
  init_rec mcs m f1 x y size = init_rec mcs m f2 x y size.
Proof.
  induction f1 as [ | f1 IH]; intros f2 x y size H1 H2.
  - assert (size = 0) by lia. subst size.
    destruct f2; [reflexivity | ]. cbn [init_rec]. rewrite leb_0. reflexivity.
  - destruct f2 as [ | f2].
    + assert (size = 0) by lia. subst size. cbn [init_rec]. rewrite leb_0. reflexivity.
    + cbn [init_rec]. destruct (N.leb_spec size mcs) as [Hle | Hgt]; [reflexivity | ].
      assert (Hhalf : size / 2 < size) by (apply N.div_lt; lia).
      cbv zeta.
      rewrite (IH f2 x y), (IH f2 (wrap (x + size / 2)) y),
        (IH f2 x (wrap (y + size / 2))),
        (IH f2 (wrap (x + size / 2)) (wrap (y + size / 2))) by lia.
      reflexivity.
Qed.

(** The equation of [init], as the source states it. *)
Lemma init_eq (mcs : N) (m : Matrix) (x y size : N) :
  init mcs m x y size =
  if size <=? mcs then init_leaf m x y
  else
    let half := size / 2 in
    c0 <- init mcs m x y half ;;
    c1 <- init mcs m (wrap (x + half)) y half ;;
    c2 <- init mcs m x (wrap (y + half)) half ;;
    c3 <- init mcs m (wrap (x + half)) (wrap (y + half)) half ;;
    Ok (Node SPLIT_TREE (Some c0) (Some c1) (Some c2) (Some c3)).
Proof.
  unfold init.
  destruct (N.to_nat size) as [ | fuel] eqn:Hfuel.
  - assert (size = 0) by lia. subst size. cbn [init_rec]. rewrite leb_0. reflexivity.
  - cbn [init_rec]. destruct (N.leb_spec size mcs) as [Hle | Hgt]; [reflexivity | ].
    assert (Hhalf : size / 2 < size) by (apply N.div_lt; lia).
    cbv zeta.
    rewrite (init_rec_fuel mcs m fuel (N.to_nat (size / 2)) x y),
      (init_rec_fuel mcs m fuel (N.to_nat (size / 2)) (wrap (x + size / 2)) y),
      (init_rec_fuel mcs m fuel (N.to_nat (size / 2)) x (wrap (y + size / 2))),
      (init_rec_fuel mcs m fuel (N.to_nat (size / 2)) (wrap (x + size / 2)) (wrap (y + size / 2)))
      by lia.
    reflexivity.
Qed.

Lemma init_rec_fresh (mcs : N) (m : Matrix) (fuel : nat) :
  forall (x y size : N) (t : QuadTree),
  init_rec mcs m fuel x y size = Ok t -> fresh t = true.
Proof.
  assert (Hleaf : forall x y t, init_leaf m x y = Ok t -> fresh t = true).
  { unfold init_leaf. intros x y t H.
    apply bind_Ok in H. destruct H as [v [_ H]]. injection H as <-.
    simpl. apply classify_is_leaf. }
  induction fuel as [ | fuel IH]; intros x y size t H.
  - apply (Hleaf x y). exact H.
  - cbn [init_rec] in H. destruct (size <=? mcs).
    + apply (Hleaf x y). exact H.
    + cbv zeta in H.
      bind_inv H c0 H0.
      bind_inv H c1 H1.
      bind_inv H c2 H2.
      bind_inv H c3 H3.
      injection H as <-. simpl.
      rewrite (IH _ _ _ _ H0), (IH _ _ _ _ H1), (IH _ _ _ _ H2), (IH _ _ _ _ H3).
      reflexivity.
Qed.

Lemma QuadTree_new_fresh (mcs : N) (m : Matrix) (t : QuadTree) :
  QuadTree_new mcs m = Ok t -> fresh t = true.
Proof. apply init_rec_fresh. Qed.

Lemma fresh_inv (t : QuadTree) :
  fresh t = true ->
  (exists ty, t = Node ty None None None None /\ is_leaf_type ty = true)
  \/ (exists t0 t1 t2 t3,
        t = Node SPLIT_TREE (Some t0) (Some t1) (Some t2) (Some t3)
        /\ fresh t0 = true /\ fresh t1 = true /\ fresh t2 = true /\ fresh t3 = true).
Proof.
  destruct t as [ty [t0 | ] [t1 | ] [t2 | ] [t3 | ]]; simpl; intros H;
    try discriminate H.
  - right. exists t0, t1, t2, t3.
    repeat (apply andb_prop in H; destruct H as [H ?]).
    destruct ty; try discriminate H. auto.
  - left. exists ty. auto.
Qed.

Lemma fresh_well_formed (t : QuadTree) : fresh t = true -> well_formed t = true.
Proof.
  induction t as [ty c0 c1 c2 c3 IH0 IH1 IH2 IH3] using QuadTree_induction.
  intros H. destruct (fresh_inv _ H) as [[ty' [E Hty]] | [t0 [t1 [t2 [t3 [E [H0 [H1 [H2 H3]]]]]]]]].
  - injection E as -> -> -> -> ->. destruct ty'; try discriminate Hty; reflexivity.
  - injection E as -> -> -> -> ->. simpl in *.
    rewrite (IH0 H0), (IH1 H1), (IH2 H2), (IH3 H3). reflexivity.
Qed.

Lemma fresh_leaves_childless (t : QuadTree) :
  fresh t = true -> leaves_childless t = true.
Proof.
  induction t as [ty c0 c1 c2 c3 IH0 IH1 IH2 IH3] using QuadTree_induction.
  intros H. destruct (fresh_inv _ H) as [[ty' [E Hty]] | [t0 [t1 [t2 [t3 [E [H0 [H1 [H2 H3]]]]]]]]].
  - injection E as -> -> -> -> ->. simpl. rewrite Hty. reflexivity.
  - injection E as -> -> -> -> ->. simpl in *.
    rewrite (IH0 H0), (IH1 H1), (IH2 H2), (IH3 H3). reflexivity.
Qed.

(** C9: a region no larger than the minimum cell size becomes a leaf whose
    category classifies the one sample at the region's origin: dark below
    51, mid from 51 up to 152, light from 153. *)
Theorem init_small_region (mcs : N) (m : Matrix) (x y size : N) (v : Z) :
  size <= mcs ->
  Matrix_get m x y = Ok v ->
  init mcs m x y size = Ok (Node (classify v) None None None None)
  /\ ((v < 51)%Z -> classify v = BLACK_TREE)
  /\ ((51 <= v < 153)%Z -> classify v = GREY_TREE)
  /\ ((153 <= v)%Z -> classify v = WHITE_TREE).
Proof.
  intros Hsize Hget. split; [ | apply classify_spec].
  rewrite init_eq.
  apply N.leb_le in Hsize. rewrite Hsize.
  unfold init_leaf. rewrite Hget. reflexivity.
Qed.

Lemma init_small_region_witness :
  init 64 (grid 2 2 (fun x y => Z.of_N (100 * x + 60 * y))) 1 1 64
  = Ok (Node WHITE_TREE None None None None).
Proof.
  destruct (init_small_region 64 (grid 2 2 (fun x y => Z.of_N (100 * x + 60 * y)))
              1 1 64 160%Z) as [H _].
  - vm_compute. discriminate.
  - reflexivity.
  - exact H.
Defined.

Lemma copy_pixels_empty : copy_pixels Matrix_empty = Ok Matrix_empty.
Proof. reflexivity. Qed.

Lemma make_square_empty : make_square Matrix_empty = Ok Matrix_empty.
Proof. reflexivity. Qed.

Lemma QuadTree_new_of_empty (mcs : N) :
  QuadTree_new mcs Matrix_empty = Err out_of_bounds.
Proof. reflexivity. Qed.

(** C10: an empty image is copied and squared into the empty matrix; its
    width 0 is within every minimum cell size, so the constructor asks for
    the sample at (0, 0), which the empty buffer does not have, and no leaf
    is built. *)
Theorem QuadTree_new_empty (mcs : N) :
  copy_pixels Matrix_empty = Ok Matrix_empty
  /\ make_square Matrix_empty = Ok Matrix_empty
  /\ (get_width Matrix_empty <=? mcs) = true
  /\ Matrix_get Matrix_empty 0 0 = Err out_of_bounds
  /\ QuadTree_new mcs Matrix_empty = Err out_of_bounds.
Proof.
  split; [apply copy_pixels_empty | ].
  split; [apply make_square_empty | ].
  split; [apply leb_0 | ].
  split; [reflexivity | apply QuadTree_new_of_empty].
Qed.

(** ** Lossless merging *)

Lemma merge_leaves_other (ty : Type_) (c0 c1 c2 c3 : option QuadTree) :
  Type_eqb ty SPLIT_TREE = false ->
  merge_leaves (Node ty c0 c1 c2 c3) = Ok (Node ty c0 c1 c2 c3).
Proof. destruct ty; intros H; (reflexivity || discriminate H). Qed.

Lemma merge_leaves_split (c0 c1 c2 c3 : option QuadTree) (t' : QuadTree) :
  merge_leaves (Node SPLIT_TREE c0 c1 c2 c3) = Ok t' ->
  exists t0 t1 t2 t3 t0' t1' t2' t3',
    c0 = Some t0 /\ c1 = Some t1 /\ c2 = Some t2 /\ c3 = Some t3
    /\ merge_leaves t0 = Ok t0' /\ merge_leaves t1 = Ok t1'
    /\ merge_leaves t2 = Ok t2' /\ merge_leaves t3 = Ok t3'
    /\ t' = merged_node t0' t1' t2' t3'.
Proof.
  cbn [merge_leaves]. intros H.
  deref_inv H t0 t0' H0.
  deref_inv H t1 t1' H1.
  deref_inv H t2 t2' H2.
  deref_inv H t3 t3' H3.
  exists t0, t1, t2, t3, t0', t1', t2', t3'.
  repeat (split; [reflexivity || assumption | ]).
  unfold merged_node. cbv zeta in H.
  destruct (unique _) as [ | ty [ | ty' l]]; try (injection H as <-; reflexivity).
  destruct (Type_eqb ty SPLIT_TREE); injection H as <-; reflexivity.
Qed.

Lemma merge_leaves_merged (t0 t1 t2 t3 : QuadTree) :
  merge_leaves t0 = Ok t0 -> merge_leaves t1 = Ok t1 ->
  merge_leaves t2 = Ok t2 -> merge_leaves t3 = Ok t3 ->
  merge_leaves (merged_node t0 t1 t2 t3) = Ok (merged_node t0 t1 t2 t3).
Proof.
  intros H0 H1 H2 H3.
  assert (Hkept : merge_leaves (Node SPLIT_TREE (Some t0) (Some t1) (Some t2) (Some t3))
                  = Ok (merged_node t0 t1 t2 t3)).
  { cbn [merge_leaves deref]. rewrite H0, H1, H2, H3. cbn [bind].
    unfold merged_node.
    destruct (unique _) as [ | ty [ | ty' l]]; try reflexivity.
    destruct (Type_eqb ty SPLIT_TREE); reflexivity. }
  unfold merged_node in *.
  destruct (unique _) as [ | ty [ | ty' l]]; try exact Hkept.
  destruct (Type_eqb ty SPLIT_TREE) eqn:Hty; [exact Hkept | ].
  apply merge_leaves_other. exact Hty.
Qed.

(** A second pass changes nothing. *)
Lemma merge_leaves_idempotent (t : QuadTree) :
  forall t', merge_leaves t = Ok t' -> merge_leaves t' = Ok t'.
Proof.
  induction t as [ty c0 c1 c2 c3 IH0 IH1 IH2 IH3] using QuadTree_induction.
  intros t' H.
  destruct (Type_eqb ty SPLIT_TREE) eqn:Hty.
  - destruct ty; try discriminate Hty.
    apply merge_leaves_split in H.
    destruct H as [t0 [t1 [t2 [t3 [t0' [t1' [t2' [t3' H]]]]]]]].
    destruct H as [-> [-> [-> [-> [H0 [H1 [H2 [H3 ->]]]]]]]].
    simpl in IH0, IH1, IH2, IH3.
    apply merge_leaves_merged; auto.
  - rewrite merge_leaves_other in H by exact Hty.
    injection H as <-. apply merge_leaves_other. exact Hty.
Qed.

(** The pass goes through on every well-formed tree. *)
Lemma merge_leaves_total (t : QuadTree) :
  well_formed t = true -> exists t', merge_leaves t = Ok t'.
Proof.
  induction t as [ty c0 c1 c2 c3 IH0 IH1 IH2 IH3] using QuadTree_induction.
  intros H. destruct (Type_eqb ty SPLIT_TREE) eqn:Hty.
  - destruct ty; try discriminate Hty.
    destruct c0 as [t0 | ], c1 as [t1 | ], c2 as [t2 | ], c3 as [t3 | ];
      try discriminate H.
    simpl in H, IH0, IH1, IH2, IH3.
    repeat (apply andb_prop in H; destruct H as [H ?]).
    destruct IH0 as [t0' E0]; [assumption | ].
    destruct IH1 as [t1' E1]; [assumption | ].
    destruct IH2 as [t2' E2]; [assumption | ].
    destruct IH3 as [t3' E3]; [assumption | ].
    exists (merged_node t0' t1' t2' t3').
    cbn [merge_leaves deref]. rewrite E0, E1, E2, E3. cbn [bind].
    unfold merged_node.
    destruct (unique _) as [ | ty [ | ty' l]]; try reflexivity.
    destruct (Type_eqb ty SPLIT_TREE); reflexivity.
  - exists (Node ty c0 c1 c2 c3). apply merge_leaves_other. exact Hty.
Qed.

(** C5: on every tree that construction produces, [merge_leaves] returns a
    tree, and applied to that tree it returns the very same tree, types and
    children alike. *)
Theorem merge_leaves_twice (mcs : N) (m : Matrix) (t : QuadTree) :
  QuadTree_new mcs m = Ok t ->
  exists t', merge_leaves t = Ok t' /\ merge_leaves t' = Ok t'.
Proof.
  intros H.
  destruct (merge_leaves_total t) as [t' E].
  - apply fresh_well_formed. apply (QuadTree_new_fresh mcs m). exact H.
  - exists t'. split; [exact E | ]. apply (merge_leaves_idempotent t). exact E.
Qed.

Lemma merge_leaves_twice_witness :
  exists t', merge_leaves (dots_tree 1) = Ok t' /\ merge_leaves t' = Ok t'.
Proof.
  apply (merge_leaves_twice 1 (grid 2 2 dots) (dots_tree 1)).
  reflexivity.
Defined.

(** ** Pointers stay valid *)

Lemma child_erase (t : QuadTree) (i : nat) :
  child (erase t) i = option_map erase (child t i).
Proof.
  destruct t as [ty c0 c1 c2 c3].
  destruct i as [ | [ | [ | [ | i]]]]; reflexivity.
Qed.

Lemma node_at_erase (p : path) :
  forall t, node_at (erase t) p = option_map erase (node_at t p).
Proof.
  induction p as [ | i p IH]; intros t; [reflexivity | ].
  cbn [node_at]. rewrite child_erase.
  destruct (child t i) as [c | ]; [apply IH | reflexivity].
Qed.

Lemma same_pointers (t t' : QuadTree) (p : path) :
  erase t' = erase t -> node_at t p <> None -> node_at t' p <> None.
Proof.
  intros E H H'.
  assert (Hp : node_at (erase t) p = None).
  { rewrite <- E. rewrite node_at_erase, H'. reflexivity. }
  rewrite node_at_erase in Hp.
  destruct (node_at t p); [discriminate Hp | apply H; reflexivity].
Qed.

Lemma set_child_erase (t c c' : QuadTree) (i : nat) :
  child t i = Some c -> erase c' = erase c -> erase (set_child t i c') = erase t.
Proof.
  destruct t as [ty c0 c1 c2 c3].
  destruct i as [ | [ | [ | [ | i]]]]; simpl; intros Hc E;
    try discriminate Hc; subst; simpl; rewrite E; reflexivity.
Qed.

Lemma set_type_at_erase (p : path) :
  forall t ty t', set_type_at t p ty = Some t' -> erase t' = erase t.
Proof.
  induction p as [ | i p IH]; intros t ty t' H.
  - destruct t. injection H as <-. reflexivity.
  - cbn [set_type_at] in H.
    destruct (child t i) as [c | ] eqn:Hc; [ | discriminate H].
    destruct (set_type_at c p ty) as [c' | ] eqn:Hset; [ | discriminate H].
    injection H as <-.
    apply (set_child_erase t c); [exact Hc | ]. apply (IH c ty). exact Hset.
Qed.

Lemma merge_leaves_erase (t : QuadTree) :
  forall t', merge_leaves t = Ok t' -> erase t' = erase t.
Proof.
  induction t as [ty c0 c1 c2 c3 IH0 IH1 IH2 IH3] using QuadTree_induction.
  intros t' H.
  destruct (Type_eqb ty SPLIT_TREE) eqn:Hty.
  - destruct ty; try discriminate Hty.
    apply merge_leaves_split in H.
    destruct H as [t0 [t1 [t2 [t3 [t0' [t1' [t2' [t3' H]]]]]]]].
    destruct H as [-> [-> [-> [-> [H0 [H1 [H2 [H3 ->]]]]]]]].
    simpl in IH0, IH1, IH2, IH3.
    assert (E : erase (Node SPLIT_TREE (Some t0') (Some t1') (Some t2') (Some t3'))
                = erase (Node SPLIT_TREE (Some t0) (Some t1) (Some t2) (Some t3))).
    { simpl. rewrite (IH0 _ H0), (IH1 _ H1), (IH2 _ H2), (IH3 _ H3). reflexivity. }
    unfold merged_node.
    destruct (unique _) as [ | ty [ | ty' l]]; try exact E.
    destruct (Type_eqb ty SPLIT_TREE); exact E.
  - rewrite merge_leaves_other in H by exact Hty.
    injection H as <-. reflexivity.
Qed.

Lemma merge_with_sibblings_erase (t : QuadTree) (p : path) (mdl : N)
    (b : bool) (t' : QuadTree) :
  merge_with_sibblings t p mdl = Ok (b, t') -> erase t' = erase t.
Proof.
  unfold merge_with_sibblings. intros H.
  destruct (node_at t p) as [leaf | ]; [ | discriminate H].
  destruct (_ || _); [discriminate H | ].
  destruct (node_at t (parent p)) as [above | ]; [ | discriminate H].
  apply bind_Ok in H. destruct H as [[[types n] | ] [_ H]].
  - destruct (negb _); [discriminate H | ].
    apply bind_Ok in H. destruct H as [ty [_ H]].
    destruct (set_type_at t (parent p) ty) as [r | ] eqn:Hset; [ | discriminate H].
    injection H as _ <-. apply (set_type_at_erase _ _ _ _ Hset).
  - injection H as _ <-. reflexivity.
Qed.

(** C7 as stated fails: on the 2 by 2 grid of black samples [merge_leaves]
    turns the root into a black leaf that still has its four children, and
    the leaf snapshot that [simplify] takes next is made of those children;
    [merge_with_sibblings] does the same to a split node. *)
Lemma collapsed_node_keeps_children :
  exists t t' t'',
    QuadTree_new 1 (grid 2 2 (fun _ _ => 0%Z)) = Ok t
    /\ leaves_childless t = true
    /\ merge_leaves t = Ok t'
    /\ type t' = BLACK_TREE
    /\ leaves_childless t' = false
    /\ get_leaves t' = Ok [[0%nat]; [1%nat]; [2%nat]; [3%nat]]
    /\ merge_with_sibblings (dots_tree 1) [0%nat] 0 = Ok (true, t'')
    /\ type t'' = BLACK_TREE
    /\ leaves_childless t'' = false.
Proof.
  eexists. eexists. eexists.
  split; [reflexivity | ].
  split; [reflexivity | ].
  split; [reflexivity | ].
  split; [reflexivity | ].
  split; [reflexivity | ].
  split; [reflexivity | ].
  split; [reflexivity | ].
  split; reflexivity.
Qed.

(** ** Mean type *)

Lemma leaf_type_int (ty : Type_) :
  is_leaf_type ty = true <-> (0 <= int_of_Type ty <= 2)%Z.
Proof.
  destruct ty; simpl; split; intros H; try reflexivity; try discriminate H; lia.
Qed.

Lemma leaf_type_cases (ty : Type_) :
  is_leaf_type ty = true -> ty = BLACK_TREE \/ ty = GREY_TREE \/ ty = WHITE_TREE.
Proof. destruct ty; intros H; try discriminate H; auto. Qed.

(** The truncated mean of four values between 0 and 2 is between 0 and 2. *)
Lemma mean_range (a b c d : Z) :
  (0 <= a <= 2)%Z -> (0 <= b <= 2)%Z -> (0 <= c <= 2)%Z -> (0 <= d <= 2)%Z ->
  (0 <= Z.quot (a + b + c + d) 4 <= 2)%Z.
Proof.
  intros Ha Hb Hc Hd.
  rewrite Z.quot_div_nonneg by lia.
  split.
  - apply Z.div_pos; lia.
  - apply Z.div_le_upper_bound; lia.
Qed.

Lemma static_cast_leaf (z : Z) :
  (0 <= z <= 2)%Z ->
  exists ty, static_cast_Type z = Ok ty /\ is_leaf_type ty = true /\ int_of_Type ty = z.
Proof.
  intros H.
  assert (E : z = 0%Z \/ z = 1%Z \/ z = 2%Z) by lia.
  destruct E as [-> | [-> | ->]]; eexists; repeat split.
Qed.

(** Whatever [mean_type] returns is a leaf type. *)
Lemma mean_type_leaf (t : QuadTree) :
  forall ty, mean_type t = Ok ty -> is_leaf_type ty = true.
Proof.
  induction t as [ty0 c0 c1 c2 c3 IH0 IH1 IH2 IH3] using QuadTree_induction.
  intros ty H. destruct ty0; cbn [mean_type] in H;
    try (injection H as <-; reflexivity); try discriminate H.
  deref_inv H t0 m0 H0.
  deref_inv H t1 m1 H1.
  deref_inv H t2 m2 H2.
  deref_inv H t3 m3 H3.
  simpl in IH0, IH1, IH2, IH3.
  apply IH0, leaf_type_int in H0. apply IH1, leaf_type_int in H1.
  apply IH2, leaf_type_int in H2. apply IH3, leaf_type_int in H3.
  destruct (static_cast_leaf _ (mean_range _ _ _ _ H0 H1 H2 H3)) as [ty' [E [Hleaf _]]].
  rewrite E in H. injection H as <-. exact Hleaf.
Qed.

(** On a well-formed tree [mean_type] returns. *)
Lemma mean_type_total (t : QuadTree) :
  well_formed t = true -> exists ty, mean_type t = Ok ty.
Proof.
  induction t as [ty0 c0 c1 c2 c3 IH0 IH1 IH2 IH3] using QuadTree_induction.
  intros H. destruct ty0; try discriminate H;
    try (eexists; reflexivity).
  destruct c0 as [t0 | ], c1 as [t1 | ], c2 as [t2 | ], c3 as [t3 | ];
    try discriminate H.
  simpl in H, IH0, IH1, IH2, IH3.
  repeat (apply andb_prop in H; destruct H as [H ?]).
  destruct IH0 as [m0 E0]; [assumption | ].
  destruct IH1 as [m1 E1]; [assumption | ].
  destruct IH2 as [m2 E2]; [assumption | ].
  destruct IH3 as [m3 E3]; [assumption | ].
  cbn [mean_type deref]. rewrite E0, E1, E2, E3. cbn [bind].
  apply mean_type_leaf, leaf_type_int in E0. apply mean_type_leaf, leaf_type_int in E1.
  apply mean_type_leaf, leaf_type_int in E2. apply mean_type_leaf, leaf_type_int in E3.
  destruct (static_cast_leaf _ (mean_range _ _ _ _ E0 E1 E2 E3)) as [ty [E _]].
  exists ty. exact E.
Qed.

Lemma well_formed_type (t : QuadTree) :
  well_formed t = true -> Type_eqb (type t) UNDEFINED_TREE = false.
Proof.
  destruct t as [ty c0 c1 c2 c3]. simpl. intros H.
  repeat (apply andb_prop in H; destruct H as [H ?]).
  apply negb_true_iff. exact H.
Qed.

Lemma well_formed_children (ty : Type_) (c0 c1 c2 c3 : option QuadTree) :
  well_formed (Node ty c0 c1 c2 c3) = true ->
  through well_formed c0 = true /\ through well_formed c1 = true
  /\ through well_formed c2 = true /\ through well_formed c3 = true.
Proof.
  simpl. intros H.
  repeat (apply andb_prop in H; destruct H as [H ?]). auto.
Qed.

Lemma well_formed_child (t c : QuadTree) (i : nat) :
  well_formed t = true -> child t i = Some c -> well_formed c = true.
Proof.
  destruct t as [ty c0 c1 c2 c3]. intros H Hc.
  apply well_formed_children in H. destruct H as [H0 [H1 [H2 H3]]].
  destruct i as [ | [ | [ | [ | i]]]]; simpl in Hc; try discriminate Hc;
    subst; assumption.
Qed.

Lemma well_formed_node_at (p : path) :
  forall t n, well_formed t = true -> node_at t p = Some n -> well_formed n = true.
Proof.
  induction p as [ | i p IH]; intros t n H Hn.
  - injection Hn as <-. exact H.
  - cbn [node_at] in Hn. destruct (child t i) as [c | ] eqn:Hc; [ | discriminate Hn].
    apply (IH c); [ | exact Hn]. apply (well_formed_child t c i); assumption.
Qed.

(** ** Lossy merging *)

(** One sibling of a well-formed node: the scan stops, or fails for a null
    sibling, or records one more value between 0 and 2. *)
Lemma scan_sibbling_step (mdl : N) (c : option QuadTree) (types : list Z) (n : N) :
  through well_formed c = true ->
  scan_sibbling mdl c (types, n) = Ok None
  \/ scan_sibbling mdl c (types, n)
     = Err (runtime_error "merge_with_sibblings() with null sibbling")
  \/ exists z n', scan_sibbling mdl c (types, n) = Ok (Some (types ++ [z], n'))
                  /\ (0 <= z <= 2)%Z.
Proof.
  intros H. destruct c as [s | ]; [ | right; left; reflexivity].
  simpl in H. cbn [scan_sibbling].
  destruct (Type_eqb (type s) SPLIT_TREE) eqn:Hs.
  - destruct (_ <? _); [left; reflexivity | ].
    destruct (mean_type_total s H) as [m E]. rewrite E. cbn [bind].
    right; right. exists (int_of_Type m), (wrap (n + 1)).
    split; [reflexivity | ]. apply leaf_type_int. apply (mean_type_leaf s). exact E.
  - right; right. exists (int_of_Type (type s)), n.
    split; [reflexivity | ].
    apply well_formed_type in H.
    destruct (type s); try discriminate H; try discriminate Hs; simpl; lia.
Qed.

Lemma scan_sibblings_range (mdl : N) (t : QuadTree) :
  well_formed t = true ->
  scan_sibblings mdl t = Ok None
  \/ scan_sibblings mdl t
     = Err (runtime_error "merge_with_sibblings() with null sibbling")
  \/ exists a b c d n, scan_sibblings mdl t = Ok (Some ([a; b; c; d], n))
       /\ (0 <= a <= 2)%Z /\ (0 <= b <= 2)%Z /\ (0 <= c <= 2)%Z /\ (0 <= d <= 2)%Z.
Proof.
  destruct t as [ty c0 c1 c2 c3]. intros H.
  apply well_formed_children in H. destruct H as [H0 [H1 [H2 H3]]].
  unfold scan_sibblings, scan_next.
  destruct (scan_sibbling_step mdl c0 [] 0 H0) as [E | [E | [a [n0 [E Ha]]]]];
    rewrite E; cbn [bind]; auto.
  destruct (scan_sibbling_step mdl c1 ([] ++ [a]) n0 H1) as [E1 | [E1 | [b [n1 [E1 Hb]]]]];
    rewrite E1; cbn [bind]; auto.
  destruct (scan_sibbling_step mdl c2 (([] ++ [a]) ++ [b]) n1 H2)
    as [E2 | [E2 | [c [n2 [E2 Hc]]]]]; rewrite E2; cbn [bind]; auto.
  destruct (scan_sibbling_step mdl c3 ((([] ++ [a]) ++ [b]) ++ [c]) n2 H3)
    as [E3 | [E3 | [d [n3 [E3 Hd]]]]]; rewrite E3; auto.
  right; right. exists a, b, c, d, n3. auto.
Qed.

(** C3: in a tree with no undefined node and with the four children of
    every split node, the mean type of every node is computed and is black,
    grey or white; and the check of [merge_with_sibblings] that the mean of
    the four siblings is one of these never fails. *)
Theorem mean_type_valid (t : QuadTree) :
  well_formed t = true ->
  (forall p n, node_at t p = Some n ->
     exists ty, mean_type n = Ok ty
                /\ (ty = BLACK_TREE \/ ty = GREY_TREE \/ ty = WHITE_TREE))
  /\ (forall p mdl, merge_with_sibblings t p mdl <> Err invalid_type_error).
Proof.
  intros Hwf. split.
  - intros p n Hn.
    destruct (mean_type_total n) as [ty E].
    + apply (well_formed_node_at p t); assumption.
    + exists ty. split; [exact E | ].
      apply leaf_type_cases. apply (mean_type_leaf n). exact E.
  - intros p mdl. unfold merge_with_sibblings.
    destruct (node_at t p) as [leaf | ]; [ | discriminate].
    destruct (_ || _); [discriminate | ].
    destruct (node_at t (parent p)) as [above | ] eqn:Habove; [ | discriminate].
    apply well_formed_node_at with (t := t) in Habove; [ | exact Hwf].
    destruct (scan_sibblings_range mdl above Habove)
      as [E | [E | [a [b [c [d [n [E [Ha [Hb [Hc Hd]]]]]]]]]]]; rewrite E; cbn [bind];
      try discriminate.
    cbn [fold_left].
    destruct (static_cast_leaf _ (mean_range _ _ _ _ Ha Hb Hc Hd)) as [ty [Ecast [Hleaf Hint]]].
    replace (0 + a + b + c + d)%Z with (a + b + c + d)%Z by lia.
    assert (Hcheck : is_leaf_int (Z.quot (a + b + c + d) 4) = true).
    { rewrite <- Hint. destruct ty; try discriminate Hleaf; reflexivity. }
    rewrite Hcheck, Ecast. cbn [negb bind].
    destruct (set_type_at t (parent p) ty); discriminate.
Qed.

Lemma mean_type_valid_witness :
  (forall p n, node_at (dots_tree 2) p = Some n ->
     exists ty, mean_type n = Ok ty
                /\ (ty = BLACK_TREE \/ ty = GREY_TREE \/ ty = WHITE_TREE))
  /\ (forall p mdl, merge_with_sibblings (dots_tree 2) p mdl <> Err invalid_type_error).
Proof.
  apply (mean_type_valid (dots_tree 2)).
  reflexivity.
Defined.

(** ** Squaring *)

Lemma Matrix_get_error (m : Matrix) (x y : N) (e : error) :
  Matrix_get m x y = Err e -> e = out_of_bounds.
Proof.
  unfold Matrix_get. destruct (nth_error _ _); intros H; [discriminate H | ].
  injection H as <-. reflexivity.
Qed.

Lemma Matrix_set_error (m : Matrix) (x y : N) (v : Z) (e : error) :
  Matrix_set m x y v = Err e -> e = out_of_bounds.
Proof.
  unfold Matrix_set. destruct (list_set _ _ _); intros H; [discriminate H | ].
  injection H as <-. reflexivity.
Qed.

(** A read at an offset that is not below the length of the buffer. *)
Lemma Matrix_get_past_the_end (m : Matrix) (x y : N) :
  y * width m + x < 2 ^ size_t_bits ->
  N.of_nat (List.length (data m)) <= y * width m + x ->
  Matrix_get m x y = Err out_of_bounds.
Proof.
  intros Hfit Hlen. unfold Matrix_get, offset.
  rewrite (wrap_small (y * width m)) by lia.
  rewrite wrap_small by exact Hfit.
  destruct (nth_error _ _) eqn:E; [ | reflexivity].
  assert (nth_error (data m) (N.to_nat (y * width m + x)) <> None) by congruence.
  apply nth_error_Some in H. lia.
Qed.

(** [make_square] reads [input(x, y)] for every [x] and [y] below the
    rounded width and height.  When the last of these reads is past the end
    of the buffer, which it is as soon as one of the two dimensions is not
    its own rounding, the function does not return a matrix. *)
Lemma make_square_out_of_bounds (input : Matrix) :
  let width' := next_greater_power_of_2 (get_width input) in
  let height' := next_greater_power_of_2 (get_height input) in
  0 < width' -> 0 < height' ->
  (height' - 1) * get_width input + (width' - 1) < 2 ^ size_t_bits ->
  N.of_nat (List.length (data input)) <= (height' - 1) * get_width input + (width' - 1) ->
  make_square input = Err out_of_bounds.
Proof.
  intros width' height' Hw Hh Hfit Hlen.
  assert (Bw : width' < 2 ^ size_t_bits) by apply wrap_bound.
  assert (Bh : height' < 2 ^ size_t_bits) by apply wrap_bound.
  unfold make_square. fold width' height'.
  set (size := N.max width' height').
  set (inner := fun (y x : N) (output : Matrix) =>
         v <- Matrix_get input x y ;;
         Matrix_set output (wrap (x * size) / width') (wrap (y * size) / height') v).
  set (outer := fun (y : N) (output : Matrix) =>
         for_loop (N.to_nat width') 0 (inner y) output).
  assert (Hlast : forall s, exists e, outer (height' - 1) s = Err e).
  { intros s. unfold outer.
    apply (for_loop_fails (inner (height' - 1)) (width' - 1)); [ | lia | lia].
    intros s'. exists out_of_bounds. unfold inner.
    rewrite Matrix_get_past_the_end by assumption. reflexivity. }
  destruct (for_loop_fails outer (height' - 1) Hlast (N.to_nat height') 0
              (Matrix_new size size)) as [e He]; [lia | lia | ].
  change (for_loop (N.to_nat height') 0 outer (Matrix_new size size) = Err out_of_bounds).
  rewrite He. f_equal.
  apply (for_loop_error outer out_of_bounds) in He; [exact He | ].
  intros y s e' H. unfold outer in H.
  apply (for_loop_error (inner y) out_of_bounds) in H; [exact H | ].
  intros x s' e'' H'. unfold inner in H'.
  destruct (Matrix_get input x y) as [v | e3] eqn:Eg; cbn [bind] in H'.
  - apply (Matrix_set_error _ _ _ _ _ H').
  - injection H' as <-. apply (Matrix_get_error _ _ _ _ Eg).
Qed.

(** C4 on a 3 by 1 grid: the loops of [make_square] run over the widths
    rounded up to a power of two, 4 by 1 here, so the fourth round reads
    [input(3, 0)], one cell past the end of the three-cell buffer. *)
Theorem make_square_reads_past_the_end :
  let input := grid 3 1 (fun x _ => Z.of_N x) in
  next_greater_power_of_2 (get_width input) = 4
  /\ next_greater_power_of_2 (get_height input) = 1
  /\ List.length (data input) = 3%nat
  /\ offset input 3 0 = 3%nat
  /\ Matrix_get input 3 0 = Err out_of_bounds
  /\ make_square input = Err out_of_bounds.
Proof.
  intros input.
  split; [reflexivity | ]. split; [reflexivity | ]. split; [reflexivity | ].
  split; [reflexivity | ]. split; [reflexivity | ].
  apply make_square_out_of_bounds; vm_compute; (reflexivity || discriminate).
Qed.

(** ** Simplification *)

(** What one round of the loop does to the detail-loss bound: it grows by
    one exactly when the size of the tree equals [last_size], the size
    before the loop, and stays as it is otherwise. *)
Lemma loop_body_detail_loss (leaves : list path) (last_size : N)
    (st st' : loop_state) (r : N) :
  loop_body leaves last_size st r = Ok st' ->
  encoded_size (st_tree st) = Ok (st_current_size st')
  /\ st_maximum_detail_loss st' =
     (if last_size =? st_current_size st'
      then wrap (st_maximum_detail_loss st + 1)
      else st_maximum_detail_loss st).
Proof.
  unfold loop_body. intros H.
  bind_inv H size Hsize.
  bind_inv H mdl Hmdl.
  destruct (nth_error leaves _) as [leaf | ]; [ | discriminate H].
  apply bind_Ok in H. destruct H as [merged [_ H]].
  injection H as <-. cbn [st_current_size st_maximum_detail_loss].
  split; [exact Hsize | ].
  destruct (last_size =? size).
  - destruct (4 <? wrap (st_maximum_detail_loss st + 1)); [discriminate Hmdl | ].
    injection Hmdl as <-. reflexivity.
  - injection Hmdl as <-. reflexivity.
Qed.

(** The loop gives up when the bound so increased exceeds 4. *)
Lemma loop_body_hopeless (leaves : list path) (last_size : N)
    (st : loop_state) (r : N) :
  encoded_size (st_tree st) = Ok last_size ->
  4 < wrap (st_maximum_detail_loss st + 1) ->
  loop_body leaves last_size st r = Err hopeless.
Proof.
  unfold loop_body. intros -> H. cbn [bind].
  rewrite N.eqb_refl. apply N.ltb_lt in H. rewrite H. reflexivity.
Qed.

(** A tree within the budget whose leaves can be listed is returned as it
    is, whatever [rand()] would give. *)
Lemma simplify_within_budget (rs : list N) (t : QuadTree) (leaves : list path) (size : N) :
  get_leaves t = Ok leaves ->
  encoded_size t = Ok size ->
  size <= maximum_encoded_size ->
  simplify rs t = returned t.
Proof.
  unfold simplify. intros -> -> H.
  assert (E : loop_condition leaves (mkState t size 0) = false).
  { unfold loop_condition. cbn [st_current_size].
    apply andb_false_iff. right. apply N.ltb_ge. exact H. }
  destruct rs; cbn [loop]; rewrite E; reflexivity.
Qed.

(** C2 on the 32 by 32 grid of [dots], cell size 1, with [rand()] giving 0
    every time.  The first round finds the size 2048 it started from and
    raises the bound to 1, then merges.  The second round finds 2042.  The
    third round finds 2042 again, the size the second round recorded, and
    the bound is still 1: the size is compared with the first one, not with
    the one of the round before.  The loop as the specification words it
    has the bound at 2 after the third round. *)
Theorem detail_loss_after_no_progress :
  QuadTree_new 1 (grid 32 32 dots) = Ok (dots_tree 5)
  /\ merge_leaves (dots_tree 5) = Ok (dots_tree 5)
  /\ map (fun rs => observe (simplify rs (dots_tree 5))) [[]; [0]; [0; 0]; [0; 0; 0]]
     = [Some (2048, 0); Some (2048, 1); Some (2042, 1); Some (2042, 1)]
  /\ map (fun rs => observe (simplify_as_specified rs (dots_tree 5)))
       [[]; [0]; [0; 0]; [0; 0; 0]]
     = [Some (2048, 0); Some (2048, 1); Some (2042, 1); Some (2042, 2)].
Proof.
  split; [vm_compute; reflexivity | ].
  split; [vm_compute; reflexivity | ].
  split; vm_compute; reflexivity.
Qed.

(** C8 on every image no wider than the minimum cell size: the tree is a
    single leaf of size 2, within the budget, which [merge_leaves] leaves
    alone; [simplify] starts by listing the leaves below the root, and that
    follows the null children of the root. *)
Theorem simplify_single_leaf (mcs : N) (m : Matrix) (v : Z) (rs : list N) :
  get_width m <= mcs ->
  Matrix_get m 0 0 = Ok v ->
  let leaf := Node (classify v) None None None None in
  QuadTree_new mcs m = Ok leaf
  /\ merge_leaves leaf = Ok leaf
  /\ encoded_size leaf = Ok 2
  /\ 2 <= maximum_encoded_size
  /\ get_leaves leaf = Err null_dereference
  /\ simplify rs leaf = failed null_dereference.
Proof.
  intros Hwidth Hget leaf. split.
  - unfold QuadTree_new. rewrite init_eq.
    apply N.leb_le in Hwidth. rewrite Hwidth.
    unfold init_leaf. rewrite Hget. reflexivity.
  - unfold leaf.
    destruct (leaf_type_cases _ (classify_is_leaf v)) as [-> | [-> | ->]];
      (repeat split; vm_compute; discriminate).
Qed.

Lemma simplify_single_leaf_witness :
  let leaf := Node BLACK_TREE None None None None in
  (QuadTree_new 64 (grid 1 1 (fun _ _ => 0%Z)) = Ok leaf
   /\ merge_leaves leaf = Ok leaf
   /\ encoded_size leaf = Ok 2
   /\ 2 <= maximum_encoded_size
   /\ get_leaves leaf = Err null_dereference
   /\ simplify [] leaf = failed null_dereference)
  /\ main (fun _ => None) (fun _ => Some (grid 1 1 (fun _ _ => 0%Z))) ["tiny.png"%string] []
     = mkExecution
         ["Reading tiny.png"; "Needlessly building matrix"; "Making matrix square";
          "Building quadtree"; "Merging leaves"; "Simplifying"]%string
         [] (aborted null_dereference).
Proof.
  split.
  - apply (simplify_single_leaf 64 (grid 1 1 (fun _ _ => 0%Z)) 0%Z []).
    + vm_compute. discriminate.
    + reflexivity.
  - reflexivity.
Defined.

(** ** The program *)

(** C6: when [image.read] throws, with or without a cell size on the
    command line, the exception is dropped and the program goes on with the
    empty image: it prints three more progress lines and reads the sample
    at (0, 0) of an empty matrix.  It neither prints a diagnostic nor
    returns 1. *)
Theorem main_after_failed_read (parse_size_t : string -> option N)
    (png_read : string -> option Matrix) (file : string) (rest : list string)
    (rs : list N) :
  png_read file = None ->
  rest = [] \/ (exists cell mcs, rest = [cell] /\ parse_size_t cell = Some mcs) ->
  main parse_size_t png_read (file :: rest) rs
  = mkExecution
      [("Reading " ++ file)%string; "Needlessly building matrix"%string;
       "Making matrix square"%string; "Building quadtree"%string]
      [] (aborted out_of_bounds).
Proof.
  intros Hread [-> | [cell [mcs [-> Hparse]]]]; unfold main;
    cbn [List.length Nat.ltb Nat.leb Nat.eqb orb nth].
  - rewrite Hread, copy_pixels_empty, make_square_empty, QuadTree_new_of_empty.
    reflexivity.
  - rewrite Hparse, Hread, copy_pixels_empty, make_square_empty, QuadTree_new_of_empty.
    reflexivity.
Qed.

Lemma main_after_failed_read_witness :
  main (fun _ => None) (fun _ => None) ["missing.png"%string] []
  = mkExecution
      ["Reading missing.png"; "Needlessly building matrix"; "Making matrix square";
       "Building quadtree"]%string
      [] (aborted out_of_bounds).
Proof.
  apply (main_after_failed_read (fun _ => None) (fun _ => None) "missing.png" [] []).
  - reflexivity.
  - left. reflexivity.
Defined.

(** ** Trees that the loop cannot finish *)

Lemma highest_succ (k : nat) : highest (S k) = 4 * highest k.
Proof. unfold highest. rewrite Nat2N.inj_succ, N.pow_succ_r'. lia. Qed.

Lemma lowest_succ (k : nat) : lowest (S k) = 4 * lowest k.
Proof. unfold lowest. rewrite Nat2N.inj_succ, N.pow_succ_r'. lia. Qed.

Lemma highest_lowest (k : nat) : highest k = 4 * lowest k.
Proof. unfold highest, lowest. lia. Qed.

Lemma under_inv (f : QuadTree -> bool) (c : option QuadTree) :
  under f c = true -> exists t, c = Some t /\ f t = true.
Proof.
  destruct c as [t | ]; simpl; intros H; [ | discriminate H].
  exists t. auto.
Qed.

Lemma childless_leaf_inv (t : QuadTree) :
  childless_leaf t = true ->
  exists ty, t = Node ty None None None None
             /\ (ty = BLACK_TREE \/ ty = GREY_TREE \/ ty = WHITE_TREE).
Proof.
  destruct t as [ty [ | ] [ | ] [ | ] [ | ]]; simpl; intros H; try discriminate H.
  exists ty. split; [reflexivity | ]. apply leaf_type_cases. exact H.
Qed.

(** What [layered] says of a node, level by level. *)
Lemma layered_0_inv (t : QuadTree) :
  layered 0 t = true ->
  exists ty a b c d,
    t = Node ty (Some (Node a None None None None)) (Some (Node b None None None None))
          (Some (Node c None None None None)) (Some (Node d None None None None))
    /\ Type_eqb ty UNDEFINED_TREE = false
    /\ (a = BLACK_TREE \/ a = GREY_TREE \/ a = WHITE_TREE)
    /\ (b = BLACK_TREE \/ b = GREY_TREE \/ b = WHITE_TREE)
    /\ (c = BLACK_TREE \/ c = GREY_TREE \/ c = WHITE_TREE)
    /\ (d = BLACK_TREE \/ d = GREY_TREE \/ d = WHITE_TREE).
Proof.
  destruct t as [ty c0 c1 c2 c3]. cbn [layered]. intros H.
  repeat (apply andb_prop in H; destruct H as [H ?]).
  repeat match goal with
  | U : under childless_leaf _ = true |- _ =>
      apply under_inv in U; destruct U as [? [-> U]];
      apply childless_leaf_inv in U; destruct U as [? [-> U]]
  end.
  apply negb_true_iff in H.
  do 5 eexists. split; [reflexivity | ]. auto.
Qed.

Lemma layered_S_inv (k : nat) (t : QuadTree) :
  layered (S k) t = true ->
  exists t0 t1 t2 t3,
    t = Node SPLIT_TREE (Some t0) (Some t1) (Some t2) (Some t3)
    /\ layered k t0 = true /\ layered k t1 = true
    /\ layered k t2 = true /\ layered k t3 = true.
Proof.
  destruct t as [ty c0 c1 c2 c3]. cbn [layered]. intros H.
  repeat (apply andb_prop in H; destruct H as [H ?]).
  repeat match goal with
  | U : under (layered k) _ = true |- _ =>
      apply under_inv in U; destruct U as [? [-> U]]
  end.
  destruct ty; try discriminate H.
  do 4 eexists. split; [reflexivity | ]. auto.
Qed.

Lemma encoded_size_split (t0 t1 t2 t3 : QuadTree) (s0 s1 s2 s3 : N) :
  encoded_size t0 = Ok s0 -> encoded_size t1 = Ok s1 ->
  encoded_size t2 = Ok s2 -> encoded_size t3 = Ok s3 ->
  s0 + s1 + s2 + s3 < 2 ^ size_t_bits ->
  encoded_size (Node SPLIT_TREE (Some t0) (Some t1) (Some t2) (Some t3))
  = Ok (s0 + s1 + s2 + s3).
Proof.
  intros H0 H1 H2 H3 H.
  cbn [encoded_size add_size]. rewrite H0, H1, H2, H3. cbn [bind].
  rewrite (wrap_small (0 + s0)) by lia.
  rewrite (wrap_small (0 + s0 + s1)) by lia.
  rewrite (wrap_small (0 + s0 + s1 + s2)) by lia.
  rewrite (wrap_small (0 + s0 + s1 + s2 + s3)) by lia.
  reflexivity.
Qed.

(** The size of a layered tree lies between the two extremes. *)
Lemma layered_size (k : nat) :
  forall t, highest k < 2 ^ size_t_bits -> layered k t = true ->
  exists s, encoded_size t = Ok s /\ lowest k <= s <= highest k.
Proof.
  induction k as [ | k IH]; intros t Hhi H.
  - apply layered_0_inv in H.
    destruct H as [ty [a [b [c [d [-> [Hty [Ha [Hb [Hc Hd]]]]]]]]]].
    destruct ty; try discriminate Hty;
      try (exists 2; split; [reflexivity | vm_compute; split; discriminate]).
    exists 8.
    destruct Ha as [-> | [-> | ->]], Hb as [-> | [-> | ->]],
      Hc as [-> | [-> | ->]], Hd as [-> | [-> | ->]];
      (split; [reflexivity | vm_compute; split; discriminate]).
  - apply layered_S_inv in H.
    destruct H as [t0 [t1 [t2 [t3 [-> [H0 [H1 [H2 H3]]]]]]]].
    rewrite highest_succ in Hhi.
    destruct (IH t0) as [s0 [E0 B0]]; [lia | assumption | ].
    destruct (IH t1) as [s1 [E1 B1]]; [lia | assumption | ].
    destruct (IH t2) as [s2 [E2 B2]]; [lia | assumption | ].
    destruct (IH t3) as [s3 [E3 B3]]; [lia | assumption | ].
    exists (s0 + s1 + s2 + s3).
    rewrite highest_succ, lowest_succ.
    split; [apply encoded_size_split; assumption || lia | lia].
Qed.

Lemma set_child_same (t c : QuadTree) (i : nat) :
  child t i = Some c -> set_child t i c = t.
Proof.
  destruct t as [ty c0 c1 c2 c3].
  destruct i as [ | [ | [ | [ | i]]]]; simpl; intros H;
    try discriminate H; subst; reflexivity.
Qed.

(** Merging below a child of the root is merging in that child. *)
Lemma merge_with_sibblings_below (t c : QuadTree) (i j : nat) (p : path) (mdl : N) :
  child t i = Some c ->
  merge_with_sibblings t (i :: j :: p) mdl =
  (r <- merge_with_sibblings c (j :: p) mdl ;; Ok (fst r, set_child t i (snd r))).
Proof.
  intros Hc. unfold merge_with_sibblings.
  change (parent (i :: j :: p)) with (i :: parent (j :: p)).
  assert (Hlen : (List.length (j :: p) =? 0)%nat = false) by reflexivity.
  remember (j :: p) as q eqn:Hq. remember (parent q) as q' eqn:Hq'.
  cbn [node_at set_type_at List.length Nat.eqb]. rewrite Hc, Hlen.
  destruct (node_at c q) as [leaf | ]; [ | reflexivity].
  rewrite !orb_false_r.
  destruct (Type_eqb (type leaf) SPLIT_TREE); [reflexivity | ].
  destruct (node_at c q') as [above | ]; [ | reflexivity].
  destruct (scan_sibblings mdl above) as [[[types n] | ] | e]; cbn [bind fst snd];
    [ | rewrite (set_child_same t c i Hc); reflexivity | reflexivity].
  destruct (negb _); [reflexivity | ].
  destruct (static_cast_Type _) as [ty | e]; cbn [bind]; [ | reflexivity].
  destruct (set_type_at c q' ty); reflexivity.
Qed.

Lemma leaf_pointer_0 (p : path) :
  leaf_pointer 0 p = true ->
  p = [0%nat] \/ p = [1%nat] \/ p = [2%nat] \/ p = [3%nat].
Proof.
  destruct p as [ | i [ | j p]]; try discriminate.
  destruct i as [ | [ | [ | [ | i]]]]; try discriminate; auto.
Qed.

Lemma leaf_pointer_S (k : nat) (p : path) :
  leaf_pointer (S k) p = true ->
  exists i j q, p = i :: j :: q /\ (i < 4)%nat /\ leaf_pointer k (j :: q) = true.
Proof.
  unfold leaf_pointer. intros H. apply andb_prop in H. destruct H as [Hlen Hall].
  destruct p as [ | i [ | j q]]; try discriminate Hlen.
  cbn [forallb] in Hall. apply andb_prop in Hall. destruct Hall as [Hi Hall].
  exists i, j, q. split; [reflexivity | ]. split.
  - apply Nat.ltb_lt. exact Hi.
  - cbn [forallb]. rewrite Hall. cbn [List.length] in *. rewrite andb_true_r. exact Hlen.
Qed.

(** The step of [layered_merge] below the child [c] of a split root: the
    merge takes place in [c], by [IH], and the root keeps its other
    children. *)
Ltac merge_in_child IH c :=
  match goal with
  | |- exists _ _, merge_with_sibblings _ (_ :: ?p) ?mdl = _ /\ _ =>
      let c' := fresh "c'" in
      let s' := fresh "s'" in
      let Em := fresh "Em" in
      let Hl := fresh "Hl" in
      let Es := fresh "Es" in
      let Hs := fresh "Hs" in
      destruct (IH c p mdl) as [c' [s' [Em [Hl [Es Hs]]]]]; [lia | assumption.. | ];
      rewrite (merge_with_sibblings_below _ c) by reflexivity;
      rewrite Em; cbn [bind fst snd set_child];
      eexists; eexists;
      split; [reflexivity | ];
      split; [cbn [layered under];
              repeat match goal with
                     | E : layered _ _ = true |- _ => rewrite E; clear E
                     end; reflexivity | ];
      split; [apply encoded_size_split; eassumption || lia | lia]
  end.

(** Merging at a leaf of a layered tree always succeeds, whatever the bound:
    the siblings of a leaf are leaves.  The tree stays layered and at least
    one of its last nodes is collapsed from then on. *)
Lemma layered_merge (k : nat) :
  forall (t : QuadTree) (p : path) (mdl : N),
  highest k < 2 ^ size_t_bits ->
  layered k t = true ->
  leaf_pointer k p = true ->
  exists t' s',
    merge_with_sibblings t p mdl = Ok (true, t')
    /\ layered k t' = true
    /\ encoded_size t' = Ok s'
    /\ s' + 6 <= highest k.
Proof.
  induction k as [ | k IH]; intros t p mdl Hhi H Hp.
  - apply layered_0_inv in H.
    destruct H as [ty [a [b [c [d [-> [Hty [Ha [Hb [Hc Hd]]]]]]]]]].
    apply leaf_pointer_0 in Hp.
    destruct Ha as [-> | [-> | ->]], Hb as [-> | [-> | ->]],
      Hc as [-> | [-> | ->]], Hd as [-> | [-> | ->]];
      destruct Hp as [-> | [-> | [-> | ->]]];
      (eexists; exists 2; split; [reflexivity | ];
       split; [reflexivity | ]; split; [reflexivity | ];
       vm_compute; discriminate).
  - apply layered_S_inv in H.
    destruct H as [t0 [t1 [t2 [t3 [-> [H0 [H1 [H2 H3]]]]]]]].
    apply leaf_pointer_S in Hp. destruct Hp as [i [j [q [-> [Hi Hq]]]]].
    rewrite highest_succ in *.
    destruct (layered_size k t0) as [s0 [E0 B0]]; [lia | assumption | ].
    destruct (layered_size k t1) as [s1 [E1 B1]]; [lia | assumption | ].
    destruct (layered_size k t2) as [s2 [E2 B2]]; [lia | assumption | ].
    destruct (layered_size k t3) as [s3 [E3 B3]]; [lia | assumption | ].
    destruct i as [ | [ | [ | [ | i]]]]; [ | | | | lia].
    + merge_in_child IH t0.
    + merge_in_child IH t1.
    + merge_in_child IH t2.
    + merge_in_child IH t3.
Qed.

Section Stuck.

Variable k : nat.
Variable leaves : list path.

Hypothesis size_fits : highest k < 2 ^ size_t_bits.
Hypothesis over_budget : maximum_encoded_size < lowest k.
Hypothesis some_leaves : (List.length leaves =? 0)%nat = false.
Hypothesis leaf_pointers : forallb (leaf_pointer k) leaves = true.

(** Whatever [rand()] gives, the leaf picked is one of the snapshot. *)
Lemma picked_leaf (r : N) :
  exists leaf,
    nth_error leaves (N.to_nat (r mod N.of_nat (List.length leaves))) = Some leaf
    /\ leaf_pointer k leaf = true.
Proof.
  apply Nat.eqb_neq in some_leaves.
  assert (Hlt : (N.to_nat (r mod N.of_nat (List.length leaves)) < List.length leaves)%nat).
  { assert (r mod N.of_nat (List.length leaves) < N.of_nat (List.length leaves))
      by (apply N.mod_lt; lia).
    lia. }
  destruct (nth_error leaves _) as [leaf | ] eqn:E.
  - exists leaf. split; [reflexivity | ].
    apply nth_error_In in E.
    rewrite forallb_forall in leaf_pointers. apply leaf_pointers. exact E.
  - apply nth_error_None in E. lia.
Qed.

Lemma loop_condition_over (st : loop_state) :
  maximum_encoded_size < st_current_size st -> loop_condition leaves st = true.
Proof.
  intros H. unfold loop_condition. rewrite some_leaves.
  apply N.ltb_lt in H. rewrite H. reflexivity.
Qed.

(** Once a last node is collapsed the size is never again the one the
    loop started from, and never within the budget: every round merges
    and goes on to the next. *)
Lemma loop_goes_on (rs : list N) :
  forall st,
  layered k (st_tree st) = true ->
  (exists s, encoded_size (st_tree st) = Ok s /\ s + 6 <= highest k) ->
  maximum_encoded_size < st_current_size st ->
  exists st', loop leaves (highest k) rs st = running st'.
Proof.
  induction rs as [ | r rs IH]; intros st Hl [s [Es Hs]] Hc;
    cbn [loop]; rewrite (loop_condition_over st Hc).
  - exists st. reflexivity.
  - destruct (layered_size k (st_tree st) size_fits Hl) as [s1 [Es1 Bs]].
    rewrite Es in Es1. injection Es1 as <-.
    destruct (picked_leaf r) as [leaf [Epick Hleaf]].
    destruct (layered_merge k (st_tree st) leaf (st_maximum_detail_loss st)
                size_fits Hl Hleaf) as [t' [s' [Em [Hl' [Es' Hs']]]]].
    unfold loop_body. rewrite Es. cbn [bind].
    assert (Hne : (highest k =? s) = false) by (apply N.eqb_neq; lia).
    rewrite Hne. cbn [bind]. rewrite Epick, Em. cbn [bind snd].
    apply IH; cbn [st_tree st_current_size].
    + exact Hl'.
    + exists s'. auto.
    + lia.
Qed.

Lemma simplify_goes_on (t : QuadTree) (rs : list N) :
  layered k t = true ->
  encoded_size t = Ok (highest k) ->
  get_leaves t = Ok leaves ->
  exists st, simplify rs t = running st.
Proof.
  intros Hl Es Hget. unfold simplify. rewrite Hget, Es.
  assert (Hc : maximum_encoded_size < highest k).
  { rewrite highest_lowest. lia. }
  destruct rs as [ | r rs]; cbn [loop];
    rewrite (loop_condition_over (mkState t (highest k) 0) Hc).
  - eexists. reflexivity.
  - destruct (picked_leaf r) as [leaf [Epick Hleaf]].
    destruct (layered_merge k t leaf 1 size_fits Hl Hleaf)
      as [t' [s' [Em [Hl' [Es' Hs']]]]].
    unfold loop_body. cbn [st_tree st_maximum_detail_loss]. rewrite Es. cbn [bind].
    rewrite N.eqb_refl.
    change (wrap (0 + 1)) with 1. change (4 <? 1) with false. cbn [bind].
    rewrite Epick, Em. cbn [bind snd].
    apply loop_goes_on; cbn [st_tree st_current_size].
    + exact Hl'.
    + exists s'. auto.
    + exact Hc.
Qed.

End Stuck.

(** ** The program *)

Lemma main_unfinished (parse_size_t : string -> option N)
    (png_read : string -> option Matrix) (file cell : string) (rs : list N)
    (mcs : N) (image pixels square : Matrix) (t t' : QuadTree) (st : loop_state) :
  parse_size_t cell = Some mcs ->
  png_read file = Some image ->
  copy_pixels image = Ok pixels ->
  make_square pixels = Ok square ->
  QuadTree_new mcs square = Ok t ->
  merge_leaves t = Ok t' ->
  simplify rs t' = running st ->
  status (main parse_size_t png_read [file; cell] rs) = unfinished.
Proof.
  intros Hparse Hread Hcopy Hsquare Hnew Hmerge Hsimplify.
  unfold main. cbn [List.length Nat.ltb Nat.leb Nat.eqb orb nth].
  rewrite Hparse, Hread, Hcopy, Hsquare, Hnew, Hmerge, Hsimplify.
  reflexivity.
Qed.

(** C1 on the 64 by 64 grid of [dots], cell size 1: the tree has 4096
    leaves under 1024 last nodes and size 8192, and [merge_leaves] leaves it
    alone.  The first round raises the bound to 1 and collapses a last node;
    after that the size is below 8192 for good, so the bound never grows
    again and the loop never throws, and it is at least 2048, since only
    parents of snapshot leaves are ever collapsed, so the loop never
    returns: for every sequence of values of [rand()], the loop is still
    running when the sequence is used up.  The loop as the specification
    words it gives up in the sixth round when [rand()] keeps giving 0. *)
Theorem simplify_never_returns (rs : list N) :
  QuadTree_new 1 (grid 64 64 dots) = Ok (dots_tree 6)
  /\ merge_leaves (dots_tree 6) = Ok (dots_tree 6)
  /\ encoded_size (dots_tree 6) = Ok 8192
  /\ (exists st, simplify rs (dots_tree 6) = running st)
  /\ status (main (fun _ => Some 1) (fun _ => Some (grid 64 64 dots))
               ["dots.png"; "1"]%string rs) = unfinished
  /\ simplify_as_specified [0; 0; 0; 0; 0; 0] (dots_tree 6) = failed hopeless.
Proof.
  assert (Hnew : QuadTree_new 1 (grid 64 64 dots) = Ok (dots_tree 6))
    by (vm_compute; reflexivity).
  assert (Hmerge : merge_leaves (dots_tree 6) = Ok (dots_tree 6))
    by (vm_compute; reflexivity).
  assert (Hsize : encoded_size (dots_tree 6) = Ok (highest 5))
    by (vm_compute; reflexivity).
  assert (Hrun : exists st, simplify rs (dots_tree 6) = running st).
  { assert (Hsnapshot :
      match get_leaves (dots_tree 6) with
      | Ok leaves =>
          negb (List.length leaves =? 0)%nat && forallb (leaf_pointer 5) leaves
      | Err _ => false
      end = true) by (vm_compute; reflexivity).
    destruct (get_leaves (dots_tree 6)) as [leaves | e] eqn:Hget; [ | discriminate Hsnapshot].
    apply andb_prop in Hsnapshot. destruct Hsnapshot as [Hsome Hall].
    apply negb_true_iff in Hsome.
    apply (simplify_goes_on 5 leaves); try assumption.
    - vm_compute. reflexivity.
    - vm_compute. reflexivity.
    - vm_compute. reflexivity. }
  split; [exact Hnew | ]. split; [exact Hmerge | ]. split; [exact Hsize | ].
  split; [exact Hrun | ].
  split; [ | vm_compute; reflexivity].
  assert (Hcopy : copy_pixels (grid 64 64 dots) = Ok (grid 64 64 dots))
    by (vm_compute; reflexivity).
  assert (Hsquare : make_square (grid 64 64 dots) = Ok (grid 64 64 dots))
    by (vm_compute; reflexivity).
  destruct Hrun as [st Hrun].
  exact (main_unfinished (fun _ => Some 1) (fun _ => Some (grid 64 64 dots))
           "dots.png" "1" rs 1 (grid 64 64 dots) (grid 64 64 dots) (grid 64 64 dots)
           (dots_tree 6) (dots_tree 6) st eq_refl eq_refl Hcopy Hsquare Hnew Hmerge Hrun).
Qed.

(** ** What a normal return guarantees *)

Lemma well_formed_split (c0 c1 c2 c3 : option QuadTree) :
  well_formed (Node SPLIT_TREE c0 c1 c2 c3) = true ->
  exists t0 t1 t2 t3,
    c0 = Some t0 /\ c1 = Some t1 /\ c2 = Some t2 /\ c3 = Some t3
    /\ well_formed t0 = true /\ well_formed t1 = true
    /\ well_formed t2 = true /\ well_formed t3 = true.
Proof.
  intros H.
  destruct c0 as [t0 | ], c1 as [t1 | ], c2 as [t2 | ], c3 as [t3 | ];
    try discriminate H.
  apply well_formed_children in H. destruct H as [H0 [H1 [H2 H3]]].
  exists t0, t1, t2, t3. repeat split; assumption.
Qed.

Lemma unbounded_size_eq (ty : Type_) (c0 c1 c2 c3 : option QuadTree) :
  unbounded_size (Node ty c0 c1 c2 c3) =
  if Type_eqb ty SPLIT_TREE then
    size_behind unbounded_size c0 + size_behind unbounded_size c1
    + size_behind unbounded_size c2 + size_behind unbounded_size c3
  else 2.
Proof. reflexivity. Qed.

(** Every well-formed tree has size 2 at least. *)
Lemma unbounded_size_min (t : QuadTree) :
  well_formed t = true -> 2 <= unbounded_size t.
Proof.
  induction t as [ty c0 c1 c2 c3 IH0 IH1 IH2 IH3] using QuadTree_induction.
  intros H. rewrite unbounded_size_eq.
  destruct (Type_eqb ty SPLIT_TREE) eqn:Hty; [ | lia].
  destruct ty; try discriminate Hty.
  apply well_formed_split in H.
  destruct H as [t0 [t1 [t2 [t3 [-> [-> [-> [-> [H0 [H1 [H2 H3]]]]]]]]]]].
  cbn [behind size_behind] in *.
  specialize (IH0 H0). specialize (IH1 H1). specialize (IH2 H2). specialize (IH3 H3).
  lia.
Qed.

(** As long as the sum fits [size_t], [encoded_size] computes it. *)
Lemma encoded_size_unbounded (t : QuadTree) :
  well_formed t = true ->
  unbounded_size t < 2 ^ size_t_bits ->
  encoded_size t = Ok (unbounded_size t).
Proof.
  induction t as [ty c0 c1 c2 c3 IH0 IH1 IH2 IH3] using QuadTree_induction.
  intros H Hfit.
  destruct (Type_eqb ty SPLIT_TREE) eqn:Hty.
  - destruct ty; try discriminate Hty.
    apply well_formed_split in H.
    destruct H as [t0 [t1 [t2 [t3 [-> [-> [-> [-> [H0 [H1 [H2 H3]]]]]]]]]]].
    cbn [behind] in *.
    rewrite unbounded_size_eq, Hty in *. cbn [size_behind] in *.
    apply encoded_size_split; [apply IH0 | apply IH1 | apply IH2 | apply IH3 | ];
      (assumption || lia).
  - apply well_formed_type in H. cbn [type] in H.
    rewrite unbounded_size_eq, Hty.
    destruct ty; try discriminate H; try discriminate Hty; reflexivity.
Qed.

Lemma set_child_size (t c c' : QuadTree) (i : nat) :
  child t i = Some c ->
  unbounded_size c' <= unbounded_size c ->
  unbounded_size (set_child t i c') <= unbounded_size t.
Proof.
  destruct t as [ty c0 c1 c2 c3].
  destruct i as [ | [ | [ | [ | i]]]]; cbn [child set_child]; intros Hc Hle;
    try discriminate Hc; subst;
    rewrite !unbounded_size_eq; destruct (Type_eqb ty SPLIT_TREE);
    cbn [size_behind]; lia.
Qed.

Lemma set_child_well_formed (t c c' : QuadTree) (i : nat) :
  well_formed t = true ->
  child t i = Some c ->
  well_formed c' = true ->
  well_formed (set_child t i c') = true.
Proof.
  destruct t as [ty c0 c1 c2 c3].
  destruct i as [ | [ | [ | [ | i]]]]; cbn [child set_child]; intros H Hc Hc';
    try discriminate Hc; subst;
    cbn [well_formed through is_null orb] in *;
    rewrite !andb_true_iff in *; tauto.
Qed.

(** Turning a node into a leaf keeps the tree well-formed and does not make
    it larger. *)
Lemma set_type_at_size (p : path) :
  forall (t t' : QuadTree) (ty : Type_),
  well_formed t = true ->
  is_leaf_type ty = true ->
  set_type_at t p ty = Some t' ->
  well_formed t' = true /\ unbounded_size t' <= unbounded_size t.
Proof.
  induction p as [ | i p IH]; intros t t' ty Hwf Hty H.
  - destruct t as [ty0 c0 c1 c2 c3]. injection H as <-. split.
    + apply well_formed_children in Hwf. destruct Hwf as [H0 [H1 [H2 H3]]].
      cbn [well_formed]. rewrite H0, H1, H2, H3.
      destruct ty; try discriminate Hty; reflexivity.
    + apply unbounded_size_min in Hwf.
      rewrite (unbounded_size_eq ty).
      destruct ty; try discriminate Hty; exact Hwf.
  - cbn [set_type_at] in H.
    destruct (child t i) as [c | ] eqn:Hc; [ | discriminate H].
    destruct (set_type_at c p ty) as [c' | ] eqn:Hset; [ | discriminate H].
    injection H as <-.
    destruct (IH c c' ty) as [Hwf' Hle]; [ | assumption.. | ].
    { apply (well_formed_child t c i); assumption. }
    split.
    + apply (set_child_well_formed t c); assumption.
    + apply (set_child_size t c); assumption.
Qed.

Lemma static_cast_checked (mean : Z) (ty : Type_) :
  is_leaf_int mean = true -> static_cast_Type mean = Ok ty -> is_leaf_type ty = true.
Proof.
  unfold is_leaf_int. intros H.
  apply orb_prop in H. destruct H as [H | H]; [apply orb_prop in H; destruct H as [H | H] | ];
    apply Z.eqb_eq in H; subst mean; intros E; injection E as <-; reflexivity.
Qed.

(** A merge keeps the tree well-formed and does not make it larger. *)
Lemma merge_with_sibblings_size (t t' : QuadTree) (p : path) (mdl : N) (b : bool) :
  well_formed t = true ->
  merge_with_sibblings t p mdl = Ok (b, t') ->
  well_formed t' = true /\ unbounded_size t' <= unbounded_size t.
Proof.
  unfold merge_with_sibblings. intros Hwf H.
  destruct (node_at t p) as [leaf | ]; [ | discriminate H].
  destruct (_ || _); [discriminate H | ].
  destruct (node_at t (parent p)) as [above | ]; [ | discriminate H].
  destruct (scan_sibblings mdl above) as [[[types n] | ] | e]; cbn [bind] in H;
    [ | injection H as _ <-; split; [exact Hwf | lia] | discriminate H].
  destruct (is_leaf_int _) eqn:Hcheck; cbn [negb] in H; [ | discriminate H].
  destruct (static_cast_Type _) as [ty | e] eqn:Hcast; cbn [bind] in H; [ | discriminate H].
  destruct (set_type_at t (parent p) ty) as [r | ] eqn:Hset; [ | discriminate H].
  injection H as _ <-.
  apply (set_type_at_size (parent p) t r ty); try assumption.
  apply (static_cast_checked _ _ Hcheck Hcast).
Qed.

(** Listing the leaves below a node adds at least one pointer. *)
Lemma get_leaves_into_grows (t : QuadTree) :
  forall (this : path) (acc acc' : list path),
  get_leaves_into t this acc = Ok acc' ->
  (List.length acc < List.length acc')%nat.
Proof.
  induction t as [ty c0 c1 c2 c3 IH0 IH1 IH2 IH3] using QuadTree_induction.
  assert (Hvisit : forall c i this acc acc',
    behind (fun t => forall this acc acc', get_leaves_into t this acc = Ok acc' ->
                     (List.length acc < List.length acc')%nat) c ->
    visit_child get_leaves_into this i c acc = Ok acc' ->
    (List.length acc < List.length acc')%nat).
  { intros c i this acc acc' IH H. unfold visit_child in H.
    apply deref_Ok in H. destruct H as [t [-> H]]. cbn [behind] in IH.
    destruct (type t); try discriminate H;
      try (injection H as <-; rewrite length_app; cbn [List.length]; lia).
    apply (IH _ _ _ H). }
  intros this acc acc' H. cbn [get_leaves_into] in H.
  bind_inv H a0 H0. bind_inv H a1 H1. bind_inv H a2 H2.
  apply (Hvisit _ _ _ _ _ IH0) in H0. apply (Hvisit _ _ _ _ _ IH1) in H1.
  apply (Hvisit _ _ _ _ _ IH2) in H2. apply (Hvisit _ _ _ _ _ IH3) in H.
  lia.
Qed.

Section Returned.

Variable leaves : list path.
Variable last_size : N.

Hypothesis some_leaves : (List.length leaves =? 0)%nat = false.

(** The loop returns only when the size it last computed is within the
    budget, and the tree it returns is no larger than that. *)
Lemma loop_returned (rs : list N) :
  forall (st : loop_state) (t' : QuadTree),
  well_formed (st_tree st) = true ->
  unbounded_size (st_tree st) < 2 ^ size_t_bits ->
  unbounded_size (st_tree st) <= st_current_size st ->
  loop leaves last_size rs st = returned t' ->
  well_formed t' = true
  /\ unbounded_size t' < 2 ^ size_t_bits
  /\ unbounded_size t' <= maximum_encoded_size.
Proof.
  induction rs as [ | r rs IH]; intros st t' Hwf Hfit Hle H; cbn [loop] in H;
    destruct (loop_condition leaves st) eqn:Hcond; try discriminate H.
  - injection H as <-. unfold loop_condition in Hcond.
    rewrite some_leaves in Hcond. cbn [negb andb] in Hcond.
    apply N.ltb_ge in Hcond. repeat split; (assumption || lia).
  - destruct (loop_body leaves last_size st r) as [st' | e] eqn:Hbody; [ | discriminate H].
    apply (IH st' t'); [ | | | exact H];
      unfold loop_body in Hbody;
      rewrite (encoded_size_unbounded _ Hwf Hfit) in Hbody; cbn [bind] in Hbody;
      bind_inv Hbody mdl Hmdl;
      (destruct (nth_error leaves _) as [leaf | ]; [ | discriminate Hbody]);
      bind_inv Hbody merged Hmerge; injection Hbody as <-;
      destruct merged as [b t1]; cbn [st_tree st_current_size snd];
      destruct (merge_with_sibblings_size _ _ _ _ _ Hwf Hmerge) as [Hwf1 Hle1];
      (assumption || lia).
  - injection H as <-. unfold loop_condition in Hcond.
    rewrite some_leaves in Hcond. cbn [negb andb] in Hcond.
    apply N.ltb_ge in Hcond. repeat split; (assumption || lia).
Qed.

End Returned.

(** Whenever [simplify] returns, the tree it returns is within the budget:
    the size tested by the loop is the one from before the last merge, and
    a merge never makes the tree larger. *)
Lemma simplify_returns_within_budget (rs : list N) (t t' : QuadTree) :
  well_formed t = true ->
  unbounded_size t < 2 ^ size_t_bits ->
  simplify rs t = returned t' ->
  exists size, encoded_size t' = Ok size /\ size <= maximum_encoded_size.
Proof.
  intros Hwf Hfit H. unfold simplify in H.
  destruct (get_leaves t) as [leaves | e] eqn:Hget; [ | discriminate H].
  rewrite (encoded_size_unbounded _ Hwf Hfit) in H.
  assert (Hsome : (List.length leaves =? 0)%nat = false).
  { apply get_leaves_into_grows in Hget. apply Nat.eqb_neq. cbn [List.length] in Hget. lia. }
  destruct (loop_returned leaves (unbounded_size t) Hsome rs
              (mkState t (unbounded_size t) 0) t') as [Hwf' [Hfit' Hle]];
    cbn [st_tree st_current_size]; try assumption; try lia.
  exists (unbounded_size t'). split; [ | exact Hle].
  apply encoded_size_unbounded; assumption.
Qed.

(** ** The loop as the specification words it ends *)

(** With the size of each round compared with the one of the round before,
    a round either finds a smaller tree or raises the bound, which can be
    done four times only: [last_size + 4 - maximum_detail_loss] decreases
    with every round, and the loop stops before it has used that many
    values of [rand()]. *)
Lemma loop_as_specified_ends (leaves : list path) (rs : list N) :
  forall (last_size : N) (st : loop_state),
  well_formed (st_tree st) = true ->
  unbounded_size (st_tree st) < 2 ^ size_t_bits ->
  unbounded_size (st_tree st) <= last_size ->
  st_maximum_detail_loss st <= 4 ->
  last_size + 4 - st_maximum_detail_loss st < N.of_nat (List.length rs) ->
  forall st', loop_as_specified leaves rs last_size st <> running st'.
Proof.
  induction rs as [ | r rs IH]; intros last_size st Hwf Hfit Hle Hmdl Hrounds st';
    cbn [List.length] in Hrounds; [lia | ].
  cbn [loop_as_specified].
  destruct (loop_condition leaves st); [ | discriminate].
  destruct (loop_body leaves last_size st r) as [st1 | e] eqn:Hbody; [ | discriminate].
  unfold loop_body in Hbody.
  rewrite (encoded_size_unbounded _ Hwf Hfit) in Hbody. cbn [bind] in Hbody.
  bind_inv Hbody mdl Emdl.
  destruct (nth_error leaves _) as [leaf | ]; [ | discriminate Hbody].
  bind_inv Hbody merged Hmerge. injection Hbody as <-.
  destruct merged as [b t1]. cbn [snd st_current_size].
  destruct (merge_with_sibblings_size _ _ _ _ _ Hwf Hmerge) as [Hwf1 Hle1].
  assert (Hsmall : wrap (st_maximum_detail_loss st + 1) = st_maximum_detail_loss st + 1).
  { apply wrap_small. apply N.le_lt_trans with 5; [lia | vm_compute; reflexivity]. }
  apply IH; cbn [st_tree st_current_size st_maximum_detail_loss];
    try assumption; try lia;
    destruct (N.eqb_spec last_size (unbounded_size (st_tree st))) as [Heq | Hne];
    try (destruct (N.ltb_spec 4 (wrap (st_maximum_detail_loss st + 1)));
         [discriminate Emdl | ]);
    injection Emdl as <-; lia.
Qed.

(** So [simplify], had it the loop of the specification, would end on every
    well-formed tree, by a return or by an exception, within as many rounds
    as the size of the tree plus five. *)
Lemma simplify_as_specified_ends (rs : list N) (t : QuadTree) :
  well_formed t = true ->
  unbounded_size t < 2 ^ size_t_bits ->
  unbounded_size t + 4 < N.of_nat (List.length rs) ->
  forall st, simplify_as_specified rs t <> running st.
Proof.
  intros Hwf Hfit Hrounds st. unfold simplify_as_specified.
  destruct (get_leaves t) as [leaves | e]; [ | discriminate].
  rewrite (encoded_size_unbounded _ Hwf Hfit).
  apply loop_as_specified_ends; cbn [st_tree st_maximum_detail_loss];
    try assumption; lia.
Qed.

(** * Further properties *)

(** ** Rounding up to a power of two *)

Lemma smeared_start (m : N) : smeared 1 m m.
Proof.
  intros i. split.
  - intros H. exists 0. rewrite N.add_0_r. split; [lia | exact H].
  - intros [d [Hd H]]. assert (d = 0) by lia. subst d.
    rewrite N.add_0_r in H. exact H.
Qed.

(** [n |= n >> r] doubles the number of bits gathered. *)
Lemma smeared_step (r a m : N) :
  smeared r a m -> smeared (2 * r) (N.lor a (N.shiftr a r)) m.
Proof.
  unfold smeared. intros H i.
  rewrite N.lor_spec, N.shiftr_spec', orb_true_iff, (H i), (H (i + r)). split.
  - intros [[d [Hd Hb]] | [d [Hd Hb]]].
    + exists d. split; [lia | exact Hb].
    + exists (r + d). split; [lia | ]. rewrite N.add_assoc. exact Hb.
  - intros [d [Hd Hb]]. destruct (N.lt_ge_cases d r) as [Hlt | Hge].
    + left. exists d. auto.
    + right. exists (d - r). split; [lia | ].
      replace (i + r + (d - r)) with (i + d) by lia. exact Hb.
Qed.

(** Gathering 32 bits of a number below 2^32 sets every bit up to its
    highest one. *)
Lemma smeared_ones (a m : N) :
  smeared 32 a m -> m <> 0 -> m < 2 ^ 32 -> a = N.ones (N.succ (N.log2 m)).
Proof.
  intros H Hm Hlt.
  assert (Hlog : N.log2 m < 32) by (apply N.log2_lt_pow2; lia).
  apply N.bits_inj. intros i.
  destruct (N.lt_ge_cases i (N.succ (N.log2 m))) as [Hi | Hi].
  - rewrite N.ones_spec_low by exact Hi. apply H.
    exists (N.log2 m - i). split; [lia | ].
    replace (i + (N.log2 m - i)) with (N.log2 m) by lia.
    apply N.bit_log2. exact Hm.
  - rewrite N.ones_spec_high by exact Hi.
    destruct (N.testbit a i) eqn:E; [ | reflexivity].
    apply H in E. destruct E as [d [_ Hb]].
    rewrite N.bits_above_log2 in Hb by lia. discriminate Hb.
Qed.

Lemma smeared_zero (r a : N) : smeared r a 0 -> a = 0.
Proof.
  intros H. apply N.bits_inj. intros i. rewrite N.bits_0.
  destruct (N.testbit a i) eqn:E; [ | reflexivity].
  apply H in E. destruct E as [d [_ Hb]]. rewrite N.bits_0 in Hb. discriminate Hb.
Qed.

(** The value of [next_greater_power_of_2] up to 2^32. *)
Lemma next_greater_power_of_2_value (n : N) :
  1 <= n <= 2 ^ 32 ->
  next_greater_power_of_2 n = if n =? 1 then 1 else 2 ^ N.succ (N.log2 (n - 1)).
Proof.
  intros Hn. unfold next_greater_power_of_2.
  assert (Hdecr : decr n = n - 1).
  { unfold decr, wrap.
    replace (n + (2 ^ size_t_bits - 1)) with (n - 1 + 1 * 2 ^ size_t_bits).
    - rewrite N.Div0.mod_add. apply N.mod_small.
      apply N.lt_le_trans with (2 ^ 32); [lia | vm_compute; discriminate].
    - assert (0 < 2 ^ size_t_bits) by (vm_compute; reflexivity). lia. }
  rewrite Hdecr. cbv zeta.
  pose proof (smeared_step 16 _ _ (smeared_step 8 _ _ (smeared_step 4 _ _
                (smeared_step 2 _ _ (smeared_step 1 _ _ (smeared_start (n - 1)))))))
    as S1.
  change (2 * 16) with 32 in S1.
  destruct (N.eqb_spec n 1) as [-> | Hne].
  - reflexivity.
  - rewrite (smeared_ones _ (n - 1) S1) by lia.
    rewrite N.ones_equiv.
    assert (Hlog : N.log2 (n - 1) < 32) by (apply N.log2_lt_pow2; lia).
    assert (Hpos : 0 < 2 ^ N.succ (N.log2 (n - 1))) by (apply N.neq_0_lt_0, N.pow_nonzero; lia).
    replace (N.pred (2 ^ N.succ (N.log2 (n - 1))) + 1) with (2 ^ N.succ (N.log2 (n - 1))) by lia.
    apply wrap_small.
    apply N.le_lt_trans with (2 ^ 32); [ | vm_compute; reflexivity].
    apply N.pow_le_mono_r; lia.
Qed.

Lemma next_greater_power_of_2_spec (n : N) :
  1 <= n <= 2 ^ 32 ->
  exists e,
    next_greater_power_of_2 n = 2 ^ e
    /\ n <= 2 ^ e
    /\ forall j, n <= 2 ^ j -> 2 ^ e <= 2 ^ j.
Proof.
  intros Hn. rewrite next_greater_power_of_2_value by exact Hn.
  destruct (N.eqb_spec n 1) as [-> | Hne].
  - exists 0. split; [reflexivity | ]. split; [reflexivity | ].
    intros j _. apply N.pow_le_mono_r; lia.
  - exists (N.succ (N.log2 (n - 1))). split; [reflexivity | ].
    assert (Hpos : 0 < n - 1) by lia.
    destruct (N.log2_spec (n - 1) Hpos) as [Hlow Hhigh].
    split; [lia | ].
    intros j Hj. apply N.pow_le_mono_r; [lia | ].
    assert (N.log2 (n - 1) < j) by (apply N.log2_lt_pow2; lia).
    lia.
Qed.

(** Whatever is not a power of two is rounded to something larger. *)
Lemma next_greater_power_of_2_larger (n : N) :
  1 <= n <= 2 ^ 32 ->
  n <= next_greater_power_of_2 n
  /\ (next_greater_power_of_2 n = n <-> exists e, n = 2 ^ e).
Proof.
  intros Hn.
  destruct (next_greater_power_of_2_spec n Hn) as [e [E [Hle Hmin]]].
  rewrite E. split; [exact Hle | ]. split.
  - intros H. exists e. symmetry. exact H.
  - intros [e' ->]. apply N.le_antisymm; [ | exact Hle].
    apply Hmin. reflexivity.
Qed.

(** Powers of two up to 2^32 are their own rounding. *)
Lemma next_greater_power_of_2_fixed (e : N) :
  e <= 32 -> next_greater_power_of_2 (2 ^ e) = 2 ^ e.
Proof.
  intros He.
  assert (Hpos : 0 < 2 ^ e) by (apply N.neq_0_lt_0, N.pow_nonzero; lia).
  assert (Hle : 2 ^ e <= 2 ^ 32) by (apply N.pow_le_mono_r; lia).
  apply next_greater_power_of_2_larger; [lia | ]. exists e. reflexivity.
Qed.

(** X1: up to 2^32, [next_greater_power_of_2 n] is the least power of two
    that is at least [n]; in particular it is [n] exactly when [n] is a
    power of two. *)
Theorem next_greater_power_of_2_least (n : N) :
  1 <= n <= 2 ^ 32 ->
  (exists e,
     next_greater_power_of_2 n = 2 ^ e
     /\ n <= 2 ^ e
     /\ forall j, n <= 2 ^ j -> 2 ^ e <= 2 ^ j)
  /\ (next_greater_power_of_2 n = n <-> exists e, n = 2 ^ e).
Proof.
  intros Hn. split.
  - apply next_greater_power_of_2_spec. exact Hn.
  - apply next_greater_power_of_2_larger. exact Hn.
Qed.

Lemma next_greater_power_of_2_least_witness :
  (exists e,
     next_greater_power_of_2 5 = 2 ^ e
     /\ 5 <= 2 ^ e
     /\ forall j, 5 <= 2 ^ j -> 2 ^ e <= 2 ^ j)
  /\ (next_greater_power_of_2 5 = 5 <-> exists e, 5 = 2 ^ e).
Proof.
  apply (next_greater_power_of_2_least 5).
  split; vm_compute; discriminate.
Defined.

(** ** Matrices *)

Lemma list_set_Some (l : list Z) (i : nat) (v : Z) :
  (i < List.length l)%nat ->
  exists l', list_set l i v = Some l'
    /\ List.length l' = List.length l
    /\ nth_error l' i = Some v
    /\ forall j, j <> i -> nth_error l' j = nth_error l j.
Proof.
  revert i. induction l as [ | a l IH]; intros i Hi; cbn [List.length] in Hi; [lia | ].
  destruct i as [ | i].
  - exists (v :: l). repeat split. intros [ | j] Hj; [contradiction | reflexivity].
  - destruct (IH i) as [l' [E [Hlen [Hget Hother]]]]; [lia | ].
    exists (a :: l'). cbn [list_set]. rewrite E.
    repeat split; cbn [List.length nth_error]; try (assumption || lia).
    intros [ | j] Hj; [reflexivity | ]. cbn [nth_error]. apply Hother. lia.
Qed.

Lemma list_set_None (l : list Z) (i : nat) (v : Z) :
  (List.length l <= i)%nat -> list_set l i v = None.
Proof.
  revert i. induction l as [ | a l IH]; intros i Hi; [reflexivity | ].
  cbn [List.length] in Hi. destruct i as [ | i]; [lia | ].
  cbn [list_set]. rewrite IH by lia. reflexivity.
Qed.

(** The offset of a cell inside a complete matrix is the plain one. *)
Lemma offset_inside (m : Matrix) (x y : N) :
  complete m -> x < width m -> y < height m ->
  offset m x y = N.to_nat (y * width m + x)
  /\ (offset m x y < List.length (data m))%nat.
Proof.
  intros [Hfit Hlen] Hx Hy. unfold offset.
  assert (Hin : y * width m + x < width m * height m) by nia.
  rewrite (wrap_small (y * width m)) by nia.
  rewrite wrap_small by lia.
  split; [reflexivity | lia].
Qed.

Lemma offset_injective (m : Matrix) (x y x' y' : N) :
  complete m -> x < width m -> y < height m -> x' < width m -> y' < height m ->
  offset m x y = offset m x' y' -> x = x' /\ y = y'.
Proof.
  intros Hm Hx Hy Hx' Hy' H.
  destruct (offset_inside m x y Hm Hx Hy) as [E _].
  destruct (offset_inside m x' y' Hm Hx' Hy') as [E' _].
  rewrite E, E' in H. apply N2Nat.inj in H.
  assert (y = y') by nia. subst y'. split; [nia | reflexivity].
Qed.

(** Writing inside a complete matrix: the matrix stays complete, the cell
    written holds the value, the other cells keep theirs. *)
Lemma Matrix_set_inside (m : Matrix) (x y : N) (v : Z) :
  complete m -> x < width m -> y < height m ->
  exists m', Matrix_set m x y v = Ok m'
    /\ width m' = width m /\ height m' = height m /\ complete m'
    /\ Matrix_get m' x y = Ok v
    /\ forall x' y', x' < width m -> y' < height m -> (x', y') <> (x, y) ->
         Matrix_get m' x' y' = Matrix_get m x' y'.
Proof.
  intros Hm Hx Hy.
  destruct (offset_inside m x y Hm Hx Hy) as [_ Hin].
  destruct (list_set_Some (data m) (offset m x y) v Hin) as [d [E [Hlen [Hget Hother]]]].
  exists (mkMatrix (width m) (height m) d).
  unfold Matrix_set. rewrite E.
  split; [reflexivity | ]. split; [reflexivity | ]. split; [reflexivity | ].
  split; [destruct Hm as [Hfit Hl]; split; cbn [width height data]; congruence | ].
  split.
  - unfold Matrix_get. change (offset (mkMatrix (width m) (height m) d) x y)
      with (offset m x y). cbn [data]. rewrite Hget. reflexivity.
  - intros x' y' Hx' Hy' Hne. unfold Matrix_get.
    change (offset (mkMatrix (width m) (height m) d) x' y') with (offset m x' y').
    cbn [data]. rewrite Hother; [reflexivity | ].
    intros Heq. apply Hne.
    destruct (offset_injective m x' y' x y Hm Hx' Hy' Hx Hy Heq) as [-> ->]. reflexivity.
Qed.

Lemma Matrix_get_inside (m : Matrix) (x y : N) :
  complete m -> x < width m -> y < height m -> exists v, Matrix_get m x y = Ok v.
Proof.
  intros Hm Hx Hy.
  destruct (offset_inside m x y Hm Hx Hy) as [_ Hin].
  unfold Matrix_get.
  destruct (nth_error (data m) (offset m x y)) as [v | ] eqn:E.
  - exists v. reflexivity.
  - apply nth_error_None in E. lia.
Qed.

(** X2: a write inside a complete matrix succeeds and is read back; every
    other cell keeps its value.  Nothing checks [x] against the width: a
    column past the last one designates a cell of the next row. *)
Theorem Matrix_set_get (m : Matrix) (x y : N) (v : Z) :
  complete m -> x < width m -> y < height m ->
  (exists m', Matrix_set m x y v = Ok m'
     /\ complete m'
     /\ Matrix_get m' x y = Ok v
     /\ forall x' y', x' < width m -> y' < height m -> (x', y') <> (x, y) ->
          Matrix_get m' x' y' = Matrix_get m x' y')
  /\ (y + 1 < height m -> Matrix_get m (x + width m) y = Matrix_get m x (y + 1)).
Proof.
  intros Hm Hx Hy. split.
  - destruct (Matrix_set_inside m x y v Hm Hx Hy) as [m' [E [_ [_ [Hc [Hg Ho]]]]]].
    exists m'. auto.
  - intros Hy'. unfold Matrix_get.
    destruct (offset_inside m x (y + 1) Hm Hx Hy') as [E _]. rewrite E.
    replace (offset m (x + width m) y) with (N.to_nat ((y + 1) * width m + x));
      [reflexivity | ].
    unfold offset. destruct Hm as [Hfit _].
    rewrite (wrap_small (y * width m)) by nia.
    rewrite wrap_small by nia. f_equal. lia.
Qed.

Lemma Matrix_set_get_witness :
  (exists m', Matrix_set (grid 2 2 dots) 1 0 7%Z = Ok m'
     /\ complete m'
     /\ Matrix_get m' 1 0 = Ok 7%Z
     /\ forall x' y', x' < 2 -> y' < 2 -> (x', y') <> (1, 0) ->
          Matrix_get m' x' y' = Matrix_get (grid 2 2 dots) x' y')
  /\ (0 + 1 < 2 -> Matrix_get (grid 2 2 dots) (1 + 2) 0 = Matrix_get (grid 2 2 dots) 1 (0 + 1)).
Proof.
  apply (Matrix_set_get (grid 2 2 dots) 1 0 7%Z).
  - split; vm_compute; reflexivity.
  - reflexivity.
  - reflexivity.
Defined.

(** ** Loops *)

(** A loop whose rounds all succeed and keep an invariant. *)
Lemma for_loop_invariant {St : Type} (body : N -> St -> result St)
    (Inv : N -> St -> Prop) (count : nat) :
  forall (i : N) (s : St),
  i + N.of_nat count < 2 ^ size_t_bits ->
  Inv i s ->
  (forall j s, i <= j < i + N.of_nat count -> Inv j s ->
     exists s', body j s = Ok s' /\ Inv (j + 1) s') ->
  exists s', for_loop count i body s = Ok s' /\ Inv (i + N.of_nat count) s'.
Proof.
  induction count as [ | count IH]; intros i s Hfit Hinv Hstep.
  - exists s. split; [reflexivity | ].
    replace (i + N.of_nat 0) with i by lia. exact Hinv.
  - cbn [for_loop].
    destruct (Hstep i s) as [s1 [E H1]]; [lia | exact Hinv | ].
    rewrite E. cbn [bind]. rewrite wrap_small by lia.
    destruct (IH (i + 1) s1) as [s' [E' H']]; [lia | exact H1 | | ].
    + intros j s2 Hj. apply Hstep. lia.
    + exists s'. split; [exact E' | ].
      replace (i + N.of_nat (S count)) with (i + 1 + N.of_nat count) by lia. exact H'.
Qed.

(** ** Copying a matrix cell by cell

    The two loops of [make_square] and the two loops of [main] that fill
    [pixels] have one shape: every cell [(x, y)] of the source is written to
    the cell [(fx x, fy y)] of the target. *)
Section Copy.

Variable input : Matrix.
Variables cols rows : N.
Variables fx fy : N -> N.
Variable target : Matrix.

Hypothesis cols_fit : cols < 2 ^ size_t_bits.
Hypothesis rows_fit : rows < 2 ^ size_t_bits.
Hypothesis readable : forall x y, x < cols -> y < rows -> exists v, Matrix_get input x y = Ok v.
Hypothesis fx_inside : forall x, x < cols -> fx x < width target.
Hypothesis fy_inside : forall y, y < rows -> fy y < height target.
Hypothesis fx_injective : forall x x', x < cols -> x' < cols -> fx x = fx x' -> x = x'.
Hypothesis fy_injective : forall y y', y < rows -> y' < rows -> fy y = fy y' -> y = y'.
Hypothesis target_complete : complete target.

Let same_shape (m : Matrix) : Prop :=
  width m = width target /\ height m = height target /\ complete m.

Let write (y x : N) (output : Matrix) : result Matrix :=
  v <- Matrix_get input x y ;; Matrix_set output (fx x) (fy y) v.

Lemma copy_row (y : N) (start : Matrix) :
  y < rows -> same_shape start ->
  exists output,
    for_loop (N.to_nat cols) 0 (write y) start = Ok output
    /\ same_shape output
    /\ (forall x, x < cols -> Matrix_get output (fx x) (fy y) = Matrix_get input x y)
    /\ (forall X Y, X < width target -> Y < height target ->
          (forall x, x < cols -> (fx x, fy y) <> (X, Y)) ->
          Matrix_get output X Y = Matrix_get start X Y).
Proof.
  intros Hy Hstart.
  destruct (for_loop_invariant (write y)
    (fun x output =>
       same_shape output
       /\ (forall x', x' < x -> Matrix_get output (fx x') (fy y) = Matrix_get input x' y)
       /\ (forall X Y, X < width target -> Y < height target ->
             (forall x', x' < x -> (fx x', fy y) <> (X, Y)) ->
             Matrix_get output X Y = Matrix_get start X Y))
    (N.to_nat cols) 0 start) as [output [E [Hshape [Hcopied Hkept]]]].
  - lia.
  - split; [exact Hstart | ]. split; [intros x' Hx'; lia | reflexivity].
  - intros x output Hx [[Hw [Hh Hc]] [Hcopied Hkept]].
    assert (Hxc : x < cols) by lia.
    destruct (readable x y Hxc Hy) as [v Ev].
    destruct (Matrix_set_inside output (fx x) (fy y) v Hc) as [m' [E [Hw' [Hh' [Hc' [Hg Ho]]]]]].
    { rewrite Hw. apply fx_inside. exact Hxc. }
    { rewrite Hh. apply fy_inside. exact Hy. }
    exists m'. unfold write. rewrite Ev. cbn [bind].
    split; [exact E | ]. split; [split; [congruence | split; [congruence | exact Hc']] | ]. split.
    + intros x' Hx'. destruct (N.eq_dec x' x) as [-> | Hne]; [congruence | ].
      rewrite Ho.
      * apply Hcopied. lia.
      * rewrite Hw. apply fx_inside. lia.
      * rewrite Hh. apply fy_inside. exact Hy.
      * intros Heq. injection Heq as Heq. apply Hne. apply fx_injective; (assumption || lia).
    + intros X Y HX HY Hout.
      rewrite Ho; [ | rewrite Hw; exact HX | rewrite Hh; exact HY
                  | apply not_eq_sym, Hout; lia].
      apply Hkept; try assumption. intros x' Hx'. apply Hout. lia.
  - exists output. rewrite N.add_0_l, N2Nat.id in Hcopied, Hkept.
    split; [exact E | ]. split; [exact Hshape | ]. split; assumption.
Qed.

(** The two loops together. *)
Lemma copy_cells :
  exists output,
    for_loop (N.to_nat rows) 0
      (fun y output => for_loop (N.to_nat cols) 0 (write y) output) target = Ok output
    /\ same_shape output
    /\ (forall x y, x < cols -> y < rows ->
          Matrix_get output (fx x) (fy y) = Matrix_get input x y)
    /\ (forall X Y, X < width target -> Y < height target ->
          (forall x y, x < cols -> y < rows -> (fx x, fy y) <> (X, Y)) ->
          Matrix_get output X Y = Matrix_get target X Y).
Proof.
  destruct (for_loop_invariant
    (fun y output => for_loop (N.to_nat cols) 0 (write y) output)
    (fun y output =>
       same_shape output
       /\ (forall x y', x < cols -> y' < y ->
             Matrix_get output (fx x) (fy y') = Matrix_get input x y')
       /\ (forall X Y, X < width target -> Y < height target ->
             (forall x y', x < cols -> y' < y -> (fx x, fy y') <> (X, Y)) ->
             Matrix_get output X Y = Matrix_get target X Y))
    (N.to_nat rows) 0 target) as [output [E [Hshape [Hcopied Hkept]]]].
  - lia.
  - split; [split; [reflexivity | split; [reflexivity | exact target_complete]] | ].
    split; [intros x y' _ Hy'; lia | reflexivity].
  - intros y start Hy [Hstart [Hcopied Hkept]].
    assert (Hyr : y < rows) by lia.
    destruct (copy_row y start Hyr Hstart) as [output [E [Hshape [Hrow Hrest]]]].
    exists output. split; [exact E | ]. split; [exact Hshape | ]. split.
    + intros x y' Hx Hy'. destruct (N.eq_dec y' y) as [-> | Hne]; [apply Hrow; exact Hx | ].
      rewrite Hrest.
      * apply Hcopied; lia.
      * apply fx_inside. exact Hx.
      * apply fy_inside. lia.
      * intros x' Hx' Heq. injection Heq as _ Heq. apply Hne. symmetry.
        apply fy_injective; (assumption || lia).
    + intros X Y HX HY Hout. rewrite Hrest; try assumption.
      * apply Hkept; try assumption. intros x y' Hx Hy'. apply Hout; lia.
      * intros x Hx. apply Hout; lia.
  - exists output. rewrite N.add_0_l, N2Nat.id in Hcopied, Hkept.
    split; [exact E | ]. split; [exact Hshape | ]. split; assumption.
Qed.

End Copy.

(** ** Squaring, when it goes through *)

Lemma Matrix_new_complete (w h : N) :
  w * h < 2 ^ size_t_bits -> complete (Matrix_new w h).
Proof.
  intros H. unfold complete, Matrix_new. cbn [width height data].
  split; [exact H | ]. rewrite repeat_length, wrap_small by exact H. reflexivity.
Qed.

Lemma Matrix_new_zero (w h x y : N) :
  w * h < 2 ^ size_t_bits -> x < w -> y < h -> Matrix_get (Matrix_new w h) x y = Ok 0%Z.
Proof.
  intros H Hx Hy.
  destruct (offset_inside (Matrix_new w h) x y (Matrix_new_complete w h H) Hx Hy) as [_ Hin].
  unfold Matrix_get.
  destruct (nth_error _ _) as [v | ] eqn:E.
  - apply nth_error_In, repeat_spec in E. subst v. reflexivity.
  - apply nth_error_None in E. lia.
Qed.

(** Stretching [x -> x * size / w] moves distinct columns apart. *)
Lemma stretch_increasing (w size x x' : N) :
  0 < w -> w <= size -> x < x' -> x * size / w < x' * size / w.
Proof.
  intros Hw Hsize Hlt.
  apply N.lt_le_trans with ((x * size + 1 * w) / w).
  - rewrite N.div_add by lia. lia.
  - apply N.Div0.div_le_mono. nia.
Qed.

Lemma stretch_injective (w size x x' : N) :
  0 < w -> w <= size -> x * size / w = x' * size / w -> x = x'.
Proof.
  intros Hw Hsize H.
  destruct (N.lt_trichotomy x x') as [Hlt | [Heq | Hgt]]; [ | exact Heq | ].
  - pose proof (stretch_increasing w size x x' Hw Hsize Hlt). lia.
  - pose proof (stretch_increasing w size x' x Hw Hsize Hgt). lia.
Qed.

Lemma stretch_inside (w size x : N) :
  0 < w -> w <= size -> x < w -> x * size / w < size.
Proof.
  intros Hw Hsize Hx. apply N.Div0.div_lt_upper_bound. nia.
Qed.

(** When both dimensions are their own rounding, [make_square] returns the
    square of their maximum, with every sample at its stretched place and 0
    in the cells that no sample is mapped to. *)
Lemma make_square_rounded (input : Matrix) :
  let w := get_width input in
  let h := get_height input in
  let size := N.max w h in
  complete input -> 0 < w -> 0 < h ->
  next_greater_power_of_2 w = w -> next_greater_power_of_2 h = h ->
  size * size < 2 ^ size_t_bits ->
  exists output,
    make_square input = Ok output
    /\ width output = size /\ height output = size /\ complete output
    /\ (forall x y, x < w -> y < h ->
          Matrix_get output (x * size / w) (y * size / h) = Matrix_get input x y)
    /\ (forall X Y, X < size -> Y < size ->
          (forall x y, x < w -> y < h -> (x * size / w, y * size / h) <> (X, Y)) ->
          Matrix_get output X Y = Ok 0%Z).
Proof.
  intros w h size Hc Hw Hh Ew Eh Hfit.
  assert (Hws : w <= size) by (unfold size; lia).
  assert (Hhs : h <= size) by (unfold size; lia).
  assert (Hwrap : forall a b, a < b -> b <= size -> wrap (a * size) = a * size).
  { intros a b Ha Hb. apply wrap_small. nia. }
  destruct (copy_cells input w h (fun x => wrap (x * size) / w)
              (fun y => wrap (y * size) / h) (Matrix_new size size))
    as [output [E [[Hwo [Hho Hco]] [Hcopied Hkept]]]].
  - nia.
  - nia.
  - intros x y Hx Hy. apply Matrix_get_inside; assumption.
  - intros x Hx. cbn [Matrix_new width]. rewrite (Hwrap x w) by assumption.
    apply stretch_inside; assumption.
  - intros y Hy. cbn [Matrix_new height]. rewrite (Hwrap y h) by assumption.
    apply stretch_inside; assumption.
  - intros x x' Hx Hx'. rewrite (Hwrap x w), (Hwrap x' w) by assumption.
    apply stretch_injective; assumption.
  - intros y y' Hy Hy'. rewrite (Hwrap y h), (Hwrap y' h) by assumption.
    apply stretch_injective; assumption.
  - apply Matrix_new_complete. exact Hfit.
  - exists output. unfold make_square. fold w h. rewrite Ew, Eh. fold size.
    split; [exact E | ]. split; [exact Hwo | ]. split; [exact Hho | ].
    split; [exact Hco | ]. split.
    + intros x y Hx Hy. rewrite <- (Hcopied x y Hx Hy).
      rewrite (Hwrap x w), (Hwrap y h) by assumption. reflexivity.
    + intros X Y HX HY Hout. rewrite Hkept; try assumption.
      * apply Matrix_new_zero; assumption.
      * intros x y Hx Hy. rewrite (Hwrap x w), (Hwrap y h) by assumption.
        apply Hout; assumption.
Qed.

(** Two complete matrices of the same dimensions with the same samples are
    the same matrix. *)
Lemma complete_ext (m m' : Matrix) :
  complete m -> complete m' ->
  width m' = width m -> height m' = height m ->
  (forall x y, x < width m -> y < height m -> Matrix_get m' x y = Matrix_get m x y) ->
  m' = m.
Proof.
  intros Hm Hm' Hw Hh Hget.
  destruct m as [w h d], m' as [w' h' d']. cbn [width height] in *. subst w' h'.
  f_equal. apply nth_error_ext. intros k.
  destruct Hm as [Hfit Hlen], Hm' as [_ Hlen']. cbn [width height data] in *.
  destruct (Nat.lt_ge_cases k (N.to_nat (w * h))) as [Hk | Hk].
  - assert (Hw : 0 < w) by nia.
    set (x := N.of_nat k mod w). set (y := N.of_nat k / w).
    assert (Hx : x < w) by (apply N.mod_lt; lia).
    assert (Hy : y < h) by (apply N.Div0.div_lt_upper_bound; lia).
    assert (Hk' : N.of_nat k = y * w + x).
    { unfold x, y. rewrite (N.div_mod (N.of_nat k) w) at 1 by lia. lia. }
    specialize (Hget x y Hx Hy). unfold Matrix_get in Hget.
    assert (Hoff : forall d0, offset (mkMatrix w h d0) x y = k).
    { intros d0. unfold offset. cbn [width].
      rewrite (wrap_small (y * w)) by nia. rewrite wrap_small by nia. lia. }
    rewrite !Hoff in Hget. cbn [data] in Hget.
    assert (nth_error d k <> None) by (apply nth_error_Some; lia).
    assert (nth_error d' k <> None) by (apply nth_error_Some; lia).
    destruct (nth_error d k), (nth_error d' k); congruence.
  - assert (E : nth_error d k = None) by (apply nth_error_None; lia).
    assert (E' : nth_error d' k = None) by (apply nth_error_None; lia).
    congruence.
Qed.

(** X3: when width and height are both their own rounding, [make_square]
    returns the complete square matrix of side [max width height] in which
    the sample of [(x, y)] is at [(x * size / width, y * size / height)] and
    every other cell is 0. *)
Theorem make_square_stretches (input : Matrix) :
  let w := get_width input in
  let h := get_height input in
  let size := N.max w h in
  complete input -> 0 < w -> 0 < h ->
  next_greater_power_of_2 w = w -> next_greater_power_of_2 h = h ->
  size * size < 2 ^ size_t_bits ->
  exists output,
    make_square input = Ok output
    /\ width output = size /\ height output = size /\ complete output
    /\ (forall x y, x < w -> y < h ->
          Matrix_get output (x * size / w) (y * size / h) = Matrix_get input x y)
    /\ (forall X Y, X < size -> Y < size ->
          (forall x y, x < w -> y < h -> (x * size / w, y * size / h) <> (X, Y)) ->
          Matrix_get output X Y = Ok 0%Z).
Proof. apply make_square_rounded. Qed.

Lemma make_square_stretches_witness :
  exists output,
    make_square (grid 2 1 (fun x _ => Z.of_N x + 7)%Z) = Ok output
    /\ width output = 2 /\ height output = 2 /\ complete output
    /\ (forall x y, x < 2 -> y < 1 ->
          Matrix_get output (x * 2 / 2) (y * 2 / 1)
          = Matrix_get (grid 2 1 (fun x _ => Z.of_N x + 7)%Z) x y)
    /\ (forall X Y, X < 2 -> Y < 2 ->
          (forall x y, x < 2 -> y < 1 -> (x * 2 / 2, y * 2 / 1) <> (X, Y)) ->
          Matrix_get output X Y = Ok 0%Z).
Proof.
  apply (make_square_stretches (grid 2 1 (fun x _ => Z.of_N x + 7)%Z)).
  - split; vm_compute; reflexivity.
  - reflexivity.
  - reflexivity.
  - reflexivity.
  - reflexivity.
  - vm_compute. reflexivity.
Defined.

(** A complete square matrix whose side is a power of two is returned as it
    is. *)
Lemma make_square_square (input : Matrix) (e : N) :
  complete input -> e <= 31 ->
  get_width input = 2 ^ e -> get_height input = 2 ^ e ->
  make_square input = Ok input.
Proof.
  intros Hc He Hw Hh.
  assert (Hpos : 0 < 2 ^ e) by (apply N.neq_0_lt_0, N.pow_nonzero; lia).
  assert (Hfit : 2 ^ e * 2 ^ e < 2 ^ size_t_bits).
  { rewrite <- N.pow_add_r. apply N.pow_lt_mono_r; [lia | ]. unfold size_t_bits. lia. }
  destruct (make_square_rounded input) as [output [E [Hwo [Hho [Hco [Hcopied _]]]]]].
  - exact Hc.
  - rewrite Hw. exact Hpos.
  - rewrite Hh. exact Hpos.
  - rewrite Hw. apply next_greater_power_of_2_fixed. lia.
  - rewrite Hh. apply next_greater_power_of_2_fixed. lia.
  - rewrite Hw, Hh, N.max_id. exact Hfit.
  - rewrite E. f_equal.
    rewrite Hw, Hh, N.max_id in Hwo, Hho, Hcopied.
    unfold get_width, get_height in Hw, Hh.
    apply complete_ext; try assumption; try congruence.
    intros x y Hx Hy. rewrite Hw in Hx. rewrite Hh in Hy.
    specialize (Hcopied x y Hx Hy). rewrite !N.div_mul in Hcopied by lia. exact Hcopied.
Qed.

(** X4: [make_square] is idempotent on complete matrices whose dimensions
    are powers of two up to 2^31: what it returns it returns again; and a
    matrix that is square already is returned as it is. *)
Theorem make_square_idempotent (input : Matrix) (a b : N) :
  complete input -> a <= 31 -> b <= 31 ->
  get_width input = 2 ^ a -> get_height input = 2 ^ b ->
  exists output,
    make_square input = Ok output
    /\ make_square output = Ok output
    /\ (a = b -> output = input).
Proof.
  intros Hc Ha Hb Hw Hh.
  assert (Hmax : N.max (2 ^ a) (2 ^ b) = 2 ^ N.max a b).
  { destruct (N.le_ge_cases a b) as [Hab | Hab].
    - rewrite (N.max_r a b) by exact Hab. apply N.max_r. apply N.pow_le_mono_r; lia.
    - rewrite (N.max_l a b) by exact Hab. apply N.max_l. apply N.pow_le_mono_r; lia. }
  assert (Hfit : 2 ^ N.max a b * 2 ^ N.max a b < 2 ^ size_t_bits).
  { rewrite <- N.pow_add_r. apply N.pow_lt_mono_r; [lia | ]. unfold size_t_bits. lia. }
  destruct (make_square_rounded input) as [output [E [Hwo [Hho [Hco _]]]]].
  - exact Hc.
  - rewrite Hw. apply N.neq_0_lt_0, N.pow_nonzero. lia.
  - rewrite Hh. apply N.neq_0_lt_0, N.pow_nonzero. lia.
  - rewrite Hw. apply next_greater_power_of_2_fixed. lia.
  - rewrite Hh. apply next_greater_power_of_2_fixed. lia.
  - rewrite Hw, Hh, Hmax. exact Hfit.
  - exists output. rewrite Hw, Hh, Hmax in Hwo, Hho.
    split; [exact E | ]. split.
    + apply (make_square_square output (N.max a b)); (assumption || lia).
    + intros ->. rewrite (make_square_square input b) in E by assumption.
      injection E as <-. reflexivity.
Qed.

Lemma make_square_idempotent_witness :
  exists output,
    make_square (grid 2 4 dots) = Ok output
    /\ make_square output = Ok output
    /\ (1 = 2 -> output = grid 2 4 dots).
Proof.
  apply (make_square_idempotent (grid 2 4 dots) 1 2).
  - split; vm_compute; reflexivity.
  - vm_compute. discriminate.
  - vm_compute. discriminate.
  - reflexivity.
  - reflexivity.
Defined.

(** X5: on a complete matrix with dimensions from 1 to 2^31, [make_square]
    returns a matrix exactly when both dimensions are powers of two; when
    one is not, the loops read past the end of the buffer. *)
Theorem make_square_returns_iff (input : Matrix) :
  complete input ->
  1 <= get_width input <= 2 ^ 31 ->
  1 <= get_height input <= 2 ^ 31 ->
  ((exists output, make_square input = Ok output)
   <-> (exists a b, get_width input = 2 ^ a /\ get_height input = 2 ^ b))
  /\ ((exists output, make_square input = Ok output)
      \/ make_square input = Err out_of_bounds).
Proof.
  intros Hc Hw Hh.
  assert (H31 : 2 ^ 31 < 2 ^ 32) by (vm_compute; reflexivity).
  destruct (next_greater_power_of_2_larger (get_width input)) as [Hwle Hwiff]; [lia | ].
  destruct (next_greater_power_of_2_larger (get_height input)) as [Hhle Hhiff]; [lia | ].
  assert (Hcases :
    (next_greater_power_of_2 (get_width input) = get_width input
     /\ next_greater_power_of_2 (get_height input) = get_height input)
    \/ get_width input < next_greater_power_of_2 (get_width input)
    \/ get_height input < next_greater_power_of_2 (get_height input)) by lia.
  assert (Hbad :
    get_width input < next_greater_power_of_2 (get_width input)
    \/ get_height input < next_greater_power_of_2 (get_height input) ->
    make_square input = Err out_of_bounds).
  { intros Hlt.
    destruct (next_greater_power_of_2_spec (get_width input)) as [a [Ea [_ Hmina]]]; [lia | ].
    destruct (next_greater_power_of_2_spec (get_height input)) as [b [Eb [_ Hminb]]]; [lia | ].
    assert (Hwr : next_greater_power_of_2 (get_width input) <= 2 ^ 31)
      by (rewrite Ea; apply (Hmina 31); lia).
    assert (Hhr : next_greater_power_of_2 (get_height input) <= 2 ^ 31)
      by (rewrite Eb; apply (Hminb 31); lia).
    assert (Hsq : 2 ^ 31 * 2 ^ 31 < 2 ^ size_t_bits) by (vm_compute; reflexivity).
    destruct Hc as [_ Hlen]. unfold get_width, get_height in *.
    apply make_square_out_of_bounds; unfold get_width, get_height; try lia; nia. }
  assert (Hgood :
    next_greater_power_of_2 (get_width input) = get_width input ->
    next_greater_power_of_2 (get_height input) = get_height input ->
    exists output, make_square input = Ok output).
  { intros Ew Eh.
    destruct (make_square_rounded input) as [output [E _]]; try assumption; try lia.
    - assert (N.max (get_width input) (get_height input) <= 2 ^ 31) by lia.
      assert (Hsq : 2 ^ 31 * 2 ^ 31 < 2 ^ size_t_bits) by (vm_compute; reflexivity).
      nia.
    - exists output. exact E. }
  split; [split | ].
  - intros [output E]. destruct Hcases as [[Ew Eh] | Hlt].
    + apply Hwiff in Ew. apply Hhiff in Eh.
      destruct Ew as [a Ea], Eh as [b Eb]. exists a, b. auto.
    + rewrite (Hbad Hlt) in E. discriminate E.
  - intros [a [b [Ea Eb]]]. apply Hgood.
    + apply Hwiff. exists a. exact Ea.
    + apply Hhiff. exists b. exact Eb.
  - destruct Hcases as [[Ew Eh] | Hlt]; [left; apply Hgood; assumption | right; apply Hbad; exact Hlt].
Qed.

Lemma make_square_returns_iff_witness :
  ((exists output, make_square (grid 3 2 dots) = Ok output)
   <-> (exists a b, get_width (grid 3 2 dots) = 2 ^ a /\ get_height (grid 3 2 dots) = 2 ^ b))
  /\ ((exists output, make_square (grid 3 2 dots) = Ok output)
      \/ make_square (grid 3 2 dots) = Err out_of_bounds).
Proof.
  apply (make_square_returns_iff (grid 3 2 dots)).
  - split; vm_compute; reflexivity.
  - split; vm_compute; discriminate.
  - split; vm_compute; discriminate.
Defined.

(** ** Filling [pixels] *)

Lemma copy_pixels_same (image : Matrix) :
  complete image ->
  get_width image < 2 ^ size_t_bits -> get_height image < 2 ^ size_t_bits ->
  copy_pixels image = Ok image.
Proof.
  intros Hc Hw Hh. pose proof Hc as [Hfit _].
  destruct (copy_cells image (get_width image) (get_height image)
              (fun x => x) (fun y => y)
              (Matrix_new (get_width image) (get_height image)))
    as [output [E [[Hwo [Hho Hco]] [Hcopied _]]]]; try assumption.
  - intros x y Hx Hy. apply Matrix_get_inside; assumption.
  - intros x Hx. exact Hx.
  - intros y Hy. exact Hy.
  - intros x x' _ _ H. exact H.
  - intros y y' _ _ H. exact H.
  - apply Matrix_new_complete. exact Hfit.
  - unfold copy_pixels. rewrite E. f_equal.
    apply complete_ext; assumption.
Qed.

(** X6: the two loops of [main] that fill [pixels] from the decoded image
    return the image itself, for every complete image. *)
Theorem copy_pixels_faithful (image : Matrix) :
  complete image ->
  get_width image < 2 ^ size_t_bits -> get_height image < 2 ^ size_t_bits ->
  copy_pixels image = Ok image.
Proof. apply copy_pixels_same. Qed.

Lemma copy_pixels_faithful_witness :
  copy_pixels (grid 3 2 dots) = Ok (grid 3 2 dots).
Proof.
  apply (copy_pixels_faithful (grid 3 2 dots)).
  - split; vm_compute; reflexivity.
  - vm_compute. reflexivity.
  - vm_compute. reflexivity.
Defined.

(** ** Construction, when it goes through *)

(** [init] reads inside the region it is given, or at its origin when the
    region is empty: on a complete matrix that holds the region it returns
    a tree. *)
Lemma init_rec_inside (mcs : N) (m : Matrix) (fuel : nat) :
  forall x y size,
  complete m ->
  x + N.max size 1 <= width m -> y + N.max size 1 <= height m ->
  exists t, init_rec mcs m fuel x y size = Ok t.
Proof.
  assert (Hleaf : forall x y size, complete m ->
    x + N.max size 1 <= width m -> y + N.max size 1 <= height m ->
    exists t, init_leaf m x y = Ok t).
  { intros x y size Hc Hx Hy. unfold init_leaf.
    destruct (Matrix_get_inside m x y Hc) as [v ->]; [lia | lia | ].
    eexists. reflexivity. }
  induction fuel as [ | fuel IH]; intros x y size Hc Hx Hy; cbn [init_rec].
  - apply (Hleaf x y size); assumption.
  - destruct (N.leb_spec size mcs) as [Hle | Hgt]; [apply (Hleaf x y size); assumption | ].
    cbv zeta.
    assert (Hhalf : 2 * (size / 2) <= size) by (apply N.Div0.mul_div_le).
    assert (Hwfit : width m < 2 ^ size_t_bits) by (destruct Hc as [Hfit _]; nia).
    assert (Hhfit : height m < 2 ^ size_t_bits) by (destruct Hc as [Hfit _]; nia).
    rewrite (wrap_small (x + size / 2)), (wrap_small (y + size / 2)) by lia.
    destruct (IH x y (size / 2)) as [t0 ->]; [assumption | lia | lia | ].
    destruct (IH (x + size / 2) y (size / 2)) as [t1 ->]; [assumption | lia | lia | ].
    destruct (IH x (y + size / 2) (size / 2)) as [t2 ->]; [assumption | lia | lia | ].
    destruct (IH (x + size / 2) (y + size / 2) (size / 2)) as [t3 ->];
      [assumption | lia | lia | ].
    eexists. reflexivity.
Qed.

Lemma QuadTree_new_complete (mcs : N) (m : Matrix) :
  complete m ->
  1 <= get_width m <= get_height m ->
  exists t,
    QuadTree_new mcs m = Ok t
    /\ well_formed t = true
    /\ leaves_childless t = true
    /\ (type t = SPLIT_TREE <-> mcs < get_width m).
Proof.
  intros Hc Hw. unfold get_width, get_height in Hw.
  destruct (init_rec_inside mcs m (N.to_nat (get_width m)) 0 0 (get_width m) Hc)
    as [t E]; unfold get_width; try lia.
  exists t. split; [exact E | ].
  pose proof (QuadTree_new_fresh mcs m t E) as Hfresh.
  split; [apply fresh_well_formed; exact Hfresh | ].
  split; [apply fresh_leaves_childless; exact Hfresh | ].
  unfold QuadTree_new in E. fold (init mcs m 0 0 (get_width m)) in E.
  rewrite init_eq in E. unfold get_width in E.
  destruct (N.leb_spec (width m) mcs) as [Hle | Hgt].
  - unfold init_leaf in E. bind_inv E v Ev. injection E as <-. cbn [type].
    split; [ | lia]. intros H. pose proof (classify_is_leaf v) as Hl.
    rewrite H in Hl. discriminate Hl.
  - cbv zeta in E. bind_inv E c0 E0. bind_inv E c1 E1. bind_inv E c2 E2. bind_inv E c3 E3.
    injection E as <-. cbn [type]. split; [intros _; exact Hgt | reflexivity].
Qed.

(** X7: on a complete matrix that has at least as many rows as columns, and
    at least one column, the constructor reads no sample outside the buffer
    and returns a tree, whatever the cell size: a tree with neither
    undefined nodes nor children below leaves, whose root is a split exactly
    when the width exceeds the cell size. *)
Theorem QuadTree_new_inside (mcs : N) (m : Matrix) :
  complete m ->
  1 <= get_width m <= get_height m ->
  exists t,
    QuadTree_new mcs m = Ok t
    /\ well_formed t = true
    /\ leaves_childless t = true
    /\ (type t = SPLIT_TREE <-> mcs < get_width m).
Proof. apply QuadTree_new_complete. Qed.

Lemma QuadTree_new_inside_witness :
  exists t,
    QuadTree_new 1 (grid 4 4 dots) = Ok t
    /\ well_formed t = true
    /\ leaves_childless t = true
    /\ (type t = SPLIT_TREE <-> 1 < get_width (grid 4 4 dots)).
Proof.
  apply (QuadTree_new_inside 1 (grid 4 4 dots)).
  - split; vm_compute; reflexivity.
  - split; vm_compute; discriminate.
Defined.

(** The tree of a region of side [2^c * 2^k], when the cell size is from
    [2^c] to below [2^(c+1)]: [k] levels of splits, [4^k] leaves. *)
Lemma init_size (mcs : N) (m : Matrix) (c : N) (k : nat) :
  forall x y,
  complete m ->
  2 ^ c <= mcs < 2 ^ (c + 1) ->
  x + 2 ^ c * 2 ^ N.of_nat k <= width m ->
  y + 2 ^ c * 2 ^ N.of_nat k <= height m ->
  exists t,
    init mcs m x y (2 ^ c * 2 ^ N.of_nat k) = Ok t
    /\ fresh t = true
    /\ unbounded_size t = 2 * 4 ^ N.of_nat k.
Proof.
  induction k as [ | k IH]; intros x y Hc Hmcs Hx Hy; rewrite init_eq.
  - change (2 ^ N.of_nat 0) with 1 in *. rewrite N.mul_1_r in *.
    assert (Hpos : 0 < 2 ^ c) by (apply N.neq_0_lt_0, N.pow_nonzero; lia).
    destruct (N.leb_spec (2 ^ c) mcs) as [_ | Hgt]; [ | lia].
    unfold init_leaf.
    destruct (Matrix_get_inside m x y Hc) as [v ->]; [lia | lia | ]. cbn [bind].
    eexists. split; [reflexivity | ].
    split; [cbn [fresh]; apply classify_is_leaf | ].
    rewrite unbounded_size_eq.
    pose proof (classify_is_leaf v) as Hl.
    destruct (classify v); try discriminate Hl; reflexivity.
  - assert (Hmcs' : mcs < 2 * 2 ^ c).
    { destruct Hmcs as [_ H]. rewrite N.add_1_r, N.pow_succ_r' in H. exact H. }
    rewrite Nat2N.inj_succ, N.pow_succ_r' in Hx, Hy |- *.
    assert (Hpos : 0 < 2 ^ c * 2 ^ N.of_nat k).
    { apply N.mul_pos_pos; apply N.neq_0_lt_0, N.pow_nonzero; lia. }
    assert (Hbig : mcs < 2 ^ c * (2 * 2 ^ N.of_nat k)).
    { assert (0 < 2 ^ N.of_nat k) by (apply N.neq_0_lt_0, N.pow_nonzero; lia). nia. }
    destruct (N.leb_spec (2 ^ c * (2 * 2 ^ N.of_nat k)) mcs) as [Hle | _]; [lia | ].
    replace (2 ^ c * (2 * 2 ^ N.of_nat k) / 2) with (2 ^ c * 2 ^ N.of_nat k)
      by (apply N.div_unique_exact; lia).
    cbv zeta.
    assert (Hwfit : width m < 2 ^ size_t_bits) by (destruct Hc as [Hfit _]; nia).
    assert (Hhfit : height m < 2 ^ size_t_bits) by (destruct Hc as [Hfit _]; nia).
    rewrite (wrap_small (x + _)), (wrap_small (y + _)) by lia.
    destruct (IH x y) as [t0 [-> [F0 S0]]]; [assumption | assumption | lia | lia | ].
    destruct (IH (x + 2 ^ c * 2 ^ N.of_nat k) y) as [t1 [-> [F1 S1]]];
      [assumption | assumption | lia | lia | ].
    destruct (IH x (y + 2 ^ c * 2 ^ N.of_nat k)) as [t2 [-> [F2 S2]]];
      [assumption | assumption | lia | lia | ].
    destruct (IH (x + 2 ^ c * 2 ^ N.of_nat k) (y + 2 ^ c * 2 ^ N.of_nat k))
      as [t3 [-> [F3 S3]]]; [assumption | assumption | lia | lia | ].
    cbn [bind]. eexists. split; [reflexivity | ].
    split; [cbn [fresh]; rewrite F0, F1, F2, F3; reflexivity | ].
    rewrite unbounded_size_eq. cbn [size_behind].
    change (Type_eqb SPLIT_TREE SPLIT_TREE) with true. cbv iota.
    rewrite S0, S1, S2, S3, ?Nat2N.inj_succ, ?N.pow_succ_r'. lia.
Qed.

(** X8: on a complete matrix of width [2^(c+k)], with at least as many
    rows, and a cell size from [2^c] to below [2^(c+1)], the constructor
    builds a tree of encoded size [2 * 4^k]: [k] halvings reach the cell
    size, and every leaf counts for 2. *)
Theorem QuadTree_new_size (mcs : N) (m : Matrix) (c : N) (k : nat) :
  complete m ->
  2 ^ c <= mcs < 2 ^ (c + 1) ->
  get_width m = 2 ^ c * 2 ^ N.of_nat k ->
  get_width m <= get_height m ->
  exists t,
    QuadTree_new mcs m = Ok t /\ encoded_size t = Ok (2 * 4 ^ N.of_nat k).
Proof.
  intros Hc Hmcs Hw Hh. unfold get_width, get_height in *.
  destruct (init_size mcs m c k 0 0 Hc Hmcs) as [t [E [Hfresh Hsize]]]; try lia.
  exists t. unfold QuadTree_new, get_width. rewrite Hw. split; [exact E | ].
  rewrite <- Hsize. apply encoded_size_unbounded.
  - apply fresh_well_formed. exact Hfresh.
  - rewrite Hsize.
    assert (Hk : 2 ^ N.of_nat k <= width m).
    { rewrite Hw. assert (0 < 2 ^ c) by (apply N.neq_0_lt_0, N.pow_nonzero; lia). nia. }
    assert (Hsq : 2 ^ N.of_nat k * 2 ^ N.of_nat k < 2 ^ size_t_bits)
      by (destruct Hc as [Hfit _]; nia).
    rewrite <- N.pow_add_r in Hsq.
    apply N.pow_lt_mono_r_iff in Hsq; [ | lia].
    change 4 with (2 ^ 2). rewrite <- N.pow_mul_r.
    change 2 with (2 ^ 1) at 1. rewrite <- N.pow_add_r.
    apply N.pow_lt_mono_r; [lia | ]. unfold size_t_bits in *. lia.
Qed.

Lemma QuadTree_new_size_witness :
  exists t,
    QuadTree_new 3 (grid 8 8 dots) = Ok t /\ encoded_size t = Ok (2 * 4 ^ N.of_nat 2).
Proof.
  apply (QuadTree_new_size 3 (grid 8 8 dots) 1 2).
  - split; vm_compute; reflexivity.
  - split; vm_compute; (reflexivity || discriminate).
  - reflexivity.
  - vm_compute. discriminate.
Defined.

(** ** Lossless merging, further *)

Lemma Type_eqb_eq (a b : Type_) : Type_eqb a b = true <-> a = b.
Proof. destruct a, b; split; intros H; (reflexivity || discriminate H). Qed.

(** What sorting and removing repetitions decide in [merge_leaves]. *)
Lemma merged_node_cases (c0 c1 c2 c3 : QuadTree) :
  merged_node c0 c1 c2 c3 =
  Node (if uniform c0 c1 c2 c3 then type c0 else SPLIT_TREE)
    (Some c0) (Some c1) (Some c2) (Some c3).
Proof.
  unfold merged_node, uniform.
  destruct (type c0), (type c1), (type c2), (type c3); reflexivity.
Qed.

Lemma uniform_spec (c0 c1 c2 c3 : QuadTree) :
  uniform c0 c1 c2 c3 = true <->
  type c0 = type c1 /\ type c1 = type c2 /\ type c2 = type c3
  /\ type c0 <> SPLIT_TREE.
Proof.
  unfold uniform. rewrite !andb_true_iff, !Type_eqb_eq, negb_true_iff.
  split.
  - intros [[[E1 E2] E3] Hns]. repeat split; try assumption.
    intros E. rewrite E in Hns. discriminate Hns.
  - intros [E1 [E2 [E3 Hns]]]. repeat split; try assumption.
    destruct (type c0); try reflexivity. contradiction Hns. reflexivity.
Qed.

Lemma merge_leaves_node (t0 t1 t2 t3 t0' t1' t2' t3' : QuadTree) :
  merge_leaves t0 = Ok t0' -> merge_leaves t1 = Ok t1' ->
  merge_leaves t2 = Ok t2' -> merge_leaves t3 = Ok t3' ->
  merge_leaves (Node SPLIT_TREE (Some t0) (Some t1) (Some t2) (Some t3))
  = Ok (Node (if uniform t0' t1' t2' t3' then type t0' else SPLIT_TREE)
          (Some t0') (Some t1') (Some t2') (Some t3')).
Proof.
  intros H0 H1 H2 H3.
  rewrite <- merged_node_cases.
  cbn [merge_leaves deref]. rewrite H0, H1, H2, H3. cbn [bind].
  unfold merged_node.
  destruct (unique _) as [ | ty [ | ty' l]]; try reflexivity.
  destruct (Type_eqb ty SPLIT_TREE); reflexivity.
Qed.

(** X9: [merge_leaves] turns a split node into a leaf exactly when its four
    children, once merged themselves, have one and the same type other than
    split, and that type becomes the node's; in every case the node keeps
    its four merged children. *)
Theorem merge_leaves_collapses (t0 t1 t2 t3 t0' t1' t2' t3' : QuadTree) :
  merge_leaves t0 = Ok t0' -> merge_leaves t1 = Ok t1' ->
  merge_leaves t2 = Ok t2' -> merge_leaves t3 = Ok t3' ->
  merge_leaves (Node SPLIT_TREE (Some t0) (Some t1) (Some t2) (Some t3))
  = Ok (Node (if uniform t0' t1' t2' t3' then type t0' else SPLIT_TREE)
          (Some t0') (Some t1') (Some t2') (Some t3'))
  /\ (uniform t0' t1' t2' t3' = true <->
      type t0' = type t1' /\ type t1' = type t2' /\ type t2' = type t3'
      /\ type t0' <> SPLIT_TREE).
Proof.
  intros H0 H1 H2 H3. split.
  - apply merge_leaves_node; assumption.
  - apply uniform_spec.
Qed.

Lemma merge_leaves_collapses_witness :
  merge_leaves (Node SPLIT_TREE (Some (dots_tree 0)) (Some (dots_tree 0))
                  (Some (dots_tree 0)) (Some (dots_tree 1)))
  = Ok (Node (if uniform (dots_tree 0) (dots_tree 0) (dots_tree 0) (dots_tree 1)
              then type (dots_tree 0) else SPLIT_TREE)
          (Some (dots_tree 0)) (Some (dots_tree 0)) (Some (dots_tree 0))
          (Some (dots_tree 1)))
  /\ (uniform (dots_tree 0) (dots_tree 0) (dots_tree 0) (dots_tree 1) = true <->
      type (dots_tree 0) = type (dots_tree 0) /\ type (dots_tree 0) = type (dots_tree 0)
      /\ type (dots_tree 0) = type (dots_tree 1) /\ type (dots_tree 0) <> SPLIT_TREE).
Proof.
  apply (merge_leaves_collapses (dots_tree 0) (dots_tree 0) (dots_tree 0) (dots_tree 1));
    reflexivity.
Defined.

(** What [merge_leaves] returns is compact. *)
Lemma merge_leaves_compact (t : QuadTree) :
  forall t', merge_leaves t = Ok t' -> compact t' = true.
Proof.
  induction t as [ty c0 c1 c2 c3 IH0 IH1 IH2 IH3] using QuadTree_induction.
  intros t' H.
  destruct (Type_eqb ty SPLIT_TREE) eqn:Hty.
  - destruct ty; try discriminate Hty.
    apply merge_leaves_split in H.
    destruct H as [t0 [t1 [t2 [t3 [t0' [t1' [t2' [t3' H]]]]]]]].
    destruct H as [-> [-> [-> [-> [H0 [H1 [H2 [H3 ->]]]]]]]].
    cbn [behind] in *.
    rewrite merged_node_cases.
    destruct (uniform t0' t1' t2' t3') eqn:U.
    + apply uniform_spec in U. destruct U as [_ [_ [_ Hns]]].
      destruct (type t0'); try reflexivity. contradiction Hns. reflexivity.
    + cbn [compact]. rewrite U, (IH0 _ H0), (IH1 _ H1), (IH2 _ H2), (IH3 _ H3).
      reflexivity.
  - rewrite merge_leaves_other in H by exact Hty. injection H as <-.
    destruct ty; try discriminate Hty; reflexivity.
Qed.

(** On a well-formed tree it returns a well-formed tree that is no larger
    and has the same mean type. *)
Lemma merge_leaves_keeps (t : QuadTree) :
  forall t', well_formed t = true -> merge_leaves t = Ok t' ->
  well_formed t' = true
  /\ mean_type t' = mean_type t
  /\ unbounded_size t' <= unbounded_size t.
Proof.
  induction t as [ty c0 c1 c2 c3 IH0 IH1 IH2 IH3] using QuadTree_induction.
  intros t' Hwf H.
  destruct (Type_eqb ty SPLIT_TREE) eqn:Hty.
  - destruct ty; try discriminate Hty.
    pose proof (unbounded_size_min _ Hwf) as Hmin.
    apply merge_leaves_split in H.
    destruct H as [t0 [t1 [t2 [t3 [t0' [t1' [t2' [t3' H]]]]]]]].
    destruct H as [-> [-> [-> [-> [H0 [H1 [H2 [H3 ->]]]]]]]].
    cbn [behind] in *.
    apply well_formed_children in Hwf. cbn [through] in Hwf.
    destruct Hwf as [W0 [W1 [W2 W3]]].
    destruct (IH0 _ W0 H0) as [W0' [M0 S0]]. destruct (IH1 _ W1 H1) as [W1' [M1 S1]].
    destruct (IH2 _ W2 H2) as [W2' [M2 S2]]. destruct (IH3 _ W3 H3) as [W3' [M3 S3]].
    rewrite merged_node_cases.
    rewrite unbounded_size_eq in Hmin. rewrite !unbounded_size_eq.
    cbn [size_behind] in Hmin |- *.
    change (Type_eqb SPLIT_TREE SPLIT_TREE) with true in Hmin |- *.
    cbv iota in Hmin |- *.
    cbn [mean_type deref]. rewrite <- M0, <- M1, <- M2, <- M3.
    destruct (uniform t0' t1' t2' t3') eqn:U.
    + apply uniform_spec in U. destruct U as [E1 [E2 [E3 Hns]]].
      pose proof (well_formed_type _ W0') as Hnu.
      assert (Hm : forall t, well_formed t = true -> type t = type t0' ->
                             mean_type t = Ok (type t0')).
      { intros t Wt Et. destruct t as [ty' ? ? ? ?]. cbn [type] in Et. subst ty'.
        destruct (type t0'); try discriminate Hnu; try reflexivity;
          contradiction Hns; reflexivity. }
      rewrite (Hm t0' W0' eq_refl), (Hm t1' W1'), (Hm t2' W2'), (Hm t3' W3') by congruence.
      cbn [bind].
      split; [ | split].
      * cbn [well_formed through is_null orb negb]. rewrite W0', W1', W2', W3'.
        destruct (type t0'); try discriminate Hnu; try reflexivity;
          contradiction Hns; reflexivity.
      * destruct (type t0'); try discriminate Hnu; try reflexivity;
          contradiction Hns; reflexivity.
      * destruct (Type_eqb (type t0') SPLIT_TREE); lia.
    + change (Type_eqb SPLIT_TREE SPLIT_TREE) with true. cbv iota.
      split; [ | split; [reflexivity | lia]].
      cbn [well_formed through is_null orb negb]. rewrite W0', W1', W2', W3'. reflexivity.
  - rewrite merge_leaves_other in H by exact Hty. injection H as <-.
    split; [exact Hwf | ]. split; [reflexivity | lia].
Qed.

(** X10: on a well-formed tree [merge_leaves] returns a well-formed tree with
    the same pointer structure, in which no split node is left with four
    children of one leaf type; the mean type is the same as before and the
    size is no larger. *)
Theorem merge_leaves_result (t : QuadTree) :
  well_formed t = true ->
  exists t',
    merge_leaves t = Ok t'
    /\ well_formed t' = true
    /\ compact t' = true
    /\ erase t' = erase t
    /\ mean_type t' = mean_type t
    /\ unbounded_size t' <= unbounded_size t.
Proof.
  intros Hwf. destruct (merge_leaves_total t Hwf) as [t' E].
  destruct (merge_leaves_keeps t t' Hwf E) as [Hwf' [Hmean Hsize]].
  exists t'. split; [exact E | ]. split; [exact Hwf' | ].
  split; [apply (merge_leaves_compact t); exact E | ].
  split; [apply merge_leaves_erase; exact E | ]. split; assumption.
Qed.

Lemma merge_leaves_result_witness :
  exists t',
    merge_leaves (dots_tree 2) = Ok t'
    /\ well_formed t' = true
    /\ compact t' = true
    /\ erase t' = erase (dots_tree 2)
    /\ mean_type t' = mean_type (dots_tree 2)
    /\ unbounded_size t' <= unbounded_size (dots_tree 2).
Proof.
  apply (merge_leaves_result (dots_tree 2)).
  reflexivity.
Defined.

(** ** Leaves *)

Lemma parent_cons (i j : nat) (q : path) : parent (i :: j :: q) = i :: parent (j :: q).
Proof. reflexivity. Qed.

Lemma node_at_cons (t c : QuadTree) (i : nat) (q : path) :
  child t i = Some c -> node_at t (i :: q) = node_at c q.
Proof. intros H. cbn [node_at]. rewrite H. reflexivity. Qed.

(** A leaf listed below a split child is a leaf listed below the node. *)
Lemma listed_leaf_below (t c : QuadTree) (i : nat) (q : path) :
  child t i = Some c -> type c = SPLIT_TREE ->
  listed_leaf c q -> listed_leaf t (i :: q).
Proof.
  intros Hc Hty [Hs [[ty [Hat Hleaf]] Hparent]].
  unfold has_sibblings in Hs.
  destruct q as [ | j q]; [discriminate Hs | ].
  unfold listed_leaf, has_sibblings, type_at in *.
  rewrite parent_cons, !(node_at_cons t c i) by exact Hc.
  split; [exact Hs | ]. split; [exists ty; auto | ].
  right. destruct Hparent as [Hp | Hp]; [ | exact Hp].
  rewrite Hp. cbn [node_at option_map]. rewrite Hty. reflexivity.
Qed.

Lemma listed_leaf_child (t c : QuadTree) (i : nat) :
  full_node t = true -> child t i = Some c -> is_leaf_type (type c) = true ->
  listed_leaf t [i].
Proof.
  intros Hfull Hc Hleaf. unfold listed_leaf, has_sibblings, type_at.
  change (parent [i]) with (@nil nat).
  rewrite (node_at_cons t c i) by exact Hc. cbn [node_at List.length Nat.eqb negb andb].
  rewrite Hfull. split; [reflexivity | ]. split; [ | left; reflexivity].
  exists (type c). auto.
Qed.

(** One child visited by [get_leaves]: the child is there, and the leaves
    added are [k] leaves listed below the node, where [2 * k] is the size of
    the child. *)
Lemma visit_child_listed (t : QuadTree) (i : nat) (c : option QuadTree) :
  full_node t = true -> child t i = c ->
  behind (fun c => forall this acc acc',
            get_leaves_into c this acc = Ok acc' ->
            full_node c = true
            /\ exists ls, acc' = acc ++ map (app this) ls
                 /\ Forall (listed_leaf c) ls
                 /\ (type c = SPLIT_TREE ->
                     unbounded_size c = 2 * N.of_nat (List.length ls))) c ->
  forall this acc acc',
  visit_child get_leaves_into this i c acc = Ok acc' ->
  exists ls, acc' = acc ++ map (app this) ls
    /\ Forall (listed_leaf t) ls
    /\ size_behind unbounded_size c = 2 * N.of_nat (List.length ls).
Proof.
  intros Hfull Hc IH this acc acc' H. unfold visit_child in H.
  apply deref_Ok in H. destruct H as [ch [-> H]]. cbn [behind size_behind] in *.
  destruct (type ch) eqn:Hty; try discriminate H.
  1-3: injection H as <-; exists [[i]]; cbn [map List.length];
    (split; [reflexivity | ]);
    (split; [constructor; [ | constructor];
             apply (listed_leaf_child t ch); try assumption; rewrite Hty; reflexivity | ]);
    destruct ch as [ty ? ? ? ?]; cbn [type] in Hty; subst ty; reflexivity.
  destruct (IH _ _ _ H) as [_ [ls [-> [Hall Hsize]]]].
  exists (map (cons i) ls). rewrite map_map, length_map.
  split; [f_equal; apply map_ext; intros q; rewrite <- app_assoc; reflexivity | ].
  split; [ | apply Hsize; reflexivity].
  rewrite Forall_forall in *. intros q Hq. apply in_map_iff in Hq.
  destruct Hq as [q' [<- Hq']]. apply (listed_leaf_below t ch); auto.
Qed.

Lemma get_leaves_into_listed (t : QuadTree) :
  forall this acc acc',
  get_leaves_into t this acc = Ok acc' ->
  full_node t = true
  /\ exists ls, acc' = acc ++ map (app this) ls
       /\ Forall (listed_leaf t) ls
       /\ (type t = SPLIT_TREE -> unbounded_size t = 2 * N.of_nat (List.length ls)).
Proof.
  induction t as [ty c0 c1 c2 c3 IH0 IH1 IH2 IH3] using QuadTree_induction.
  intros this acc acc' H. cbn [get_leaves_into] in H.
  assert (Hfull : full_node (Node ty c0 c1 c2 c3) = true).
  { bind_inv H a0 H0. bind_inv H a1 H1. bind_inv H a2 H2.
    unfold visit_child in *.
    apply deref_Ok in H0, H1, H2, H. destruct H0 as [? [-> _]], H1 as [? [-> _]].
    destruct H2 as [? [-> _]], H as [? [-> _]]. reflexivity. }
  split; [exact Hfull | ].
  bind_inv H a0 H0. bind_inv H a1 H1. bind_inv H a2 H2.
  apply (visit_child_listed (Node ty c0 c1 c2 c3) 0 c0 Hfull eq_refl IH0) in H0.
  apply (visit_child_listed (Node ty c0 c1 c2 c3) 1 c1 Hfull eq_refl IH1) in H1.
  apply (visit_child_listed (Node ty c0 c1 c2 c3) 2 c2 Hfull eq_refl IH2) in H2.
  apply (visit_child_listed (Node ty c0 c1 c2 c3) 3 c3 Hfull eq_refl IH3) in H.
  destruct H0 as [l0 [-> [F0 S0]]], H1 as [l1 [-> [F1 S1]]].
  destruct H2 as [l2 [-> [F2 S2]]], H as [l3 [-> [F3 S3]]].
  exists (l0 ++ l1 ++ l2 ++ l3).
  split; [rewrite !map_app, <- !app_assoc; reflexivity | ].
  split; [repeat (apply Forall_app; split); assumption | ].
  intros Hty. cbn [type] in Hty. subst ty. rewrite unbounded_size_eq.
  change (Type_eqb SPLIT_TREE SPLIT_TREE) with true. cbv iota.
  rewrite S0, S1, S2, S3, !length_app. lia.
Qed.

Lemma map_app_nil (ls : list path) : map (app []) ls = ls.
Proof.
  induction ls as [ | p ls IH]; [reflexivity | ].
  cbn [map]. rewrite IH. reflexivity.
Qed.

Lemma get_leaves_listed (t : QuadTree) (leaves : list path) :
  get_leaves t = Ok leaves ->
  full_node t = true
  /\ Forall (listed_leaf t) leaves
  /\ (type t = SPLIT_TREE -> unbounded_size t = 2 * N.of_nat (List.length leaves)).
Proof.
  unfold get_leaves. intros H. apply get_leaves_into_listed in H.
  destruct H as [Hfull [ls [E H]]]. rewrite app_nil_l, map_app_nil in E. subst ls.
  split; assumption.
Qed.

(** On a well-formed tree whose root has its four children the leaves can
    be listed. *)
Lemma get_leaves_into_total (t : QuadTree) :
  forall this acc,
  well_formed t = true -> full_node t = true ->
  exists acc', get_leaves_into t this acc = Ok acc'.
Proof.
  induction t as [ty c0 c1 c2 c3 IH0 IH1 IH2 IH3] using QuadTree_induction.
  intros this acc Hwf Hfull.
  assert (Hvisit : forall c i acc,
    behind (fun t => forall this acc, well_formed t = true -> full_node t = true ->
                     exists acc', get_leaves_into t this acc = Ok acc') c ->
    through well_formed c = true -> is_null c = false ->
    exists acc', visit_child get_leaves_into this i c acc = Ok acc').
  { intros c i acc0 IH Hc Hnull. destruct c as [ch | ]; [ | discriminate Hnull].
    cbn [behind through] in *. unfold visit_child. cbn [deref].
    pose proof (well_formed_type _ Hc) as Hnu.
    destruct (type ch) eqn:Hty; try discriminate Hnu; try (eexists; reflexivity).
    apply IH; [exact Hc | ].
    destruct ch as [ty' d0 d1 d2 d3]. cbn [type] in Hty. subst ty'.
    apply well_formed_split in Hc.
    destruct Hc as [? [? [? [? [-> [-> [-> [-> _]]]]]]]]. reflexivity. }
  apply well_formed_children in Hwf. destruct Hwf as [W0 [W1 [W2 W3]]].
  cbn [full_node] in Hfull. apply negb_true_iff in Hfull.
  apply orb_false_elim in Hfull. destruct Hfull as [Hfull N3].
  apply orb_false_elim in Hfull. destruct Hfull as [Hfull N2].
  apply orb_false_elim in Hfull. destruct Hfull as [N0 N1].
  cbn [get_leaves_into].
  destruct (Hvisit c0 0%nat acc IH0 W0 N0) as [a0 ->]. cbn [bind].
  destruct (Hvisit c1 1%nat a0 IH1 W1 N1) as [a1 ->]. cbn [bind].
  destruct (Hvisit c2 2%nat a1 IH2 W2 N2) as [a2 ->]. cbn [bind].
  apply (Hvisit c3 3%nat a2 IH3 W3 N3).
Qed.

Lemma below_splits_child (t : QuadTree) (i : nat) : below_splits t [i].
Proof.
  intros q r Hq Hr E. destruct q as [ | j q]; [contradiction Hq; reflexivity | ].
  destruct q as [ | k q]; [ | discriminate E].
  destruct r as [ | k r]; [contradiction Hr; reflexivity | discriminate E].
Qed.

Lemma below_splits_below (t c : QuadTree) (i : nat) (p : path) :
  child t i = Some c -> type c = SPLIT_TREE ->
  below_splits c p -> below_splits t (i :: p).
Proof.
  intros Hc Hty H q r Hq Hr E.
  destruct q as [ | j q]; [contradiction Hq; reflexivity | ].
  injection E as <- E. unfold type_at. rewrite (node_at_cons t c i) by exact Hc.
  destruct q as [ | k q].
  - cbn [node_at option_map]. rewrite Hty. reflexivity.
  - apply (H (k :: q) r); [discriminate | exact Hr | exact E].
Qed.

(** The leaves that [get_leaves] adds are reached through split nodes. *)
Lemma get_leaves_into_below (t : QuadTree) :
  forall this acc acc',
  get_leaves_into t this acc = Ok acc' ->
  exists ls, acc' = acc ++ map (app this) ls /\ Forall (below_splits t) ls.
Proof.
  induction t as [ty c0 c1 c2 c3 IH0 IH1 IH2 IH3] using QuadTree_induction.
  intros this acc acc' H. cbn [get_leaves_into] in H.
  assert (Hvisit : forall i c acc acc',
    child (Node ty c0 c1 c2 c3) i = c ->
    behind (fun c => forall this acc acc',
              get_leaves_into c this acc = Ok acc' ->
              exists ls, acc' = acc ++ map (app this) ls /\ Forall (below_splits c) ls) c ->
    visit_child get_leaves_into this i c acc = Ok acc' ->
    exists ls, acc' = acc ++ map (app this) ls
               /\ Forall (below_splits (Node ty c0 c1 c2 c3)) ls).
  { intros i c a a' Hc IH Hv. unfold visit_child in Hv.
    apply deref_Ok in Hv. destruct Hv as [ch [-> Hv]]. cbn [behind] in IH.
    destruct (type ch) eqn:Hty; try discriminate Hv.
    1-3: injection Hv as <-; exists [[i]]; (split; [reflexivity | ]);
      constructor; [apply below_splits_child | constructor].
    destruct (IH _ _ _ Hv) as [ls [-> Hall]].
    exists (map (cons i) ls). rewrite map_map.
    split; [f_equal; apply map_ext; intros q; rewrite <- app_assoc; reflexivity | ].
    rewrite Forall_forall in *. intros q Hq. apply in_map_iff in Hq.
    destruct Hq as [q' [<- Hq']].
    apply (below_splits_below _ ch); [exact Hc | exact Hty | apply Hall; exact Hq']. }
  bind_inv H a0 H0. bind_inv H a1 H1. bind_inv H a2 H2.
  apply (Hvisit 0%nat c0 _ _ eq_refl IH0) in H0.
  apply (Hvisit 1%nat c1 _ _ eq_refl IH1) in H1.
  apply (Hvisit 2%nat c2 _ _ eq_refl IH2) in H2.
  apply (Hvisit 3%nat c3 _ _ eq_refl IH3) in H.
  destruct H0 as [l0 [-> F0]], H1 as [l1 [-> F1]].
  destruct H2 as [l2 [-> F2]], H as [l3 [-> F3]].
  exists (l0 ++ l1 ++ l2 ++ l3).
  split; [rewrite !map_app, <- !app_assoc; reflexivity | ].
  repeat (apply Forall_app; split); assumption.
Qed.

(** X11: when [get_leaves] returns, the root has its four children, and
    every pointer listed designates a node of a leaf type that has a parent
    with four children, all the nodes between the root and that node being
    splits; and when the root is a split its encoded size is twice the
    number of leaves listed.  On a well-formed tree whose root has its four
    children [get_leaves] does return. *)
Theorem get_leaves_sound (t : QuadTree) :
  well_formed t = true -> full_node t = true ->
  exists leaves,
    get_leaves t = Ok leaves
    /\ Forall (listed_leaf t) leaves
    /\ Forall (below_splits t) leaves
    /\ (type t = SPLIT_TREE ->
        2 * N.of_nat (List.length leaves) < 2 ^ size_t_bits ->
        encoded_size t = Ok (2 * N.of_nat (List.length leaves))).
Proof.
  intros Hwf Hfull.
  destruct (get_leaves_into_total t [] [] Hwf Hfull) as [leaves E].
  exists leaves. split; [exact E | ].
  destruct (get_leaves_listed t leaves E) as [_ [Hall Hsize]].
  split; [exact Hall | ].
  split.
  { destruct (get_leaves_into_below t [] [] leaves E) as [ls [Els Hbelow]].
    rewrite app_nil_l, map_app_nil in Els. subst ls. exact Hbelow. }
  intros Hty Hfit. rewrite <- (Hsize Hty).
  apply encoded_size_unbounded; [exact Hwf | ]. rewrite (Hsize Hty). exact Hfit.
Qed.

Lemma get_leaves_sound_witness :
  exists leaves,
    get_leaves (dots_tree 2) = Ok leaves
    /\ Forall (listed_leaf (dots_tree 2)) leaves
    /\ Forall (below_splits (dots_tree 2)) leaves
    /\ (type (dots_tree 2) = SPLIT_TREE ->
        2 * N.of_nat (List.length leaves) < 2 ^ size_t_bits ->
        encoded_size (dots_tree 2) = Ok (2 * N.of_nat (List.length leaves))).
Proof.
  apply (get_leaves_sound (dots_tree 2)); reflexivity.
Defined.

(** ** Printing *)

Lemma string_length_append (s1 s2 : string) :
  String.length (s1 ++ s2) = (String.length s1 + String.length s2)%nat.
Proof.
  induction s1 as [ | a s1 IH]; [reflexivity | ].
  cbn [String.append String.length]. rewrite IH. reflexivity.
Qed.

(** One child as [get_leaves] and [operator<<] see it: printing it takes
    [l] characters and lists [k] more leaves, with [3 * l + 2 = 5 * k]. *)
Lemma show_child (this : path) (i : nat) (c : option QuadTree) :
  behind (fun c => forall this acc acc',
            get_leaves_into c this acc = Ok acc' ->
            type c = SPLIT_TREE ->
            exists s, show c = Ok s
              /\ (3 * String.length s + 2 + 5 * List.length acc
                  = 5 * List.length acc')%nat) c ->
  forall acc acc',
  visit_child get_leaves_into this i c acc = Ok acc' ->
  exists s, deref c show = Ok s
    /\ (3 * String.length s + 2 + 5 * List.length acc = 5 * List.length acc')%nat.
Proof.
  intros IH acc acc' H. unfold visit_child in H.
  apply deref_Ok in H. destruct H as [ch [-> H]]. cbn [behind deref] in *.
  destruct (type ch) eqn:Hty; try discriminate H.
  1-3: injection H as <-; destruct ch as [ty ? ? ? ?]; cbn [type] in Hty; subst ty;
    eexists; (split; [reflexivity | ]);
    rewrite length_app; cbn [String.length List.length]; lia.
  apply (IH _ _ _ H). reflexivity.
Qed.

Lemma show_split (t : QuadTree) :
  forall this acc acc',
  get_leaves_into t this acc = Ok acc' ->
  type t = SPLIT_TREE ->
  exists s, show t = Ok s
    /\ (3 * String.length s + 2 + 5 * List.length acc = 5 * List.length acc')%nat.
Proof.
  induction t as [ty c0 c1 c2 c3 IH0 IH1 IH2 IH3] using QuadTree_induction.
  intros this acc acc' H Hty. cbn [type] in Hty. subst ty.
  cbn [get_leaves_into] in H.
  bind_inv H a0 H0. bind_inv H a1 H1. bind_inv H a2 H2.
  apply (show_child this 0 c0 IH0) in H0. apply (show_child this 1 c1 IH1) in H1.
  apply (show_child this 2 c2 IH2) in H2. apply (show_child this 3 c3 IH3) in H.
  destruct H0 as [s0 [E0 L0]], H1 as [s1 [E1 L1]], H2 as [s2 [E2 L2]], H as [s3 [E3 L3]].
  cbn [show]. rewrite E0, E1, E2, E3. cbn [bind].
  eexists. split; [reflexivity | ].
  rewrite !string_length_append. cbn [String.length]. lia.
Qed.

(** X12: a tree whose root is a split and whose leaves can be listed is
    printed, and the length [l] of the text and the number [k] of leaves
    satisfy [3 * l + 2 = 5 * k]: in terms of the encoded size, which is
    [2 * k], the text has [(5 * size - 4) / 6] characters. *)
Theorem show_length (t : QuadTree) (leaves : list path) :
  get_leaves t = Ok leaves ->
  type t = SPLIT_TREE ->
  exists s, show t = Ok s
    /\ (3 * String.length s + 2 = 5 * List.length leaves)%nat.
Proof.
  intros H Hty. destruct (show_split t [] [] leaves H Hty) as [s [E L]].
  exists s. split; [exact E | ]. cbn [List.length] in L. lia.
Qed.

Lemma show_length_witness :
  exists s, show (dots_tree 1) = Ok s
    /\ (3 * String.length s + 2 = 5 * List.length [[0]; [1]; [2]; [3]]%nat)%nat.
Proof.
  apply (show_length (dots_tree 1)); reflexivity.
Defined.

(** ** Lossy merging, further *)

Lemma full_node_children (t : QuadTree) :
  full_node t = true ->
  exists ty s0 s1 s2 s3, t = Node ty (Some s0) (Some s1) (Some s2) (Some s3).
Proof.
  destruct t as [ty [s0 | ] [s1 | ] [s2 | ] [s3 | ]]; intros H; try discriminate H.
  exists ty, s0, s1, s2, s3. reflexivity.
Qed.

(** One sibling of the scan, the counter not yet above the bound. *)
Lemma scan_sibbling_counts (mdl : N) (s : QuadTree) (types : list Z) (n : N) :
  well_formed s = true -> n <= mdl -> n <= 3 ->
  exists v, (0 <= v <= 2)%Z
    /\ scan_sibbling mdl (Some s) (types, n) =
       if mdl <? n + is_split (Some s) then Ok None
       else Ok (Some (types ++ [v], n + is_split (Some s))).
Proof.
  intros Hwf Hn H3. cbn [scan_sibbling is_split].
  destruct (Type_eqb (type s) SPLIT_TREE) eqn:Hs.
  - rewrite wrap_small by (apply N.le_lt_trans with 4; [lia | vm_compute; reflexivity]).
    destruct (mean_type_total s Hwf) as [m E]. rewrite E. cbn [bind].
    exists (int_of_Type m). split; [ | reflexivity].
    apply leaf_type_int. apply (mean_type_leaf s). exact E.
  - exists (int_of_Type (type s)). rewrite N.add_0_r.
    destruct (N.ltb_spec mdl n) as [Hlt | _]; [lia | ].
    split; [ | reflexivity].
    apply well_formed_type in Hwf.
    destruct (type s); try discriminate Hwf; try discriminate Hs; simpl; lia.
Qed.

(** The whole scan: it gives up exactly when more children are split than
    the bound allows, and records four values between 0 and 2 otherwise. *)
Lemma scan_sibblings_counts (mdl : N) (t : QuadTree) :
  well_formed t = true -> full_node t = true ->
  exists a b c d, (0 <= a <= 2)%Z /\ (0 <= b <= 2)%Z /\ (0 <= c <= 2)%Z /\ (0 <= d <= 2)%Z
    /\ scan_sibblings mdl t =
       if mdl <? split_children t then Ok None
       else Ok (Some ([a; b; c; d], split_children t)).
Proof.
  intros Hwf Hfull.
  destruct (full_node_children t Hfull) as [ty [s0 [s1 [s2 [s3 ->]]]]].
  apply well_formed_children in Hwf. cbn [through] in Hwf.
  destruct Hwf as [W0 [W1 [W2 W3]]].
  assert (B : forall s, is_split (Some s) <= 1).
  { intros s. cbn [is_split]. destruct (Type_eqb _ _); lia. }
  pose proof (B s0) as B0. pose proof (B s1) as B1.
  pose proof (B s2) as B2. pose proof (B s3) as B3.
  unfold scan_sibblings, scan_next, split_children.
  destruct (scan_sibbling_counts mdl s0 [] 0 W0) as [a [Ha E0]]; [lia | lia | ].
  rewrite E0, N.add_0_l.
  destruct (N.ltb_spec mdl (is_split (Some s0))) as [L0 | L0]; cbn [bind].
  { exists a, 0%Z, 0%Z, 0%Z. repeat (split; [lia | ]).
    destruct (N.ltb_spec mdl (is_split (Some s0) + is_split (Some s1)
                              + is_split (Some s2) + is_split (Some s3))); [reflexivity | lia]. }
  destruct (scan_sibbling_counts mdl s1 ([] ++ [a]) (is_split (Some s0)) W1)
    as [b [Hb E1]]; [lia | lia | ].
  rewrite E1.
  destruct (N.ltb_spec mdl (is_split (Some s0) + is_split (Some s1))) as [L1 | L1]; cbn [bind].
  { exists a, b, 0%Z, 0%Z. repeat (split; [lia | ]).
    destruct (N.ltb_spec mdl (is_split (Some s0) + is_split (Some s1)
                              + is_split (Some s2) + is_split (Some s3))); [reflexivity | lia]. }
  destruct (scan_sibbling_counts mdl s2 (([] ++ [a]) ++ [b])
              (is_split (Some s0) + is_split (Some s1)) W2) as [c [Hc E2]]; [lia | lia | ].
  rewrite E2.
  destruct (N.ltb_spec mdl (is_split (Some s0) + is_split (Some s1) + is_split (Some s2)))
    as [L2 | L2]; cbn [bind].
  { exists a, b, c, 0%Z. repeat (split; [lia | ]).
    destruct (N.ltb_spec mdl (is_split (Some s0) + is_split (Some s1)
                              + is_split (Some s2) + is_split (Some s3))); [reflexivity | lia]. }
  destruct (scan_sibbling_counts mdl s3 ((([] ++ [a]) ++ [b]) ++ [c])
              (is_split (Some s0) + is_split (Some s1) + is_split (Some s2)) W3)
    as [d [Hd E3]]; [lia | lia | ].
  rewrite E3. exists a, b, c, d. repeat (split; [lia | ]). reflexivity.
Qed.

Lemma child_set_child (t c c' : QuadTree) (i j : nat) :
  child t i = Some c ->
  child (set_child t i c') j = if (j =? i)%nat then Some c' else child t j.
Proof.
  destruct t as [ty c0 c1 c2 c3].
  destruct i as [ | [ | [ | [ | i]]]]; cbn [child]; intros H; try discriminate H;
    destruct j as [ | [ | [ | [ | j]]]]; reflexivity.
Qed.

Lemma type_set_child (t c' : QuadTree) (i : nat) : type (set_child t i c') = type t.
Proof. destruct t, i as [ | [ | [ | [ | i]]]]; reflexivity. Qed.

(** Setting the type of a node: that node has the type, every other node
    keeps its own. *)
Lemma set_type_at_types (q : path) :
  forall (t t' : QuadTree) (ty : Type_),
  set_type_at t q ty = Some t' ->
  type_at t' q = Some ty
  /\ forall q', q' <> q -> type_at t' q' = type_at t q'.
Proof.
  unfold type_at.
  induction q as [ | i q IH]; intros t t' ty H.
  - destruct t as [ty0 c0 c1 c2 c3]. injection H as <-. split; [reflexivity | ].
    intros [ | j q'] Hne; [contradiction Hne; reflexivity | reflexivity].
  - cbn [set_type_at] in H.
    destruct (child t i) as [c | ] eqn:Hc; [ | discriminate H].
    destruct (set_type_at c q ty) as [c' | ] eqn:Hset; [ | discriminate H].
    injection H as <-. destruct (IH c c' ty Hset) as [Hat Hother].
    split.
    + cbn [node_at]. rewrite (child_set_child t c c' i i Hc), Nat.eqb_refl. exact Hat.
    + intros [ | j q'] Hne; cbn [node_at option_map].
      * rewrite type_set_child. reflexivity.
      * rewrite (child_set_child t c c' i j Hc).
        destruct (Nat.eqb_spec j i) as [-> | Hji]; [ | reflexivity].
        rewrite Hc. apply Hother. intros ->. apply Hne. reflexivity.
Qed.

Lemma set_type_at_Some (q : path) :
  forall (t n : QuadTree) (ty : Type_),
  node_at t q = Some n -> exists t', set_type_at t q ty = Some t'.
Proof.
  induction q as [ | i q IH]; intros t n ty H.
  - destruct t. eexists. reflexivity.
  - cbn [node_at set_type_at] in *.
    destruct (child t i) as [c | ]; [ | discriminate H].
    destruct (IH c n ty H) as [c' ->]. eexists. reflexivity.
Qed.

(** A merge at a leaf that has its sibblings, in a well-formed tree. *)
Lemma merge_with_sibblings_total (t above : QuadTree) (p : path) (mdl : N) :
  well_formed t = true ->
  has_sibblings t p = true ->
  (exists ty, type_at t p = Some ty /\ is_leaf_type ty = true) ->
  node_at t (parent p) = Some above ->
  (mdl < split_children above /\ merge_with_sibblings t p mdl = Ok (false, t))
  \/ (split_children above <= mdl
      /\ exists ty' t',
           merge_with_sibblings t p mdl = Ok (true, t')
           /\ is_leaf_type ty' = true
           /\ set_type_at t (parent p) ty' = Some t').
Proof.
  intros Hwf Hs [ty [Hat Hleaf]] Habove.
  unfold has_sibblings in Hs. rewrite Habove in Hs.
  apply andb_prop in Hs. destruct Hs as [Hs _].
  apply andb_prop in Hs. destruct Hs as [Hlen Hfull].
  apply negb_true_iff in Hlen.
  unfold type_at in Hat. unfold merge_with_sibblings.
  destruct (node_at t p) as [leaf | ]; [ | discriminate Hat].
  injection Hat as Hat. rewrite Hat, Hlen, Habove.
  assert (Hns : Type_eqb ty SPLIT_TREE = false) by (destruct ty; (discriminate Hleaf || reflexivity)).
  rewrite Hns. cbn [orb].
  pose proof (well_formed_node_at _ _ _ Hwf Habove) as Wabove.
  destruct (scan_sibblings_counts mdl above Wabove Hfull)
    as [a [b [c [d [Ha [Hb [Hc [Hd E]]]]]]]].
  rewrite E.
  destruct (N.ltb_spec mdl (split_children above)) as [Hlt | Hge]; cbn [bind].
  - left. split; [exact Hlt | reflexivity].
  - right. split; [exact Hge | ].
    cbn [fold_left].
    destruct (static_cast_leaf _ (mean_range _ _ _ _ Ha Hb Hc Hd)) as [ty' [Ecast [Hl Hint]]].
    replace (0 + a + b + c + d)%Z with (a + b + c + d)%Z by lia.
    assert (Hcheck : is_leaf_int (Z.quot (a + b + c + d) 4) = true).
    { rewrite <- Hint. destruct ty'; try discriminate Hl; reflexivity. }
    rewrite Hcheck, Ecast. cbn [negb bind].
    destruct (set_type_at_Some (parent p) t above ty' Habove) as [t' Eset].
    rewrite Eset. exists ty', t'. auto.
Qed.

(** X13: in a well-formed tree, a merge at a node of a leaf type whose
    parent has its four children never throws.  It gives up, leaving the
    tree as it is, exactly when more of the four sibblings are split than
    [maximum_detail_loss]; otherwise it gives the parent a leaf type and
    changes the type of no other node, and no pointer. *)
Theorem merge_with_sibblings_effect (t above : QuadTree) (p : path) (mdl : N) :
  well_formed t = true ->
  has_sibblings t p = true ->
  (exists ty, type_at t p = Some ty /\ is_leaf_type ty = true) ->
  node_at t (parent p) = Some above ->
  (mdl < split_children above /\ merge_with_sibblings t p mdl = Ok (false, t))
  \/ (split_children above <= mdl
      /\ exists ty' t',
           merge_with_sibblings t p mdl = Ok (true, t')
           /\ is_leaf_type ty' = true
           /\ type_at t' (parent p) = Some ty'
           /\ (forall q, q <> parent p -> type_at t' q = type_at t q)
           /\ erase t' = erase t
           /\ well_formed t' = true).
Proof.
  intros Hwf Hs Hleaf Habove.
  destruct (merge_with_sibblings_total t above p mdl Hwf Hs Hleaf Habove)
    as [H | [Hge [ty' [t' [E [Hl Eset]]]]]]; [left; exact H | right].
  split; [exact Hge | ]. exists ty', t'.
  destruct (set_type_at_types _ _ _ _ Eset) as [Hat Hother].
  split; [exact E | ]. split; [exact Hl | ]. split; [exact Hat | ].
  split; [exact Hother | ].
  split; [apply (set_type_at_erase _ _ _ _ Eset) | ].
  apply (set_type_at_size _ _ _ _ Hwf Hl Eset).
Qed.

Lemma merge_with_sibblings_effect_witness :
  (0 < split_children (dots_tree 1)
   /\ merge_with_sibblings (dots_tree 2) [0; 0]%nat 0 = Ok (false, dots_tree 2))
  \/ (split_children (dots_tree 1) <= 0
      /\ exists ty' t',
           merge_with_sibblings (dots_tree 2) [0; 0]%nat 0 = Ok (true, t')
           /\ is_leaf_type ty' = true
           /\ type_at t' (parent [0; 0]%nat) = Some ty'
           /\ (forall q, q <> parent [0; 0]%nat -> type_at t' q = type_at (dots_tree 2) q)
           /\ erase t' = erase (dots_tree 2)
           /\ well_formed t' = true).
Proof.
  apply (merge_with_sibblings_effect (dots_tree 2) (dots_tree 1) [0; 0]%nat 0).
  - reflexivity.
  - reflexivity.
  - exists WHITE_TREE. split; reflexivity.
  - reflexivity.
Defined.

(** ** Collapsing changes one type and nothing else *)

Lemma node_at_app (q : path) :
  forall (t : QuadTree) (r : path),
  node_at t (q ++ r) = match node_at t q with
                       | Some n => node_at n r
                       | None => None
                       end.
Proof.
  induction q as [ | i q IH]; intros t r; [reflexivity | ].
  cbn [app node_at]. destruct (child t i) as [c | ]; [apply IH | reflexivity].
Qed.

Lemma scan_sibbling_Some (mdl : N) (c : option QuadTree) (st x : list Z * N) :
  scan_sibbling mdl c st = Ok (Some x) -> is_null c = false.
Proof.
  destruct c as [s | ]; [reflexivity | ].
  destruct st as [types n]. intros H. discriminate H.
Qed.

Lemma scan_next_Some (mdl : N) (c : option QuadTree)
    (st : result (option (list Z * N))) (x : list Z * N) :
  scan_next mdl c st = Ok (Some x) ->
  is_null c = false /\ exists y, st = Ok (Some y).
Proof.
  unfold scan_next. intros H. destruct st as [[y | ] | e]; try discriminate H.
  cbn [bind] in H. split; [ | exists y; reflexivity].
  apply (scan_sibbling_Some mdl c y x). exact H.
Qed.

(** The scan gets through the four sibblings only if they are all there. *)
Lemma scan_sibblings_full (mdl : N) (above : QuadTree) (x : list Z * N) :
  scan_sibblings mdl above = Ok (Some x) -> full_node above = true.
Proof.
  destruct above as [ty c0 c1 c2 c3]. unfold scan_sibblings. intros H.
  apply scan_next_Some in H. destruct H as [N3 [x2 H]].
  apply scan_next_Some in H. destruct H as [N2 [x1 H]].
  apply scan_next_Some in H. destruct H as [N1 [x0 H]].
  apply scan_sibbling_Some in H.
  cbn [full_node]. rewrite H, N1, N2, N3. reflexivity.
Qed.

(** What a merge that returns has done: nothing, or set the type of the
    parent, which has its four children, to a leaf type. *)
Lemma merge_with_sibblings_inv (t : QuadTree) (p : path) (mdl : N)
    (b : bool) (t' : QuadTree) :
  merge_with_sibblings t p mdl = Ok (b, t') ->
  (b = false /\ t' = t)
  \/ (b = true
      /\ exists above ty,
           node_at t (parent p) = Some above /\ full_node above = true
           /\ is_leaf_type ty = true /\ set_type_at t (parent p) ty = Some t').
Proof.
  unfold merge_with_sibblings. intros H.
  destruct (node_at t p) as [leaf | ]; [ | discriminate H].
  destruct (_ || _); [discriminate H | ].
  destruct (node_at t (parent p)) as [above | ]; [ | discriminate H].
  apply bind_Ok in H. destruct H as [[[types n] | ] [Hscan H]].
  - right. destruct (is_leaf_int _) eqn:Hleaf; [ | discriminate H].
    cbn [negb] in H. apply bind_Ok in H. destruct H as [ty [Hcast H]].
    destruct (set_type_at t (parent p) ty) as [r | ] eqn:Hset; [ | discriminate H].
    injection H as <- <-. split; [reflexivity | ].
    exists above, ty. split; [reflexivity | ].
    split; [apply (scan_sibblings_full mdl above (types, n)); exact Hscan | ].
    split; [ | exact Hset].
    unfold is_leaf_int in Hleaf.
    destruct (Z.quot _ 4) as [ | [q | q | ] | [q | q | ]];
      try discriminate Hleaf; try destruct q; try discriminate Hleaf;
      cbn in Hcast; injection Hcast as <-; reflexivity.
  - left. injection H as <- <-. split; reflexivity.
Qed.

(** Setting the type of a node leaves the nodes below it as they are. *)
Lemma set_type_at_below (q : path) :
  forall (t t' : QuadTree) (ty : Type_),
  set_type_at t q ty = Some t' ->
  forall i r, node_at t' (q ++ i :: r) = node_at t (q ++ i :: r).
Proof.
  induction q as [ | j q IH]; intros t t' ty H i r.
  - destruct t as [ty0 c0 c1 c2 c3]. injection H as <-.
    destruct i as [ | [ | [ | [ | i]]]]; reflexivity.
  - cbn [set_type_at] in H.
    destruct (child t j) as [c | ] eqn:Hc; [ | discriminate H].
    destruct (set_type_at c q ty) as [c' | ] eqn:Hset; [ | discriminate H].
    injection H as <-. cbn [app node_at].
    rewrite (child_set_child t c c' j j Hc), Nat.eqb_refl, Hc.
    apply (IH c c' ty Hset).
Qed.

Lemma full_node_child (t : QuadTree) (i : nat) :
  full_node t = true -> (i < 4)%nat -> child t i <> None.
Proof.
  intros Hfull Hi.
  destruct (full_node_children t Hfull) as [ty [s0 [s1 [s2 [s3 ->]]]]].
  destruct i as [ | [ | [ | [ | i]]]]; cbn [child]; try discriminate. lia.
Qed.

(** A node that [merge_leaves] collapses: it was a split, it has a leaf
    type, and its four children are there with that very type. *)
Lemma merge_leaves_types (t : QuadTree) :
  forall t', well_formed t = true -> merge_leaves t = Ok t' ->
  forall q,
    type_at t' q = type_at t q
    \/ (type_at t q = Some SPLIT_TREE
        /\ exists ty, is_leaf_type ty = true /\ type_at t' q = Some ty
             /\ forall i, (i < 4)%nat -> type_at t' (q ++ [i]) = Some ty).
Proof.
  induction t as [ty c0 c1 c2 c3 IH0 IH1 IH2 IH3] using QuadTree_induction.
  intros t' Hwf H q.
  destruct (Type_eqb ty SPLIT_TREE) eqn:Hty.
  2: { rewrite merge_leaves_other in H by exact Hty. injection H as <-.
       left. reflexivity. }
  destruct ty; try discriminate Hty.
  apply merge_leaves_split in H.
  destruct H as [t0 [t1 [t2 [t3 [t0' [t1' [t2' [t3' H]]]]]]]].
  destruct H as [-> [-> [-> [-> [H0 [H1 [H2 [H3 ->]]]]]]]].
  cbn [behind] in *.
  apply well_formed_children in Hwf. cbn [through] in Hwf.
  destruct Hwf as [W0 [W1 [W2 W3]]].
  rewrite merged_node_cases. unfold type_at.
  destruct q as [ | i q].
  - cbn [node_at option_map type app].
    destruct (uniform t0' t1' t2' t3') eqn:U; [right | left; reflexivity].
    split; [reflexivity | ]. exists (type t0').
    apply uniform_spec in U. destruct U as [E1 [E2 [E3 Hns]]].
    destruct (merge_leaves_keeps t0 t0' W0 H0) as [W0' _].
    pose proof (well_formed_type _ W0') as Hnu.
    split; [ | split; [reflexivity | ]].
    + destruct (type t0'); try discriminate Hnu; try reflexivity.
      contradiction Hns. reflexivity.
    + intros i Hi.
      destruct i as [ | [ | [ | [ | i]]]]; cbn [child option_map]; try congruence. lia.
  - specialize (IH0 t0' W0 H0 q). specialize (IH1 t1' W1 H1 q).
    specialize (IH2 t2' W2 H2 q). specialize (IH3 t3' W3 H3 q).
    unfold type_at in IH0, IH1, IH2, IH3.
    cbn [app node_at].
    destruct i as [ | [ | [ | [ | i]]]]; cbn [child]; try assumption.
    left. reflexivity.
Qed.

(** Merging keeps a tree well-formed and moves no pointer. *)
Lemma merged_from_kept (t0 t : QuadTree) :
  well_formed t0 = true -> merged_from t0 t ->
  well_formed t = true /\ erase t = erase t0.
Proof.
  intros Hwf H. induction H as [ | t1 t2 _ [W1 E1] Hm | t1 t2 p mdl b _ [W1 E1] Hm].
  - split; [exact Hwf | reflexivity].
  - split; [apply (merge_leaves_keeps t1 t2 W1 Hm) | ].
    rewrite <- E1. apply merge_leaves_erase. exact Hm.
  - split; [ | rewrite <- E1; apply (merge_with_sibblings_erase t1 p mdl b); exact Hm].
    apply merge_with_sibblings_inv in Hm.
    destruct Hm as [[_ ->] | [_ [above [ty [_ [_ [Hl Hset]]]]]]]; [exact W1 | ].
    apply (set_type_at_size _ _ _ _ W1 Hl Hset).
Qed.

(** C7, as the code has it.  Construction leaves no leaf with children.
    Both merges collapse a node by giving it a leaf type and do nothing
    else: in every tree that merges have made of the constructed one, each
    split node still has its four children and the pointers that designate
    a node are those that did in the constructed tree;
    [merge_leaves] changes the type of a node only from split to a leaf
    type, the node keeping its four children, which have that type;
    [merge_with_sibblings] changes nothing when it returns false and
    otherwise gives the parent a leaf type, every other node keeping its
    type and the parent its four children, subtrees and all. *)
Theorem collapse_keeps_children (mcs : N) (m : Matrix) (t0 : QuadTree) :
  QuadTree_new mcs m = Ok t0 ->
  leaves_childless t0 = true
  /\ (forall t, erase t = erase t0 ->
        (forall t', merge_leaves t = Ok t' -> erase t' = erase t0)
        /\ (forall p mdl b t',
              merge_with_sibblings t p mdl = Ok (b, t') -> erase t' = erase t0)
        /\ (forall p, node_at t0 p <> None -> node_at t p <> None))
  /\ forall t, merged_from t0 t ->
       well_formed t = true
       /\ erase t = erase t0
       /\ (forall p, node_at t0 p <> None <-> node_at t p <> None)
       /\ (forall t', merge_leaves t = Ok t' ->
             forall q,
               type_at t' q = type_at t q
               \/ (type_at t q = Some SPLIT_TREE
                   /\ exists ty, is_leaf_type ty = true /\ type_at t' q = Some ty
                        /\ forall i, (i < 4)%nat -> type_at t' (q ++ [i]) = Some ty))
       /\ (forall p mdl t', merge_with_sibblings t p mdl = Ok (false, t') -> t' = t)
       /\ (forall p mdl t',
             merge_with_sibblings t p mdl = Ok (true, t') ->
             (exists ty, is_leaf_type ty = true /\ type_at t' (parent p) = Some ty)
             /\ (forall q, q <> parent p -> type_at t' q = type_at t q)
             /\ (forall i, (i < 4)%nat ->
                   exists c, node_at t (parent p ++ [i]) = Some c
                             /\ node_at t' (parent p ++ [i]) = Some c)).
Proof.
  intros H.
  pose proof (QuadTree_new_fresh mcs m t0 H) as Hfresh.
  split; [apply fresh_leaves_childless; exact Hfresh | ].
  split.
  { intros t E. repeat split.
    - intros t' Hm. rewrite <- E. apply merge_leaves_erase. exact Hm.
    - intros p mdl b t' Hm. rewrite <- E.
      apply (merge_with_sibblings_erase t p mdl b). exact Hm.
    - intros p. apply same_pointers. exact E. }
  intros t Hfrom.
  destruct (merged_from_kept t0 t (fresh_well_formed t0 Hfresh) Hfrom) as [Hwf E].
  split; [exact Hwf | ]. split; [exact E | ].
  split; [intros p; split; apply same_pointers; [exact E | symmetry; exact E] | ].
  split; [intros t' Hm; apply (merge_leaves_types t t' Hwf Hm) | ].
  split.
  - intros p mdl t' Hm. apply merge_with_sibblings_inv in Hm.
    destruct Hm as [[_ ->] | [Hb _]]; [reflexivity | discriminate Hb].
  - intros p mdl t' Hm. apply merge_with_sibblings_inv in Hm.
    destruct Hm as [[Hb _] | [_ [above [ty [Habove [Hfull [Hl Hset]]]]]]];
      [discriminate Hb | ].
    destruct (set_type_at_types _ _ _ _ Hset) as [Hat Hother].
    split; [exists ty; split; assumption | ]. split; [exact Hother | ].
    intros i Hi. rewrite (set_type_at_below _ _ _ _ Hset).
    rewrite node_at_app, Habove. cbn [node_at].
    pose proof (full_node_child above i Hfull Hi) as Hc.
    destruct (child above i) as [c | ]; [ | contradiction Hc; reflexivity].
    exists c. split; reflexivity.
Qed.

Lemma collapse_keeps_children_witness :
  leaves_childless (dots_tree 1) = true
  /\ (forall t, erase t = erase (dots_tree 1) ->
        (forall t', merge_leaves t = Ok t' -> erase t' = erase (dots_tree 1))
        /\ (forall p mdl b t',
              merge_with_sibblings t p mdl = Ok (b, t') -> erase t' = erase (dots_tree 1))
        /\ (forall p, node_at (dots_tree 1) p <> None -> node_at t p <> None))
  /\ forall t, merged_from (dots_tree 1) t ->
       well_formed t = true
       /\ erase t = erase (dots_tree 1)
       /\ (forall p, node_at (dots_tree 1) p <> None <-> node_at t p <> None)
       /\ (forall t', merge_leaves t = Ok t' ->
             forall q,
               type_at t' q = type_at t q
               \/ (type_at t q = Some SPLIT_TREE
                   /\ exists ty, is_leaf_type ty = true /\ type_at t' q = Some ty
                        /\ forall i, (i < 4)%nat -> type_at t' (q ++ [i]) = Some ty))
       /\ (forall p mdl t', merge_with_sibblings t p mdl = Ok (false, t') -> t' = t)
       /\ (forall p mdl t',
             merge_with_sibblings t p mdl = Ok (true, t') ->
             (exists ty, is_leaf_type ty = true /\ type_at t' (parent p) = Some ty)
             /\ (forall q, q <> parent p -> type_at t' q = type_at t q)
             /\ (forall i, (i < 4)%nat ->
                   exists c, node_at t (parent p ++ [i]) = Some c
                             /\ node_at t' (parent p ++ [i]) = Some c)).
Proof.
  apply (collapse_keeps_children 1 (grid 2 2 dots) (dots_tree 1)).
  reflexivity.
Defined.

(** ** Simplification never goes wrong *)

Lemma full_node_erase (t : QuadTree) : full_node (erase t) = full_node t.
Proof. destruct t as [ty [ | ] [ | ] [ | ] [ | ]]; reflexivity. Qed.

Lemma has_sibblings_erase (t : QuadTree) (p : path) :
  has_sibblings (erase t) p = has_sibblings t p.
Proof.
  unfold has_sibblings. rewrite !node_at_erase.
  destruct (node_at t (parent p)) as [above | ], (node_at t p) as [n | ];
    cbn [option_map]; rewrite ?full_node_erase; reflexivity.
Qed.

Lemma has_sibblings_same (t t' : QuadTree) (p : path) :
  erase t' = erase t -> has_sibblings t' p = has_sibblings t p.
Proof.
  intros E. rewrite <- (has_sibblings_erase t'), <- (has_sibblings_erase t), E.
  reflexivity.
Qed.

(** On a well-formed tree [encoded_size] returns. *)
Lemma encoded_size_total (t : QuadTree) :
  well_formed t = true -> exists size, encoded_size t = Ok size.
Proof.
  induction t as [ty c0 c1 c2 c3 IH0 IH1 IH2 IH3] using QuadTree_induction.
  intros Hwf. pose proof (well_formed_type _ Hwf) as Hnu. cbn [type] in Hnu.
  apply well_formed_children in Hwf. destruct Hwf as [W0 [W1 [W2 W3]]].
  assert (Hadd : forall c n, behind (fun t => well_formed t = true ->
                                     exists size, encoded_size t = Ok size) c ->
                   through well_formed c = true ->
                   exists n', add_size encoded_size c n = Ok n').
  { intros [s | ] n IH W; cbn [add_size behind through] in *; [ | eexists; reflexivity].
    destruct (IH W) as [size ->]. eexists. reflexivity. }
  destruct ty; try discriminate Hnu; try (eexists; reflexivity).
  cbn [encoded_size].
  destruct (Hadd c0 0 IH0 W0) as [n0 ->]. cbn [bind].
  destruct (Hadd c1 n0 IH1 W1) as [n1 ->]. cbn [bind].
  destruct (Hadd c2 n1 IH2 W2) as [n2 ->]. cbn [bind].
  apply (Hadd c3 n2 IH3 W3).
Qed.

Section Safe.

Variable t0 : QuadTree.
Variable leaves : list path.
Variable last_size : N.

Hypothesis snapshot : Forall (listed_leaf t0) leaves.

(** What every round keeps: the tree is well-formed, no pointer has
    changed, and the leaves of the snapshot have the types they had. *)
Let kept (t : QuadTree) : Prop :=
  well_formed t = true
  /\ erase t = erase t0
  /\ forall p, In p leaves -> type_at t p = type_at t0 p.

(** No leaf of the snapshot is the parent of one. *)
Lemma snapshot_apart (p p0 : path) :
  In p leaves -> In p0 leaves -> p <> parent p0.
Proof.
  rewrite Forall_forall in snapshot. intros Hp Hp0 ->.
  destruct (snapshot _ Hp) as [Hs [[ty [Hat Hleaf]] _]].
  destruct (snapshot _ Hp0) as [_ [_ [Hnil | Hsplit]]].
  - rewrite Hnil in Hs. discriminate Hs.
  - rewrite Hsplit in Hat. injection Hat as <-. discriminate Hleaf.
Qed.

Lemma loop_body_safe (st : loop_state) (r : N) :
  (List.length leaves =? 0)%nat = false ->
  kept (st_tree st) ->
  loop_body leaves last_size st r = Err hopeless
  \/ exists st', loop_body leaves last_size st r = Ok st' /\ kept (st_tree st').
Proof.
  intros Hsome [Hwf [Herase Htypes]]. unfold loop_body.
  destruct (encoded_size_total _ Hwf) as [size ->]. cbn [bind].
  assert (Hmdl : forall mdl : result N,
    (mdl = Err hopeless \/ exists n, mdl = Ok n) ->
    (x <- mdl ;;
     match nth_error leaves (N.to_nat (r mod N.of_nat (List.length leaves))) with
     | Some leaf =>
         merged <- merge_with_sibblings (st_tree st) leaf x ;;
         Ok (mkState (snd merged) size x)
     | None => Err out_of_bounds
     end) = Err hopeless
    \/ exists st', (x <- mdl ;;
     match nth_error leaves (N.to_nat (r mod N.of_nat (List.length leaves))) with
     | Some leaf =>
         merged <- merge_with_sibblings (st_tree st) leaf x ;;
         Ok (mkState (snd merged) size x)
     | None => Err out_of_bounds
     end) = Ok st' /\ kept (st_tree st')).
  { intros mdl [-> | [n ->]]; [left; reflexivity | right]. cbn [bind].
    apply Nat.eqb_neq in Hsome.
    destruct (nth_error leaves _) as [leaf | ] eqn:Epick.
    2: { apply nth_error_None in Epick.
         assert (r mod N.of_nat (List.length leaves) < N.of_nat (List.length leaves))
           by (apply N.mod_lt; lia).
         lia. }
    apply nth_error_In in Epick.
    pose proof snapshot as Hall. rewrite Forall_forall in Hall.
    destruct (Hall _ Epick) as [Hs [Hleaf _]].
    rewrite <- (has_sibblings_same t0 (st_tree st) leaf Herase) in Hs.
    rewrite <- (Htypes _ Epick) in Hleaf.
    assert (Habove : exists above, node_at (st_tree st) (parent leaf) = Some above).
    { unfold has_sibblings in Hs.
      destruct (node_at (st_tree st) (parent leaf)) as [above | ].
      - exists above. reflexivity.
      - rewrite andb_false_r in Hs. discriminate Hs. }
    destruct Habove as [above Habove].
    destruct (merge_with_sibblings_total _ above leaf n Hwf Hs Hleaf Habove)
      as [[_ ->] | [_ [ty' [t' [-> [Hl Eset]]]]]]; cbn [bind snd].
    - eexists. split; [reflexivity | ]. cbn [st_tree]. repeat split; assumption.
    - eexists. split; [reflexivity | ]. cbn [st_tree].
      destruct (set_type_at_types _ _ _ _ Eset) as [_ Hother].
      split; [apply (set_type_at_size _ _ _ _ Hwf Hl Eset) | ].
      split; [rewrite (set_type_at_erase _ _ _ _ Eset); exact Herase | ].
      intros p Hp. rewrite Hother; [apply Htypes; exact Hp | ].
      apply snapshot_apart; assumption. }
  apply Hmdl.
  destruct (last_size =? size); [ | right; eexists; reflexivity].
  destruct (4 <? wrap (st_maximum_detail_loss st + 1));
    [left; reflexivity | right; eexists; reflexivity].
Qed.

Lemma loop_safe (rs : list N) :
  forall st, kept (st_tree st) ->
  match loop leaves last_size rs st with
  | returned t' => kept t'
  | failed e => e = hopeless
  | running st' => kept (st_tree st')
  end.
Proof.
  induction rs as [ | r rs IH]; intros st Hkept; cbn [loop];
    destruct (loop_condition leaves st) eqn:Hcond; try exact Hkept.
  assert (Hsome : (List.length leaves =? 0)%nat = false).
  { unfold loop_condition in Hcond. apply andb_prop in Hcond.
    destruct Hcond as [H _]. apply negb_true_iff in H. exact H. }
  destruct (loop_body_safe st r Hsome Hkept) as [-> | [st' [-> Hkept']]];
    [reflexivity | ].
  apply IH. exact Hkept'.
Qed.

End Safe.

(** The only exception of [simplify] on a well-formed tree whose root has
    its four children is the one it throws itself; a tree it returns is
    well-formed and has the pointers of the tree it was given. *)
Lemma simplify_safe (rs : list N) (t : QuadTree) :
  well_formed t = true -> full_node t = true ->
  match simplify rs t with
  | returned t' => well_formed t' = true /\ erase t' = erase t
  | failed e => e = hopeless
  | running st => True
  end.
Proof.
  intros Hwf Hfull. unfold simplify.
  destruct (get_leaves_into_total t [] [] Hwf Hfull) as [leaves E].
  fold (get_leaves t) in E. rewrite E.
  destruct (get_leaves_listed t leaves E) as [_ [Hall _]].
  destruct (encoded_size_total t Hwf) as [size ->].
  pose proof (loop_safe t leaves size Hall rs (mkState t size 0)) as H.
  cbn [st_tree] in H.
  destruct (loop leaves size rs (mkState t size 0)) as [t' | e | st'].
  - destruct H as [Hwf' [Herase _]]; [ | split; assumption].
    split; [exact Hwf | ]. split; reflexivity.
  - apply H. split; [exact Hwf | ]. split; reflexivity.
  - exact I.
Qed.

(** X14: on a well-formed tree whose root has its four children, [simplify]
    dereferences no null pointer and throws nothing but its own "hopelessly
    complex" error; and when it returns, the tree is well-formed, has the
    pointer structure it had, and is within the budget (the sizes fitting
    [size_t]). *)
Theorem simplify_outcomes (rs : list N) (t : QuadTree) :
  well_formed t = true -> full_node t = true ->
  unbounded_size t < 2 ^ size_t_bits ->
  (exists t' size,
     simplify rs t = returned t'
     /\ well_formed t' = true /\ erase t' = erase t
     /\ encoded_size t' = Ok size /\ size <= maximum_encoded_size)
  \/ simplify rs t = failed hopeless
  \/ exists st, simplify rs t = running st.
Proof.
  intros Hwf Hfull Hfit.
  pose proof (simplify_safe rs t Hwf Hfull) as H.
  destruct (simplify rs t) as [t' | e | st] eqn:E.
  - left. destruct H as [Hwf' Herase].
    destruct (simplify_returns_within_budget rs t t' Hwf Hfit E) as [size [Es Hs]].
    exists t', size. auto.
  - right; left. rewrite H. reflexivity.
  - right; right. exists st. reflexivity.
Qed.

Lemma simplify_outcomes_witness :
  (exists t' size,
     simplify [3; 1] (dots_tree 2) = returned t'
     /\ well_formed t' = true /\ erase t' = erase (dots_tree 2)
     /\ encoded_size t' = Ok size /\ size <= maximum_encoded_size)
  \/ simplify [3; 1] (dots_tree 2) = failed hopeless
  \/ exists st, simplify [3; 1] (dots_tree 2) = running st.
Proof.
  apply (simplify_outcomes [3; 1] (dots_tree 2)).
  - reflexivity.
  - reflexivity.
  - vm_compute. reflexivity.
Defined.

(** ** The program, when the image is decoded *)

(** A bound on the size of a constructed tree: 8 units per cell of the
    region at most (2 per cell when the cell size is not 0). *)
Lemma init_rec_bound (mcs : N) (m : Matrix) (fuel : nat) :
  forall x y size t,
  init_rec mcs m fuel x y size = Ok t ->
  unbounded_size t <= N.max 2 (8 * (size * size)).
Proof.
  assert (Hleaf : forall x y size t, init_leaf m x y = Ok t ->
                  unbounded_size t <= N.max 2 (8 * (size * size))).
  { intros x y size t H. unfold init_leaf in H. bind_inv H v Hv. injection H as <-.
    rewrite unbounded_size_eq. pose proof (classify_is_leaf v) as Hl.
    destruct (classify v); try discriminate Hl; cbn; lia. }
  induction fuel as [ | fuel IH]; intros x y size t H; cbn [init_rec] in H.
  - apply (Hleaf x y). exact H.
  - destruct (N.leb_spec size mcs) as [Hle | Hgt]; [apply (Hleaf x y); exact H | ].
    cbv zeta in H.
    bind_inv H c0 H0. bind_inv H c1 H1. bind_inv H c2 H2. bind_inv H c3 H3.
    injection H as <-.
    apply IH in H0, H1, H2, H3.
    rewrite unbounded_size_eq. change (Type_eqb SPLIT_TREE SPLIT_TREE) with true.
    cbv iota. cbn [size_behind].
    assert (Hhalf : 2 * (size / 2) <= size) by (apply N.Div0.mul_div_le).
    destruct (N.eq_dec (size / 2) 0) as [E0 | Hne].
    + rewrite E0 in H0, H1, H2, H3. change (N.max 2 (8 * (0 * 0))) with 2 in *.
      assert (1 <= size * size) by nia. lia.
    + assert (2 * (size / 2) * (2 * (size / 2)) <= size * size)
        by (apply N.mul_le_mono; exact Hhalf).
      assert (1 <= size / 2 * (size / 2)) by nia. lia.
Qed.

Lemma simplify_returned_size (rs : list N) (t t' : QuadTree) :
  well_formed t = true ->
  unbounded_size t < 2 ^ size_t_bits ->
  simplify rs t = returned t' ->
  unbounded_size t' <= maximum_encoded_size.
Proof.
  intros Hwf Hfit H. unfold simplify in H.
  destruct (get_leaves t) as [leaves | e] eqn:Hget; [ | discriminate H].
  rewrite (encoded_size_unbounded _ Hwf Hfit) in H.
  assert (Hsome : (List.length leaves =? 0)%nat = false).
  { apply get_leaves_into_grows in Hget. apply Nat.eqb_neq. cbn [List.length] in Hget. lia. }
  destruct (loop_returned leaves (unbounded_size t) Hsome rs
              (mkState t (unbounded_size t) 0) t') as [_ [_ Hle]];
    cbn [st_tree st_current_size]; try assumption; try lia.
Qed.

(** The text of a well-formed tree within the budget has 751 characters at
    most. *)
Lemma show_within_budget (t : QuadTree) :
  well_formed t = true -> full_node t = true ->
  unbounded_size t <= maximum_encoded_size ->
  exists s, show t = Ok s /\ (String.length s <= 751)%nat.
Proof.
  intros Hwf Hfull Hsize.
  destruct (Type_eqb (type t) SPLIT_TREE) eqn:Hty.
  - apply Type_eqb_eq in Hty.
    destruct (get_leaves_into_total t [] [] Hwf Hfull) as [leaves E].
    destruct (get_leaves_listed t leaves E) as [_ [_ Hcount]].
    destruct (show_split t [] [] leaves E Hty) as [s [Es Hlen]].
    exists s. split; [exact Es | ].
    rewrite (Hcount Hty) in Hsize. unfold maximum_encoded_size in Hsize.
    cbn [List.length] in Hlen. lia.
  - pose proof (well_formed_type _ Hwf) as Hnu.
    destruct t as [ty ? ? ? ?]. cbn [type] in *.
    destruct ty; try discriminate Hnu; try discriminate Hty;
      eexists; (split; [reflexivity | cbn; lia]).
Qed.

(** X15: when the image is decoded into a complete matrix whose dimensions
    are powers of two up to 2^30, and the cell size is below the larger
    dimension, [main] reads no sample out of bounds and follows no null
    pointer.  It ends in one of two ways: it returns 0 after printing the
    six progress lines and one line of text, of 751 characters at most; or
    it returns 1 after the progress lines and the "hopelessly complex"
    message. *)
Theorem main_outcomes (parse_size_t : string -> option N)
    (png_read : string -> option Matrix) (file : string) (rest : list string)
    (rs : list N) (image : Matrix) (mcs a b : N) :
  (rest = [] /\ mcs = 64) \/ (exists cell, rest = [cell] /\ parse_size_t cell = Some mcs) ->
  png_read file = Some image ->
  complete image ->
  get_width image = 2 ^ a -> get_height image = 2 ^ b -> a <= 30 -> b <= 30 ->
  mcs < 2 ^ N.max a b ->
  let log := [("Reading " ++ file)%string; "Needlessly building matrix"%string;
              "Making matrix square"%string; "Building quadtree"%string;
              "Merging leaves"%string; "Simplifying"%string] in
  let run := main parse_size_t png_read (file :: rest) rs in
  (exists s, run = mkExecution log [s] (exited 0) /\ (String.length s <= 751)%nat)
  \/ run = mkExecution
             (log ++ ["image is hopelessly complex; try a smaller cell size"%string])
             [] (exited 1)
  \/ run = mkExecution log [] unfinished.
Proof.
  intros Hargs Hread Hc Hw Hh Ha Hb Hmcs log run.
  set (e := N.max a b) in *.
  assert (He : e <= 30) by (unfold e; lia).
  assert (Hmax : N.max (2 ^ a) (2 ^ b) = 2 ^ e).
  { unfold e. destruct (N.le_ge_cases a b) as [Hab | Hab].
    - rewrite (N.max_r a b) by exact Hab. apply N.max_r. apply N.pow_le_mono_r; lia.
    - rewrite (N.max_l a b) by exact Hab. apply N.max_l. apply N.pow_le_mono_r; lia. }
  assert (Hpos : forall k, 0 < 2 ^ k) by (intros k; apply N.neq_0_lt_0, N.pow_nonzero; lia).
  assert (Hside : 2 ^ e <= 2 ^ 30) by (apply N.pow_le_mono_r; lia).
  assert (H60 : 2 ^ 30 * 2 ^ 30 * 8 < 2 ^ size_t_bits) by (vm_compute; reflexivity).
  (* the pixels *)
  assert (Hcopy : copy_pixels image = Ok image).
  { apply copy_pixels_same; [exact Hc | rewrite Hw | rewrite Hh];
      (apply N.le_lt_trans with (2 ^ 30); [apply N.pow_le_mono_r; lia | vm_compute; reflexivity]). }
  (* the square *)
  destruct (make_square_rounded image) as [square [Esq [Hws [Hhs [Hcs _]]]]].
  { exact Hc. } { rewrite Hw. apply Hpos. } { rewrite Hh. apply Hpos. }
  { rewrite Hw. apply next_greater_power_of_2_fixed. lia. }
  { rewrite Hh. apply next_greater_power_of_2_fixed. lia. }
  { rewrite Hw, Hh, Hmax. nia. }
  rewrite Hw, Hh, Hmax in Hws, Hhs.
  (* the tree *)
  destruct (QuadTree_new_complete mcs square Hcs) as [t [Enew [Wt [_ Hroot]]]].
  { unfold get_width, get_height. rewrite Hws, Hhs. specialize (Hpos e). lia. }
  assert (Ft : full_node t = true).
  { unfold get_width in Hroot. rewrite Hws in Hroot. apply Hroot in Hmcs.
    destruct t as [ty c0 c1 c2 c3]. cbn [type] in Hmcs. subst ty.
    apply well_formed_split in Wt.
    destruct Wt as [? [? [? [? [-> [-> [-> [-> _]]]]]]]]. reflexivity. }
  assert (St : unbounded_size t < 2 ^ size_t_bits).
  { pose proof (init_rec_bound _ _ _ _ _ _ _ Enew) as Hb8.
    unfold get_width in Hb8. rewrite Hws in Hb8. specialize (Hpos e). nia. }
  (* merging *)
  destruct (merge_leaves_total t Wt) as [t1 Emerge].
  destruct (merge_leaves_keeps t t1 Wt Emerge) as [W1 [_ S1]].
  assert (F1 : full_node t1 = true).
  { rewrite <- full_node_erase, (merge_leaves_erase t t1 Emerge), full_node_erase. exact Ft. }
  (* simplifying *)
  pose proof (simplify_safe rs t1 W1 F1) as Hsafe.
  assert (Hrun : run =
    match simplify rs t1 with
    | failed e => stop log e
    | running _ => mkExecution log [] unfinished
    | returned tree =>
        match show tree with
        | Err e => stop log e
        | Ok s => mkExecution log [s] (exited 0)
        end
    end).
  { unfold run, main.
    destruct Hargs as [[-> ->] | [cell [-> Hparse]]];
      cbn [List.length Nat.ltb Nat.leb Nat.eqb orb nth];
      rewrite ?Hparse, Hread, Hcopy, Esq, Enew, Emerge; reflexivity. }
  rewrite Hrun.
  destruct (simplify rs t1) as [t2 | err | st] eqn:Esimplify.
  - left. destruct Hsafe as [W2 E2].
    assert (F2 : full_node t2 = true).
    { rewrite <- full_node_erase, E2, full_node_erase. exact F1. }
    destruct (show_within_budget t2 W2 F2) as [s [Es Hlen]].
    + apply (simplify_returned_size rs t1 t2); [exact W1 | lia | exact Esimplify].
    + rewrite Es. exists s. split; [reflexivity | exact Hlen].
  - right; left. rewrite Hsafe. reflexivity.
  - right; right. reflexivity.
Qed.

Lemma main_outcomes_witness :
  let log := [("Reading " ++ "dots.png")%string; "Needlessly building matrix"%string;
              "Making matrix square"%string; "Building quadtree"%string;
              "Merging leaves"%string; "Simplifying"%string] in
  let run := main (fun _ => Some 1) (fun _ => Some (grid 4 4 dots))
               ("dots.png"%string :: ["1"%string]) [] in
  (exists s, run = mkExecution log [s] (exited 0) /\ (String.length s <= 751)%nat)
  \/ run = mkExecution
             (log ++ ["image is hopelessly complex; try a smaller cell size"%string])
             [] (exited 1)
  \/ run = mkExecution log [] unfinished.
Proof.
  apply (main_outcomes (fun _ => Some 1) (fun _ => Some (grid 4 4 dots)) "dots.png"
           ["1"%string] [] (grid 4 4 dots) 1 2 2).
  - right. exists "1"%string. split; reflexivity.
  - reflexivity.
  - split; vm_compute; reflexivity.
  - reflexivity.
  - reflexivity.
  - vm_compute. discriminate.
  - vm_compute. discriminate.
  - vm_compute. reflexivity.
Defined.

(** ** Simplification, further *)

(** X16: a well-formed tree whose root has its four children and whose size
    is within the budget is returned by [simplify] as it is, whatever
    [rand()] would give: no merge is attempted. *)
Theorem simplify_unchanged (rs : list N) (t : QuadTree) :
  well_formed t = true -> full_node t = true ->
  unbounded_size t <= maximum_encoded_size ->
  simplify rs t = returned t.
Proof.
  intros Hwf Hfull Hsize.
  destruct (get_leaves_into_total t [] [] Hwf Hfull) as [leaves E].
  apply (simplify_within_budget rs t leaves (unbounded_size t)).
  - exact E.
  - apply encoded_size_unbounded; [exact Hwf | ].
    apply N.le_lt_trans with maximum_encoded_size; [exact Hsize | vm_compute; reflexivity].
  - exact Hsize.
Qed.

Lemma simplify_unchanged_witness : simplify [7; 7] (dots_tree 3) = returned (dots_tree 3).
Proof.
  apply (simplify_unchanged [7; 7] (dots_tree 3)).
  - reflexivity.
  - reflexivity.
  - vm_compute. discriminate.
Defined.

(** Past the first round the bound is between 1 and 4. *)
Lemma loop_bound (leaves : list path) (last_size : N) (rs : list N) :
  forall st st',
  1 <= st_maximum_detail_loss st <= 4 ->
  loop leaves last_size rs st = running st' ->
  1 <= st_maximum_detail_loss st' <= 4.
Proof.
  induction rs as [ | r rs IH]; intros st st' Hmdl H; cbn [loop] in H;
    destruct (loop_condition leaves st); try discriminate H.
  - injection H as <-. exact Hmdl.
  - destruct (loop_body leaves last_size st r) as [st1 | e] eqn:Hbody; [ | discriminate H].
    apply (IH st1 st'); [ | exact H].
    unfold loop_body in Hbody.
    bind_inv Hbody size Hsize. bind_inv Hbody mdl Emdl.
    destruct (nth_error leaves _) as [leaf | ]; [ | discriminate Hbody].
    bind_inv Hbody merged Hmerge. injection Hbody as <-.
    cbn [st_maximum_detail_loss].
    assert (Hsmall : wrap (st_maximum_detail_loss st + 1) = st_maximum_detail_loss st + 1).
    { apply wrap_small. apply N.le_lt_trans with 5; [lia | vm_compute; reflexivity]. }
    destruct (last_size =? size).
    + destruct (N.ltb_spec 4 (wrap (st_maximum_detail_loss st + 1)));
        [discriminate Emdl | ].
      injection Emdl as <-. lia.
    + injection Emdl as <-. exact Hmdl.
Qed.

(** ** The bound of every merge *)

(** Whether [encoded_size] returns depends on the types met through split
    nodes only. *)
Lemma add_size_Ok (c : option QuadTree) (n : N) :
  (exists m, add_size encoded_size c n = Ok m)
  <-> behind (fun s => exists x, encoded_size s = Ok x) c.
Proof.
  destruct c as [s | ]; cbn [add_size behind].
  - split.
    + intros [m H]. bind_inv H x Hx. exists x. exact Hx.
    + intros [x ->]. eexists. reflexivity.
  - split; [intros _; exact I | intros _; eexists; reflexivity].
Qed.

Lemma encoded_size_split_Ok (c0 c1 c2 c3 : option QuadTree) :
  (exists n, encoded_size (Node SPLIT_TREE c0 c1 c2 c3) = Ok n)
  <-> behind (fun s => exists x, encoded_size s = Ok x) c0
      /\ behind (fun s => exists x, encoded_size s = Ok x) c1
      /\ behind (fun s => exists x, encoded_size s = Ok x) c2
      /\ behind (fun s => exists x, encoded_size s = Ok x) c3.
Proof.
  cbn [encoded_size]. split.
  - intros [n H]. bind_inv H n0 H0. bind_inv H n1 H1. bind_inv H n2 H2.
    repeat split; eapply add_size_Ok; eexists; eassumption.
  - intros [B0 [B1 [B2 B3]]].
    destruct (proj2 (add_size_Ok c0 0) B0) as [n0 ->]. cbn [bind].
    destruct (proj2 (add_size_Ok c1 n0) B1) as [n1 ->]. cbn [bind].
    destruct (proj2 (add_size_Ok c2 n1) B2) as [n2 ->]. cbn [bind].
    apply (proj2 (add_size_Ok c3 n2) B3).
Qed.

(** Giving a node a leaf type does not make [encoded_size] throw. *)
Lemma encoded_size_set_type (q : path) :
  forall (t t' : QuadTree) (ty : Type_),
  (exists size, encoded_size t = Ok size) ->
  is_leaf_type ty = true ->
  set_type_at t q ty = Some t' ->
  exists size', encoded_size t' = Ok size'.
Proof.
  induction q as [ | i q IH]; intros t t' ty Hsize Hl H.
  - destruct t as [ty0 c0 c1 c2 c3]. injection H as <-.
    destruct ty; try discriminate Hl; eexists; reflexivity.
  - cbn [set_type_at] in H.
    destruct (child t i) as [c | ] eqn:Hc; [ | discriminate H].
    destruct (set_type_at c q ty) as [c' | ] eqn:Hset; [ | discriminate H].
    injection H as <-.
    destruct t as [ty0 c0 c1 c2 c3].
    destruct ty0.
    + destruct Hsize as [size Hsize]. discriminate Hsize.
    + destruct i as [ | [ | [ | [ | i]]]]; eexists; reflexivity.
    + destruct i as [ | [ | [ | [ | i]]]]; eexists; reflexivity.
    + destruct i as [ | [ | [ | [ | i]]]]; eexists; reflexivity.
    + apply encoded_size_split_Ok in Hsize. destruct Hsize as [B0 [B1 [B2 B3]]].
      destruct i as [ | [ | [ | [ | i]]]]; cbn [child] in Hc; try discriminate Hc;
        subst; cbn [set_child behind] in *;
        apply encoded_size_split_Ok; cbn [behind];
        repeat split; try assumption;
        apply (IH c c' ty); assumption.
Qed.

Section Rounds.

Variable leaves : list path.
Variable last_size : N.

(** A loop that is still running has found its condition true. *)
Lemma loop_running_condition (rs : list N) :
  forall st st',
  loop leaves last_size rs st = running st' -> loop_condition leaves st' = true.
Proof.
  induction rs as [ | r rs IH]; intros st st' H; cbn [loop] in H;
    destruct (loop_condition leaves st) eqn:Hcond; try discriminate H.
  - injection H as <-. exact Hcond.
  - destruct (loop_body leaves last_size st r) as [st1 | e]; [ | discriminate H].
    apply (IH st1 st'). exact H.
Qed.

(** Running the loop on more values of [rand()] goes on from the state it
    had reached. *)
Lemma loop_app (rs rs' : list N) :
  forall st,
  loop leaves last_size (rs ++ rs') st =
  match loop leaves last_size rs st with
  | running st' => loop leaves last_size rs' st'
  | o => o
  end.
Proof.
  induction rs as [ | r rs IH]; intros st; cbn [app loop].
  - destruct (loop_condition leaves st) eqn:Hcond; [reflexivity | ].
    destruct rs' as [ | r rs']; cbn [loop]; rewrite Hcond; reflexivity.
  - destruct (loop_condition leaves st); [ | reflexivity].
    destruct (loop_body leaves last_size st r) as [st1 | e]; [apply IH | reflexivity].
Qed.

Lemma loop_body_sized (st st' : loop_state) (r : N) :
  loop_body leaves last_size st r = Ok st' ->
  exists size, encoded_size (st_tree st') = Ok size.
Proof.
  unfold loop_body. intros H.
  bind_inv H size Hsize. bind_inv H mdl Hmdl.
  destruct (nth_error leaves _) as [leaf | ]; [ | discriminate H].
  bind_inv H merged Hmerge. injection H as <-. cbn [st_tree].
  destruct merged as [b t']. cbn [snd].
  apply merge_with_sibblings_inv in Hmerge.
  destruct Hmerge as [[_ ->] | [_ [above [ty [_ [_ [Hl Hset]]]]]]].
  - exists size. exact Hsize.
  - apply (encoded_size_set_type _ _ _ _ (ex_intro _ size Hsize) Hl Hset).
Qed.

Lemma loop_sized (rs : list N) :
  forall st st',
  (exists size, encoded_size (st_tree st) = Ok size) ->
  loop leaves last_size rs st = running st' ->
  exists size, encoded_size (st_tree st') = Ok size.
Proof.
  induction rs as [ | r rs IH]; intros st st' Hsize H; cbn [loop] in H;
    destruct (loop_condition leaves st); try discriminate H.
  - injection H as <-. exact Hsize.
  - destruct (loop_body leaves last_size st r) as [st1 | e] eqn:Hbody; [ | discriminate H].
    apply (IH st1 st'); [ | exact H].
    apply (loop_body_sized st st1 r). exact Hbody.
Qed.

(** One round from a state in which the loop goes on: the leaf is found,
    and unless the round throws before it, the merge is made with the
    bound as the round has updated it. *)
Lemma loop_body_round (st : loop_state) (r current_size : N) :
  loop_condition leaves st = true ->
  encoded_size (st_tree st) = Ok current_size ->
  st_maximum_detail_loss st <= 4 ->
  exists leaf,
    nth_error leaves (N.to_nat (r mod N.of_nat (List.length leaves))) = Some leaf
    /\ ((last_size = current_size /\ st_maximum_detail_loss st = 4
         /\ loop_body leaves last_size st r = Err hopeless)
        \/ exists mdl,
             mdl <= 4
             /\ mdl = (if last_size =? current_size
                       then st_maximum_detail_loss st + 1
                       else st_maximum_detail_loss st)
             /\ loop_body leaves last_size st r =
                  (merged <- merge_with_sibblings (st_tree st) leaf mdl ;;
                   Ok (mkState (snd merged) current_size mdl))).
Proof.
  intros Hcond Hsize Hmdl.
  assert (Hsome : (List.length leaves <> 0)%nat).
  { unfold loop_condition in Hcond. apply andb_prop in Hcond.
    destruct Hcond as [H _]. apply negb_true_iff in H. apply Nat.eqb_neq. exact H. }
  destruct (nth_error leaves (N.to_nat (r mod N.of_nat (List.length leaves))))
    as [leaf | ] eqn:Epick.
  2: { apply nth_error_None in Epick.
       assert (r mod N.of_nat (List.length leaves) < N.of_nat (List.length leaves))
         by (apply N.mod_lt; lia).
       lia. }
  exists leaf. split; [reflexivity | ].
  unfold loop_body. rewrite Hsize. cbn [bind].
  assert (Hsmall : wrap (st_maximum_detail_loss st + 1) = st_maximum_detail_loss st + 1).
  { apply wrap_small. apply N.le_lt_trans with 5; [lia | vm_compute; reflexivity]. }
  rewrite Hsmall.
  destruct (N.eqb_spec last_size current_size) as [E | _].
  - destruct (N.ltb_spec 4 (st_maximum_detail_loss st + 1)) as [Hgt | Hle].
    + left. split; [exact E | ]. split; [lia | reflexivity].
    + right. exists (st_maximum_detail_loss st + 1).
      split; [exact Hle | ]. split; [reflexivity | ].
      cbn [bind]. rewrite Epick. reflexivity.
  - right. exists (st_maximum_detail_loss st).
    split; [exact Hmdl | ]. split; [reflexivity | ].
    cbn [bind]. rewrite Epick. reflexivity.
Qed.

End Rounds.

(** X17: in a running [simplify] every round finds the leaf it picks, and
    unless it throws "hopelessly complex" first, it makes its merge with the
    bound as the round has updated it, which is between 1 and 4.  The first
    round finds the size it started from and merges with bound 1, so no
    merge is ever attempted with the initial bound 0; and after one round or
    more the bound of a running loop is between 1 and 4.  The rounds meant
    are those of the program: with more values of [rand()], [simplify] goes
    on with that very round. *)
Theorem simplify_bound (rs : list N) (t : QuadTree) (st : loop_state) :
  simplify rs t = running st ->
  exists leaves size current_size,
    get_leaves t = Ok leaves
    /\ encoded_size t = Ok size
    /\ encoded_size (st_tree st) = Ok current_size
    /\ (rs = [] -> st = mkState t size 0)
    /\ (rs <> [] -> 1 <= st_maximum_detail_loss st <= 4)
    /\ (forall r rs',
          simplify (rs ++ r :: rs') t =
          match loop_body leaves size st r with
          | Ok st' => loop leaves size rs' st'
          | Err e => failed e
          end)
    /\ forall r, exists leaf,
         nth_error leaves (N.to_nat (r mod N.of_nat (List.length leaves))) = Some leaf
         /\ ((rs <> [] /\ loop_body leaves size st r = Err hopeless)
             \/ exists mdl,
                  1 <= mdl <= 4
                  /\ (rs = [] -> mdl = 1)
                  /\ mdl = (if size =? current_size
                            then st_maximum_detail_loss st + 1
                            else st_maximum_detail_loss st)
                  /\ loop_body leaves size st r =
                       (merged <- merge_with_sibblings (st_tree st) leaf mdl ;;
                        Ok (mkState (snd merged) current_size mdl))).
Proof.
  intros H.
  assert (Hmore : forall rs', simplify rs' t =
            match get_leaves t with
            | Err e => failed e
            | Ok leaves =>
                match encoded_size t with
                | Err e => failed e
                | Ok size => loop leaves size rs' (mkState t size 0)
                end
            end) by reflexivity.
  rewrite Hmore in H.
  destruct (get_leaves t) as [leaves | e]; [ | discriminate H].
  destruct (encoded_size t) as [size | e] eqn:Hsize; [ | discriminate H].
  destruct (loop_sized leaves size rs (mkState t size 0) st) as [current_size Hcs];
    [exists size; exact Hsize | exact H | ].
  pose proof (loop_running_condition leaves size rs _ _ H) as Hcond.
  exists leaves, size, current_size.
  split; [reflexivity | ]. split; [reflexivity | ]. split; [exact Hcs | ].
  assert (Hfirst : rs = [] -> st = mkState t size 0).
  { intros ->. cbn [loop] in H. destruct (loop_condition leaves _); [ | discriminate H].
    injection H as <-. reflexivity. }
  assert (Hlater : rs <> [] -> 1 <= st_maximum_detail_loss st <= 4).
  { destruct rs as [ | r rs]; [intros Hne; contradiction Hne; reflexivity | intros _].
    cbn [loop] in H.
    destruct (loop_condition leaves (mkState t size 0)); [ | discriminate H].
    destruct (loop_body leaves size _ r) as [st1 | e] eqn:Hbody; [ | discriminate H].
    apply (loop_bound leaves size rs st1 st); [ | exact H].
    unfold loop_body in Hbody. cbn [st_tree st_maximum_detail_loss] in Hbody.
    rewrite Hsize in Hbody. cbn [bind] in Hbody. rewrite N.eqb_refl in Hbody.
    change (wrap (0 + 1)) with 1 in Hbody. change (4 <? 1) with false in Hbody.
    cbn [bind] in Hbody.
    destruct (nth_error leaves _) as [leaf | ]; [ | discriminate Hbody].
    bind_inv Hbody merged Hmerge. injection Hbody as <-.
    cbn [st_maximum_detail_loss]. lia. }
  split; [exact Hfirst | ]. split; [exact Hlater | ].
  split.
  { intros r rs'. rewrite Hmore, (loop_app leaves size rs (r :: rs')), H.
    cbn [loop]. rewrite Hcond. reflexivity. }
  intros r.
  assert (Hmdl : st_maximum_detail_loss st <= 4).
  { destruct rs as [ | r0 rs]; [rewrite Hfirst by reflexivity; cbn; lia | ].
    apply Hlater. discriminate. }
  destruct (loop_body_round leaves size st r current_size Hcond Hcs Hmdl)
    as [leaf [Epick Hround]].
  exists leaf. split; [exact Epick | ].
  destruct Hround as [[E [H4 Hthrow]] | [mdl [Hle [Emdl Hbody]]]].
  - left. split; [ | exact Hthrow].
    intros ->. rewrite Hfirst in H4 by reflexivity. discriminate H4.
  - right. exists mdl. split; [ | split; [ | split; [exact Emdl | exact Hbody]]].
    + split; [ | exact Hle]. rewrite Emdl.
      destruct (N.eqb_spec size current_size) as [_ | Hne]; [lia | ].
      destruct rs as [ | r0 rs]; [ | apply Hlater; discriminate].
      rewrite Hfirst in Hcs by reflexivity. cbn [st_tree] in Hcs.
      rewrite Hsize in Hcs. injection Hcs as Hcs. contradiction Hne.
    + intros ->. rewrite Hfirst in Hcs, Emdl by reflexivity.
      cbn [st_tree st_maximum_detail_loss] in Hcs, Emdl.
      rewrite Hsize in Hcs. injection Hcs as <-.
      rewrite N.eqb_refl in Emdl. exact Emdl.
Qed.

Lemma simplify_bound_witness :
  exists leaves size current_size,
    get_leaves (dots_tree 5) = Ok leaves
    /\ encoded_size (dots_tree 5) = Ok size
    /\ encoded_size (st_tree (mkState (dots_tree 5) 2048 0)) = Ok current_size
    /\ (@nil N = [] -> mkState (dots_tree 5) 2048 0 = mkState (dots_tree 5) size 0)
    /\ (@nil N <> [] -> 1 <= st_maximum_detail_loss (mkState (dots_tree 5) 2048 0) <= 4)
    /\ (forall r rs',
          simplify ([] ++ r :: rs') (dots_tree 5) =
          match loop_body leaves size (mkState (dots_tree 5) 2048 0) r with
          | Ok st' => loop leaves size rs' st'
          | Err e => failed e
          end)
    /\ forall r, exists leaf,
         nth_error leaves (N.to_nat (r mod N.of_nat (List.length leaves))) = Some leaf
         /\ ((@nil N <> []
              /\ loop_body leaves size (mkState (dots_tree 5) 2048 0) r = Err hopeless)
             \/ exists mdl,
                  1 <= mdl <= 4
                  /\ (@nil N = [] -> mdl = 1)
                  /\ mdl = (if size =? current_size
                            then st_maximum_detail_loss (mkState (dots_tree 5) 2048 0) + 1
                            else st_maximum_detail_loss (mkState (dots_tree 5) 2048 0))
                  /\ loop_body leaves size (mkState (dots_tree 5) 2048 0) r =
                       (merged <- merge_with_sibblings
                                    (st_tree (mkState (dots_tree 5) 2048 0)) leaf mdl ;;
                        Ok (mkState (snd merged) current_size mdl))).
Proof.
  apply (simplify_bound [] (dots_tree 5) (mkState (dots_tree 5) 2048 0)).
  vm_compute. reflexivity.
Defined.

(** ** Mean type, further *)

(** X18: the mean type of a split node is computed from the mean types of
    its four children alone, and lies between the least and the greatest
    of them; the division truncates, so three black children and one white
    one give black. *)
Theorem mean_type_between (t0 t1 t2 t3 : QuadTree) (m0 m1 m2 m3 : Type_) :
  mean_type t0 = Ok m0 -> mean_type t1 = Ok m1 ->
  mean_type t2 = Ok m2 -> mean_type t3 = Ok m3 ->
  exists m,
    mean_type (Node SPLIT_TREE (Some t0) (Some t1) (Some t2) (Some t3)) = Ok m
    /\ int_of_Type m
       = Z.quot (int_of_Type m0 + int_of_Type m1 + int_of_Type m2 + int_of_Type m3) 4
    /\ (Z.min (Z.min (int_of_Type m0) (int_of_Type m1))
              (Z.min (int_of_Type m2) (int_of_Type m3))
        <= int_of_Type m
        <= Z.max (Z.max (int_of_Type m0) (int_of_Type m1))
                 (Z.max (int_of_Type m2) (int_of_Type m3)))%Z.
Proof.
  intros H0 H1 H2 H3. cbn [mean_type deref]. rewrite H0, H1, H2, H3. cbn [bind].
  apply mean_type_leaf in H0, H1, H2, H3.
  destruct m0; try discriminate H0; destruct m1; try discriminate H1;
    destruct m2; try discriminate H2; destruct m3; try discriminate H3;
    eexists; (split; [reflexivity | ]); (split; [reflexivity | ]);
    vm_compute; split; discriminate.
Qed.

Lemma mean_type_between_witness :
  exists m,
    mean_type (Node SPLIT_TREE (Some (dots_tree 0)) (Some (dots_tree 0))
                 (Some (dots_tree 0)) (Some (Node WHITE_TREE None None None None))) = Ok m
    /\ int_of_Type m
       = Z.quot (int_of_Type BLACK_TREE + int_of_Type BLACK_TREE + int_of_Type BLACK_TREE
                 + int_of_Type WHITE_TREE) 4
    /\ (Z.min (Z.min (int_of_Type BLACK_TREE) (int_of_Type BLACK_TREE))
              (Z.min (int_of_Type BLACK_TREE) (int_of_Type WHITE_TREE))
        <= int_of_Type m
        <= Z.max (Z.max (int_of_Type BLACK_TREE) (int_of_Type BLACK_TREE))
                 (Z.max (int_of_Type BLACK_TREE) (int_of_Type WHITE_TREE)))%Z.
Proof.
  apply (mean_type_between (dots_tree 0) (dots_tree 0) (dots_tree 0)
           (Node WHITE_TREE None None None None)); reflexivity.
Defined.
